(** * Coup rules engine: a shallow embedding of [gameEngine.js], [actionResolver.js]
    and the game-facing part of [server.js], with the properties of the design
    document checked against it.

    Conventions of the embedding.
    - A JavaScript object used as a string-keyed dictionary ([responders]) is a
      list of own properties in creation order, with the language's rules for
      [in] (inherited names count), assignment ([__proto__] is a setter) and
      enumeration order (array indices first, ascending).
    - The [Map] in [_private.exchange] is a [gmap].
    - A player object is addressed by its position in [players]; every mutation
      of [actor], [target], [p] goes to that position of the current state, which
      is what mutating the shared object does.
    - [Math.random] is an oracle [rnd]; the state counts the calls made so far.
    - Reading a property of [undefined] raises [TypeError]. *)

From Stdlib Require Import ZArith Ascii String.
From stdpp Require Import base decidable option list strings gmap pretty sorting.

Local Open Scope string_scope.
Local Open Scope list_scope.
Local Open Scope nat_scope.

(** ** JavaScript objects as dictionaries *)

Module JsObject.

Definition t (V : Type) : Type := list (string * V).

(** The names every plain object inherits from [Object.prototype]. *)
Definition prototypeNames : list string :=
  [ "constructor"; "__defineGetter__"; "__defineSetter__"; "hasOwnProperty";
    "__lookupGetter__"; "__lookupSetter__"; "isPrototypeOf";
    "propertyIsEnumerable"; "toString"; "valueOf"; "__proto__";
    "toLocaleString" ].

Definition inherited (k : string) : bool := bool_decide (k ∈ prototypeNames).

Section Ops.
Context {V : Type}.

Fixpoint own (k : string) (o : t V) : option V :=
  match o with
  | [] => None
  | (k', v) :: o' => if decide (k' = k) then Some v else own k o'
  end.

(** [k in o] *)
Definition has (k : string) (o : t V) : bool :=
  bool_decide (is_Some (own k o)) || inherited k.

Fixpoint put (k : string) (v : V) (o : t V) : t V :=
  match o with
  | [] => [(k, v)]
  | (k', v') :: o' => if decide (k' = k) then (k', v) :: o' else (k', v') :: put k v o'
  end.

(** [o[k] = v] for a primitive [v]: the [__proto__] setter ignores it;
    any other name becomes (or stays) an own property. *)
Definition set (k : string) (v : V) (o : t V) : t V :=
  if decide (k = "__proto__") then o else put k v o.

(** [{ [k]: v }]: a computed key always defines an own property. *)
Definition literal (k : string) (v : V) : t V := [(k, v)].

Definition digit (c : ascii) : option N :=
  let n := N_of_ascii c in
  if ((48 <=? n) && (n <=? 57))%N then Some (n - 48)%N else None.

Fixpoint digits (acc : N) (s : string) : option N :=
  match s with
  | EmptyString => Some acc
  | String c s' =>
      match digit c with
      | Some d => digits (acc * 10 + d)%N s'
      | None => None
      end
  end.

(** A property name is an array index when it is the canonical decimal
    form of an integer below 2^32 - 1. *)
Definition arrayIndex (s : string) : option N :=
  match s with
  | EmptyString => None
  | String c s' =>
      if bool_decide (c = "0"%char) && negb (bool_decide (s' = EmptyString)) then None
      else match digits 0%N s with
           | Some n => if (n <? 4294967295)%N then Some n else None
           | None => None
           end
  end.

Definition indexKey (e : string * V) : N := default 0%N (arrayIndex e.1).

Fixpoint insertByIndex (e : string * V) (l : list (string * V)) : list (string * V) :=
  match l with
  | [] => [e]
  | e' :: l' =>
      if (indexKey e <=? indexKey e')%N then e :: e' :: l' else e' :: insertByIndex e l'
  end.

Definition sortByIndex (l : list (string * V)) : list (string * V) :=
  foldr insertByIndex [] l.

(** [Object.entries(o)]: array-index names ascending, then the other
    names in creation order. *)
Definition entries (o : t V) : list (string * V) :=
  sortByIndex (filter (λ e, is_Some (arrayIndex e.1)) o)
    ++ filter (λ e, ¬ is_Some (arrayIndex e.1)) o.

(** [Object.values(o)] *)
Definition values (o : t V) : list V := (entries o).*2.

End Ops.
End JsObject.

(** ** Data model *)

Inductive Role := Duke | Assassin | Captain | Ambassador | Contessa.

Global Instance Role_eq_dec : EqDecision Role.
Proof. solve_decision. Defined.

Definition roleName (r : Role) : string :=
  match r with
  | Duke => "Duke" | Assassin => "Assassin" | Captain => "Captain"
  | Ambassador => "Ambassador" | Contessa => "Contessa"
  end.

Definition allRoles : list Role := [Duke; Assassin; Captain; Ambassador; Contessa].

Record Card := mkCard { role : Role; revealed : bool }.

Record Player := mkPlayer {
  p_id : string;
  p_name : string;
  coins : Z;
  influence : list Card }.

(** ["pending" | "passed" | "challenged"] *)
Inductive Mark := Pending | Passed | Challenged.

Global Instance Mark_eq_dec : EqDecision Mark.
Proof. solve_decision. Defined.

Abbreviation Responders := (JsObject.t Mark).

(** The [continuation] objects, by their [type]. *)
Inductive Continuation :=
| endTurn
| assassinate_open_block (actorId targetId : string)
| assassinate_block_stands
| assassinate_force_target_loss (actorId targetId : string)
| endTurn_after_assassination (targetId : string)
| steal_open_block (actorId targetId : string)
| steal_apply (actorId targetId : string)
| steal_block_stands
| steal_apply_after_block_fail (actorId targetId : string)
| exchange_start_choice (actorId : string).

(** The [pendingAction] objects the resolver builds, one constructor per
    [type] and [stage] it writes; the fields are the ones that object carries
    ([claimedRole] is fixed by [type], [blockedBy] is [null] before a block). *)
Inductive PendingAction :=
| loseInfluence_awaitingChoice (playerId reason : string) (continuation : Continuation)
| tax_awaitingChallenge (actorId : string) (responders : Responders)
| foreign_aid_awaitingBlock (actorId : string) (responders : Responders)
| foreign_aid_awaitingChallengeBlock (actorId blockedBy : string) (responders : Responders)
| assassinate_awaitingChallenge (actorId targetId : string) (responders : Responders)
| assassinate_awaitingBlock (actorId targetId : string) (responders : Responders)
| assassinate_awaitingChallengeBlock (actorId targetId blockedBy : string) (responders : Responders)
| steal_awaitingChallenge (actorId targetId : string) (responders : Responders)
| steal_awaitingBlock (actorId targetId : string) (responders : Responders)
| steal_awaitingChallengeBlock (actorId targetId blockedBy : string) (blockRole : Role)
    (responders : Responders)
| exchange_awaitingChallenge (actorId : string) (responders : Responders)
| exchange_awaitingChoice (actorId : string) (keepCount : nat).

Definition respondersOf (pa : PendingAction) : option Responders :=
  match pa with
  | loseInfluence_awaitingChoice _ _ _ | exchange_awaitingChoice _ _ => None
  | tax_awaitingChallenge _ rs
  | foreign_aid_awaitingBlock _ rs
  | foreign_aid_awaitingChallengeBlock _ _ rs
  | assassinate_awaitingChallenge _ _ rs
  | assassinate_awaitingBlock _ _ rs
  | assassinate_awaitingChallengeBlock _ _ _ rs
  | steal_awaitingChallenge _ _ rs
  | steal_awaitingBlock _ _ rs
  | steal_awaitingChallengeBlock _ _ _ _ rs
  | exchange_awaitingChallenge _ rs => Some rs
  end.

Inductive Source := hand | drawn.

Global Instance Source_eq_dec : EqDecision Source.
Proof. solve_decision. Defined.

(** An exchange option [{ id, role, source, handIndex? }]. *)
Record ExchangeOption := mkOption {
  o_id : string;
  o_role : Role;
  o_source : Source;
  o_handIndex : option nat }.

Record Secret := mkSecret { keepCount : nat; options : list ExchangeOption }.

Record GameEngine := mkGame {
  players : list Player;
  deck : list Role;
  log : list string;
  turnIndex : nat;
  pendingAction : option PendingAction;
  gameOver : bool;
  winnerId : option string;
  exchange : gmap string Secret;   (* _private.exchange *)
  randomCalls : nat                (* calls of Math.random so far *)
}.

Definition set_players (f : list Player → list Player) (g : GameEngine) : GameEngine :=
  mkGame (f (players g)) (deck g) (log g) (turnIndex g) (pendingAction g) (gameOver g)
    (winnerId g) (exchange g) (randomCalls g).
Definition set_deck (d : list Role) (t : nat) (g : GameEngine) : GameEngine :=
  mkGame (players g) d (log g) (turnIndex g) (pendingAction g) (gameOver g)
    (winnerId g) (exchange g) t.
Definition log_push (s : string) (g : GameEngine) : GameEngine :=
  mkGame (players g) (deck g) (log g ++ [s]) (turnIndex g) (pendingAction g) (gameOver g)
    (winnerId g) (exchange g) (randomCalls g).
Definition set_turnIndex (i : nat) (g : GameEngine) : GameEngine :=
  mkGame (players g) (deck g) (log g) i (pendingAction g) (gameOver g)
    (winnerId g) (exchange g) (randomCalls g).
Definition set_pendingAction (pa : option PendingAction) (g : GameEngine) : GameEngine :=
  mkGame (players g) (deck g) (log g) (turnIndex g) pa (gameOver g)
    (winnerId g) (exchange g) (randomCalls g).
Definition set_winner (w : string) (g : GameEngine) : GameEngine :=
  mkGame (players g) (deck g) (log g) (turnIndex g) (pendingAction g) true
    (Some w) (exchange g) (randomCalls g).
Definition set_exchange (f : gmap string Secret → gmap string Secret) (g : GameEngine)
  : GameEngine :=
  mkGame (players g) (deck g) (log g) (turnIndex g) (pendingAction g) (gameOver g)
    (winnerId g) (f (exchange g)) (randomCalls g).

(** What a viewer is sent. *)
Record CardView := mkCardView { cv_role : string; cv_revealed : bool }.

Record PlayerView := mkPlayerView {
  pv_id : string;
  pv_name : string;
  pv_coins : Z;
  pv_alive : bool;
  pv_influence : list CardView }.

Record StateView := mkStateView {
  sv_players : list PlayerView;
  sv_log : list string;
  sv_pendingAction : option PendingAction;
  sv_turnPlayerId : option string;
  sv_gameOver : bool;
  sv_winnerId : option string }.

(** The private message [{ to, msg: { type: "private", kind: "exchangeOptions",
    keepCount, options: [{id, role}] } }]. *)
Record PrivateMessage := mkPrivate {
  to : string;
  msg_keepCount : nat;
  msg_options : list (string * Role) }.

(** What a resolver call leaves behind and returns. *)
Record Reply := mkReply {
  game : GameEngine;
  state : StateView;
  privates : list PrivateMessage }.

(** A call either returns or raises [TypeError]. *)
Inductive result (A : Type) := Ok (a : A) | TypeError.
Arguments Ok {A} a.
Arguments TypeError {A}.

Notation "'let?' x := e 'in' k" :=
  (match e with Some x => k | None => TypeError end)
  (at level 10, x name, e at level 100, k at level 200, only parsing).

(** The payload of a response: [cardIndex] when it is an index, [role] when it
    is a string, [keep] when it is an array (of ids). *)
Record Payload := mkPayload {
  cardIndex : option nat;
  pl_role : option string;
  keep : option (list string) }.

Definition noPayload : Payload := mkPayload None None None.

(** ** The engine ([gameEngine.js]) *)

Section Engine.

(** [rnd t] stands for the [t]-th value of [Math.random()]: where the code
    computes [(Math.random() * (i + 1)) | 0] the model takes
    [rnd t mod (i + 1)], which ranges over the same set [0..i]. *)
Variable rnd : nat → nat.

(** [[arr[i], arr[j]] = [arr[j], arr[i]]] *)
Definition swap {A} (arr : list A) (i j : nat) : list A :=
  match arr !! i, arr !! j with
  | Some x, Some y => <[j := x]> (<[i := y]> arr)
  | _, _ => arr
  end.

(** The loop of [shuffle] from index [i] down to 1; [t] counts the calls
    of [Math.random]. *)
Fixpoint shuffleFrom {A} (i : nat) (arr : list A) (t : nat) : list A * nat :=
  match i with
  | 0 => (arr, t)
  | S i' => shuffleFrom i' (swap arr i (rnd t mod (i + 1))) (S t)
  end.

Definition shuffle {A} (arr : list A) (t : nat) : list A * nat :=
  shuffleFrom (length arr - 1) arr t.

(** Three of each role, in the order [makeDeck] pushes them. *)
Definition fullDeck : list Role := r ← allRoles; replicate 3 r.

Definition makeDeck (t : nat) : list Role * nat := shuffle fullDeck t.

(** [arr.pop()] *)
Definition pop {A} (arr : list A) : option (A * list A) :=
  match reverse arr with
  | [] => None
  | x :: r => Some (x, reverse r)
  end.

(** [draw()]. The deck is never empty when [pop] is reached ([makeDeck]
    has 15 cards, see [draw_pops]); the last branch is not taken. *)
Definition draw (g : GameEngine) : Role * GameEngine :=
  let g1 :=
    if decide (length (deck g) = 0)
    then let '(d, t) := makeDeck (randomCalls g) in set_deck d t g
    else g in
  match pop (deck g1) with
  | Some (r, d) => (r, set_deck d (randomCalls g1) g1)
  | None => (Duke, g1)
  end.

(** [returnToDeck(roles)]: each role is [unshift]ed in turn, then the deck
    is shuffled in place. *)
Definition returnToDeck (roles : list Role) (g : GameEngine) : GameEngine :=
  let '(d, t) := shuffle (reverse roles ++ deck g) (randomCalls g) in
  set_deck d t g.

(** [getPlayer(id)] as the position of the object found, and as the object. *)
Definition getPlayerIndex (g : GameEngine) (id : string) : option nat :=
  fst <$> list_find (λ p, p_id p = id) (players g).

Definition getPlayer (g : GameEngine) (id : string) : option Player :=
  snd <$> list_find (λ p, p_id p = id) (players g).

Definition unrevealed (c : Card) : bool := negb (revealed c).

Definition isAlive (g : GameEngine) (id : string) : bool :=
  match getPlayer g id with
  | None => false
  | Some p => existsb unrevealed (influence p)
  end.

Definition alivePlayers (g : GameEngine) : list Player :=
  filter (λ p, isAlive g (p_id p) = true) (players g).

(** The loop of [currentPlayer]; after [guard] rounds without a living
    player it falls through to [getPlayer(players[0].id)]. *)
Fixpoint currentPlayerLoop (guard : nat) (g : GameEngine) : option Player * GameEngine :=
  match guard with
  | 0 => (hd_error (players g) ≫= λ p, getPlayer g (p_id p), g)
  | S guard' =>
      match players g !! (turnIndex g mod length (players g)) with
      | Some p =>
          if isAlive g (p_id p) then (Some p, g)
          else currentPlayerLoop guard'
                 (set_turnIndex ((turnIndex g + 1) mod length (players g)) g)
      | None => (None, g)
      end
  end.

(** [currentPlayer()]; it moves [turnIndex] past eliminated players. *)
Definition currentPlayer (g : GameEngine) : option Player * GameEngine :=
  if gameOver g then (None, g)
  else if decide (length (alivePlayers g) = 0) then (None, g)
  else currentPlayerLoop (length (players g)) g.

Definition checkWin (g : GameEngine) : GameEngine :=
  if gameOver g then g
  else match alivePlayers g with
       | [p] => log_push (p_name p +:+ " wins!") (set_winner (p_id p) g)
       | _ => g
       end.

(** The loop of [nextTurn]: advance, stop at the first living player. *)
Fixpoint nextTurnLoop (guard : nat) (g : GameEngine) : GameEngine :=
  match guard with
  | 0 => g
  | S guard' =>
      let g1 := set_turnIndex ((turnIndex g + 1) mod length (players g)) g in
      match players g1 !! turnIndex g1 with
      | Some p => if isAlive g1 (p_id p) then g1 else nextTurnLoop guard' g1
      | None => g1
      end
  end.

Definition nextTurn (g : GameEngine) : GameEngine :=
  let g1 := checkWin g in
  if gameOver g1 then g1
  else
    let g2 := nextTurnLoop (length (players g1)) g1 in
    match currentPlayer g2 with
    | (Some cp, g3) => log_push ("It is now " +:+ p_name cp +:+ "'s turn.") g3
    | (None, g3) => g3
    end.

Definition playerHasRole (g : GameEngine) (playerId : string) (r : Role) : bool :=
  match getPlayer g playerId with
  | None => false
  | Some p => existsb (λ c, unrevealed c && bool_decide (role c = r)) (influence p)
  end.

(** [p.influence.findIndex((c) => !c.revealed && c.role === role)] *)
Definition findRole (r : Role) (cards : list Card) : option nat :=
  fst <$> list_find (λ c, revealed c = false ∧ role c = r) cards.

Definition alterPlayer (i : nat) (f : Player → Player) (g : GameEngine) : GameEngine :=
  set_players (alter f i) g.

Definition set_influence (f : list Card → list Card) (p : Player) : Player :=
  mkPlayer (p_id p) (p_name p) (coins p) (f (influence p)).

Definition add_coins (n : Z) (p : Player) : Player :=
  mkPlayer (p_id p) (p_name p) (coins p + n)%Z (influence p).

Definition reveal (c : Card) : Card := mkCard (role c) true.

Definition revealAndRedraw (g : GameEngine) (playerId : string) (r : Role)
  : bool * GameEngine :=
  match list_find (λ p, p_id p = playerId) (players g) with
  | None => (false, g)
  | Some (pi, p) =>
      match findRole r (influence p) with
      | None => (false, g)
      | Some idx =>
          let g := alterPlayer pi (set_influence (alter reveal idx)) g in
          let g := log_push (p_name p +:+ " reveals " +:+ roleName r +:+ ".") g in
          let g := returnToDeck [r] g in
          let '(r', g) := draw g in
          let g := alterPlayer pi (set_influence <[idx := mkCard r' false]>) g in
          let g := log_push (p_name p +:+ " draws a replacement influence.") g in
          (true, g)
      end
  end.

(** [loseInfluence(playerId, cardIndex)]: [cardIndex] must be the position
    of an unrevealed card. *)
Definition loseInfluence (g : GameEngine) (playerId : string) (cardIndex : option nat)
  : bool * GameEngine :=
  match list_find (λ p, p_id p = playerId) (players g) with
  | None => (false, g)
  | Some (pi, p) =>
      match cardIndex ≫= λ i, (λ c, (i, c)) <$> influence p !! i with
      | Some (i, c) =>
          if revealed c then (false, g)
          else
            let g := alterPlayer pi (set_influence (alter reveal i)) g in
            let g := log_push (p_name p +:+ " loses influence (" +:+ roleName (role c)
                                 +:+ " revealed).") g in
            (true, checkWin g)
      | None => (false, g)
      end
  end.

Definition viewCard (own : bool) (c : Card) : CardView :=
  if revealed c then mkCardView (roleName (role c)) true
  else if own then mkCardView (roleName (role c)) false
  else mkCardView "?" false.

Definition viewPlayer (g : GameEngine) (viewerId : option string) (p : Player) : PlayerView :=
  mkPlayerView (p_id p) (p_name p) (coins p) (isAlive g (p_id p))
    (viewCard (bool_decide (Some (p_id p) = viewerId)) <$> influence p).

(** [getStateFor(viewerId)]; [viewerId] is [None] for [null]. The call of
    [currentPlayer()] inside it may move [turnIndex]. *)
Definition getStateFor (g : GameEngine) (viewerId : option string)
  : StateView * GameEngine :=
  let ps := viewPlayer g viewerId <$> players g in
  let lg := drop (length (log g) - 80) (log g) in
  let pa := pendingAction g in
  let '(cp, g') := currentPlayer g in
  (mkStateView ps lg pa (p_id <$> cp) (gameOver g') (winnerId g'), g').

Definition getPublicState (g : GameEngine) : StateView * GameEngine :=
  getStateFor g None.

(** [new GameEngine(players)] for [players : [{id, name}]]. *)
Definition deal (g : GameEngine) (pi : nat) : GameEngine :=
  let '(r1, g) := draw g in
  let g := alterPlayer pi (set_influence (λ cs, cs ++ [mkCard r1 false])) g in
  let '(r2, g) := draw g in
  alterPlayer pi (set_influence (λ cs, cs ++ [mkCard r2 false])) g.

Definition newGame (ps : list (string * string)) (t : nat) : GameEngine :=
  let '(d, t) := makeDeck t in
  let g := mkGame ((λ p, mkPlayer p.1 p.2 2 []) <$> ps) d [] 0 None false None ∅ t in
  let g := foldl deal g (seq 0 (length ps)) in
  let g := log_push "Game started. Each player has 2 influence and 2 coins." g in
  match currentPlayer g with
  | (Some cp, g) => log_push ("It is now " +:+ p_name cp +:+ "'s turn.") g
  | (None, g) => g
  end.

End Engine.

(** ** The resolver ([actionResolver.js]) *)

Section Resolver.

Variable rnd : nat → nat.

Definition initResponders (g : GameEngine) (excludeId : string) : Responders :=
  foldl (λ responders p,
           if decide (p_id p = excludeId) then responders
           else if negb (isAlive g (p_id p)) then responders
           else JsObject.set (p_id p) Pending responders)
    [] (players g).

Definition everyonePassed (responders : Responders) : bool :=
  forallb (λ v, bool_decide (v = Passed)) (JsObject.values responders).

Definition firstChallenger (responders : Responders) : option string :=
  fst <$> List.find (λ e, bool_decide (e.2 = Challenged)) (JsObject.entries responders).

(** [if (challengerId)]: [null] and the empty string are falsy. *)
Definition truthy (id : option string) : option string :=
  match id with
  | Some EmptyString => None
  | _ => id
  end.

(** [{ state: game.getPublicState(), privates }] *)
Definition reply (g : GameEngine) (privs : list PrivateMessage) : Reply :=
  let '(st, g') := getPublicState g in mkReply g' st privs.

Definition finishTurn (g : GameEngine) : Reply :=
  reply (nextTurn (set_pendingAction None g)) [].

Definition beginLoseInfluence (g : GameEngine) (playerId reason : string)
    (continuation : Continuation) : GameEngine :=
  set_pendingAction (Some (loseInfluence_awaitingChoice playerId reason continuation)) g.

Definition applySteal (g : GameEngine) (actorId targetId : string) : GameEngine :=
  match list_find (λ p, p_id p = actorId) (players g),
        list_find (λ p, p_id p = targetId) (players g) with
  | Some (ia, actor), Some (it, target) =>
      let amt := Z.min 2 (coins target) in
      let g := alterPlayer it (add_coins (- amt)) g in
      let g := alterPlayer ia (add_coins amt) g in
      log_push (p_name actor +:+ " steals " +:+ pretty amt +:+ " coin(s) from "
                  +:+ p_name target +:+ ".") g
  | _, _ => g
  end.

(** [influence.map((c, i) => ({ c, i })).filter(({ c }) => !c.revealed)] *)
Definition aliveCards (p : Player) : list (nat * Card) :=
  filter (λ ic, revealed ic.2 = false) (imap (λ i c, (i, c)) (influence p)).

(** The options [{ id: `h${seq++}`, role, source: "hand", handIndex: i }] made
    from the unrevealed cards. *)
Definition handOptions (p : Player) : list ExchangeOption :=
  imap (λ seq ic, mkOption ("h" +:+ pretty seq) (role ic.2) hand (Some ic.1)) (aliveCards p).

(** The two options [{ id: `d${seq++}`, role, source: "drawn" }]. *)
Definition drawnOptions (seq : nat) (d1 d2 : Role) : list ExchangeOption :=
  [ mkOption ("d" +:+ pretty seq) d1 drawn None;
    mkOption ("d" +:+ pretty (S seq)) d2 drawn None ].

Definition startExchangeChoice (g : GameEngine) (actorId : string) : Reply :=
  match list_find (λ p, p_id p = actorId) (players g) with
  | None => reply g []
  | Some (_, actor) =>
      let handIdx := aliveCards actor in
      let keepCount := length handIdx in
      if decide (keepCount = 0) then finishTurn g
      else
        let '(d1, g) := draw rnd g in
        let '(d2, g) := draw rnd g in
        let options := handOptions actor ++ drawnOptions keepCount d1 d2 in
        let g := set_exchange <[actorId := mkSecret keepCount options]> g in
        let g := set_pendingAction (Some (exchange_awaitingChoice actorId keepCount)) g in
        reply g [ mkPrivate actorId keepCount ((λ o, (o_id o, o_role o)) <$> options) ]
  end.

Definition continueAfterLoseInfluence (g : GameEngine) (cont : Continuation) : Reply :=
  match cont with
  | endTurn => finishTurn g
  | assassinate_open_block actorId targetId =>
      reply (set_pendingAction
               (Some (assassinate_awaitingBlock actorId targetId
                        (JsObject.literal targetId Pending))) g) []
  | assassinate_block_stands =>
      finishTurn (log_push "Assassination is blocked." g)
  | assassinate_force_target_loss actorId targetId =>
      reply (beginLoseInfluence g targetId "assassinated"
               (endTurn_after_assassination targetId)) []
  | endTurn_after_assassination targetId =>
      match getPlayer g targetId with
      | Some target => finishTurn (log_push (p_name target +:+ " is assassinated.") g)
      | None => finishTurn g
      end
  | steal_open_block actorId targetId =>
      reply (set_pendingAction
               (Some (steal_awaitingBlock actorId targetId
                        (JsObject.literal targetId Pending))) g) []
  | steal_apply actorId targetId => finishTurn (applySteal g actorId targetId)
  | steal_block_stands => finishTurn (log_push "Steal is blocked." g)
  | steal_apply_after_block_fail actorId targetId =>
      finishTurn (applySteal g actorId targetId)
  | exchange_start_choice actorId => startExchangeChoice g actorId
  end.

(** [resolveAction(game, { actorId, actionType, targetId })]; [targetId] is
    [None] when it is not a string. *)
Definition resolveAction (g : GameEngine) (actorId actionType : string)
    (targetId : option string) : Reply :=
  match list_find (λ p, p_id p = actorId) (players g) with
  | None => reply g []
  | Some (ia, actor) =>
      if bool_decide (actionType ≠ "coup") && bool_decide (10 ≤ coins actor)%Z
      then reply (log_push (p_name actor +:+ " has 10+ coins and must Coup.") g) []
      else if decide (actionType = "income") then
        let g := alterPlayer ia (add_coins 1) g in
        finishTurn (log_push (p_name actor +:+ " takes Income (+1).") g)
      else if decide (actionType = "coup") then
        match targetId ≫= getPlayer g with
        | Some target =>
            if negb (isAlive g (p_id target))
            then reply (log_push "Invalid Coup target." g) []
            else if bool_decide (coins actor < 7)%Z
            then reply (log_push (p_name actor +:+ " cannot Coup (needs 7 coins).") g) []
            else
              let g := alterPlayer ia (add_coins (-7)) g in
              let g := log_push (p_name actor +:+ " launches a Coup on " +:+ p_name target
                                   +:+ " (7 coins).") g in
              reply (beginLoseInfluence g (p_id target) "coup" endTurn) []
        | None => reply (log_push "Invalid Coup target." g) []
        end
      else if decide (actionType = "foreign_aid") then
        let g := alterPlayer ia (add_coins 2) g in
        let g := log_push (p_name actor +:+ " attempts Foreign Aid (+2).") g in
        reply (set_pendingAction
                 (Some (foreign_aid_awaitingBlock actorId (initResponders g actorId))) g) []
      else if decide (actionType = "tax") then
        let g := log_push (p_name actor +:+ " claims Duke for Tax (+3).") g in
        reply (set_pendingAction
                 (Some (tax_awaitingChallenge actorId (initResponders g actorId))) g) []
      else if decide (actionType = "assassinate") then
        match targetId ≫= getPlayer g with
        | Some target =>
            if negb (isAlive g (p_id target)) || bool_decide (p_id target = actorId)
            then reply (log_push "Invalid Assassination target." g) []
            else if bool_decide (coins actor < 3)%Z
            then reply (log_push (p_name actor +:+ " cannot Assassinate (needs 3 coins).") g) []
            else
              let g := alterPlayer ia (add_coins (-3)) g in
              let g := log_push (p_name actor +:+ " claims Assassin to assassinate "
                                   +:+ p_name target +:+ " (3 coins).") g in
              reply (set_pendingAction
                       (Some (assassinate_awaitingChallenge actorId (p_id target)
                                (initResponders g actorId))) g) []
        | None => reply (log_push "Invalid Assassination target." g) []
        end
      else if decide (actionType = "steal") then
        match targetId ≫= getPlayer g with
        | Some target =>
            if negb (isAlive g (p_id target)) || bool_decide (p_id target = actorId)
            then reply (log_push "Invalid Steal target." g) []
            else
              let g := log_push (p_name actor +:+ " claims Captain to steal from "
                                   +:+ p_name target +:+ ".") g in
              reply (set_pendingAction
                       (Some (steal_awaitingChallenge actorId (p_id target)
                                (initResponders g actorId))) g) []
        | None => reply (log_push "Invalid Steal target." g) []
        end
      else if decide (actionType = "exchange") then
        let g := log_push (p_name actor +:+ " claims Ambassador to Exchange.") g in
        reply (set_pendingAction
                 (Some (exchange_awaitingChallenge actorId (initResponders g actorId))) g) []
      else reply (log_push ("Unknown action: " +:+ actionType) g) []
  end.

End Resolver.

(** ** [handleResponse], block by block *)

Section Responses.

Variable rnd : nat → nat.

(** [if (responseType === "pass") responders[playerId] = "passed"; else if
    (responseType === "challenge") responders[playerId] = "challenged";
    else return ...], the opening of every challenge stage. *)
Definition recordResponse (playerId responseType : string) (responders : Responders)
  : option Responders :=
  if decide (responseType = "pass") then Some (JsObject.set playerId Passed responders)
  else if decide (responseType = "challenge")
  then Some (JsObject.set playerId Challenged responders)
  else None.

(** 1) Lose influence choice *)
Definition respondLoseInfluence (g : GameEngine) (pendingPlayerId : string)
    (cont : Continuation) (playerId responseType : string) (payload : Payload) : Reply :=
  if decide (playerId ≠ pendingPlayerId) then reply g []
  else if decide (responseType ≠ "loseInfluence") then reply g []
  else
    match loseInfluence g playerId (cardIndex payload) with
    | (false, g) => reply g []
    | (true, g) => continueAfterLoseInfluence rnd (set_pendingAction None g) cont
    end.

(** 2) Tax (Duke) *)
Definition respondTax (g : GameEngine) (actorId : string) (responders : Responders)
    (playerId responseType : string) : result Reply :=
  if negb (JsObject.has playerId responders) then Ok (reply g [])
  else
    match recordResponse playerId responseType responders with
    | None => Ok (reply g [])
    | Some responders =>
        let g := set_pendingAction (Some (tax_awaitingChallenge actorId responders)) g in
        match truthy (firstChallenger responders) with
        | Some challengerId =>
            let actorHas := playerHasRole g actorId Duke in
            let actor := list_find (λ p, p_id p = actorId) (players g) in
            let challenger := getPlayer g challengerId in
            if actorHas then
              let? ch := challenger in
              let g := log_push (p_name ch +:+ " challenges — FAILED.") g in
              let g := (revealAndRedraw rnd g actorId Duke).2 in
              let? a := actor in
              let g := alterPlayer a.1 (add_coins 3) g in
              let g := log_push (p_name a.2 +:+ " takes Tax (+3).") g in
              Ok (reply (beginLoseInfluence g challengerId "failed_challenge" endTurn) [])
            else
              let? ch := challenger in
              let g := log_push (p_name ch +:+ " challenges — SUCCESS.") g in
              let g := log_push "Tax fails." g in
              Ok (reply (beginLoseInfluence g actorId "lost_challenge" endTurn) [])
        | None =>
            if everyonePassed responders then
              let? a := list_find (λ p, p_id p = actorId) (players g) in
              let g := alterPlayer a.1 (add_coins 3) g in
              let g := log_push (p_name a.2 +:+ " takes Tax (+3).") g in
              Ok (finishTurn g)
            else Ok (reply g [])
        end
    end.

(** 3) Foreign Aid, stage [awaitingBlock] *)
Definition respondForeignAidBlock (g : GameEngine) (actorId : string)
    (responders : Responders) (playerId responseType : string) (payload : Payload)
  : result Reply :=
  if negb (JsObject.has playerId responders) then Ok (reply g [])
  else if decide (responseType = "pass") then
    let responders := JsObject.set playerId Passed responders in
    let g := set_pendingAction (Some (foreign_aid_awaitingBlock actorId responders)) g in
    if everyonePassed responders
    then Ok (finishTurn (log_push "Foreign Aid succeeds." g))
    else Ok (reply g [])
  else if bool_decide (responseType = "block") && bool_decide (pl_role payload = Some "Duke")
  then
    let g := set_pendingAction
               (Some (foreign_aid_awaitingChallengeBlock actorId playerId
                        (initResponders g playerId))) g in
    let? blocker := getPlayer g playerId in
    Ok (reply (log_push (p_name blocker +:+ " blocks Foreign Aid with Duke.") g) [])
  else Ok (reply g []).

(** 3) Foreign Aid, stage [awaitingChallengeBlock] *)
Definition respondForeignAidChallengeBlock (g : GameEngine) (actorId blockedBy : string)
    (responders : Responders) (playerId responseType : string) : result Reply :=
  let actor := list_find (λ p, p_id p = actorId) (players g) in
  if negb (JsObject.has playerId responders) then Ok (reply g [])
  else
    match recordResponse playerId responseType responders with
    | None => Ok (reply g [])
    | Some responders =>
        let g := set_pendingAction
                   (Some (foreign_aid_awaitingChallengeBlock actorId blockedBy responders)) g in
        match truthy (firstChallenger responders) with
        | Some challengerId =>
            let blockerId := blockedBy in
            let blockerHas := playerHasRole g blockerId Duke in
            let challenger := getPlayer g challengerId in
            if blockerHas then
              let? ch := challenger in
              let g := log_push (p_name ch +:+ " challenges block — FAILED.") g in
              let g := (revealAndRedraw rnd g blockerId Duke).2 in
              let? a := actor in
              let g := alterPlayer a.1 (add_coins (-2)) g in
              let g := log_push "Foreign Aid is blocked." g in
              Ok (reply (beginLoseInfluence g challengerId "failed_challenge" endTurn) [])
            else
              let? ch := challenger in
              let g := log_push (p_name ch +:+ " challenges block — SUCCESS.") g in
              let g := log_push "Block fails. Foreign Aid succeeds." g in
              Ok (reply (beginLoseInfluence g blockerId "lost_challenge" endTurn) [])
        | None =>
            if everyonePassed responders then
              let? a := actor in
              let g := alterPlayer a.1 (add_coins (-2)) g in
              Ok (finishTurn (log_push "Foreign Aid is blocked." g))
            else Ok (reply g [])
        end
    end.

(** 4) Assassinate, stage [awaitingChallenge] *)
Definition respondAssassinateChallenge (g : GameEngine) (actorId targetId : string)
    (responders : Responders) (playerId responseType : string) : result Reply :=
  if negb (JsObject.has playerId responders) then Ok (reply g [])
  else
    match recordResponse playerId responseType responders with
    | None => Ok (reply g [])
    | Some responders =>
        let g := set_pendingAction
                   (Some (assassinate_awaitingChallenge actorId targetId responders)) g in
        match truthy (firstChallenger responders) with
        | Some challengerId =>
            let actorHas := playerHasRole g actorId Assassin in
            let challenger := getPlayer g challengerId in
            if actorHas then
              let? ch := challenger in
              let g := log_push (p_name ch +:+ " challenges — FAILED.") g in
              let g := (revealAndRedraw rnd g actorId Assassin).2 in
              Ok (reply (beginLoseInfluence g challengerId "failed_challenge"
                           (assassinate_open_block actorId targetId)) [])
            else
              let? ch := challenger in
              let g := log_push (p_name ch +:+ " challenges — SUCCESS.") g in
              let g := log_push "Assassination fails." g in
              Ok (reply (beginLoseInfluence g actorId "lost_challenge" endTurn) [])
        | None =>
            if everyonePassed responders then
              Ok (reply (set_pendingAction
                           (Some (assassinate_awaitingBlock actorId targetId
                                    (JsObject.literal targetId Pending))) g) [])
            else Ok (reply g [])
        end
    end.

(** 4) Assassinate, stage [awaitingBlock] *)
Definition respondAssassinateBlock (g : GameEngine) (actorId targetId : string)
    (playerId responseType : string) (payload : Payload) : result Reply :=
  let target := getPlayer g targetId in
  if decide (playerId ≠ targetId) then Ok (reply g [])
  else if decide (responseType = "pass") then
    Ok (reply (beginLoseInfluence g targetId "assassinated"
                 (endTurn_after_assassination targetId)) [])
  else if bool_decide (responseType = "block")
          && bool_decide (pl_role payload = Some "Contessa")
  then
    let? tg := target in
    let g := log_push (p_name tg +:+ " blocks the assassination with Contessa.") g in
    Ok (reply (set_pendingAction
                 (Some (assassinate_awaitingChallengeBlock actorId targetId targetId
                          (initResponders g targetId))) g) [])
  else Ok (reply g []).

(** 4) Assassinate, stage [awaitingChallengeBlock] *)
Definition respondAssassinateChallengeBlock (g : GameEngine)
    (actorId targetId blockedBy : string) (responders : Responders)
    (playerId responseType : string) : result Reply :=
  if negb (JsObject.has playerId responders) then Ok (reply g [])
  else
    match recordResponse playerId responseType responders with
    | None => Ok (reply g [])
    | Some responders =>
        let g := set_pendingAction
                   (Some (assassinate_awaitingChallengeBlock actorId targetId blockedBy
                            responders)) g in
        match truthy (firstChallenger responders) with
        | Some challengerId =>
            let blockerId := blockedBy in
            let blockerHas := playerHasRole g blockerId Contessa in
            let challenger := getPlayer g challengerId in
            if blockerHas then
              let? ch := challenger in
              let g := log_push (p_name ch +:+ " challenges block — FAILED.") g in
              let g := (revealAndRedraw rnd g blockerId Contessa).2 in
              Ok (reply (beginLoseInfluence g challengerId "failed_challenge"
                           assassinate_block_stands) [])
            else
              let? ch := challenger in
              let g := log_push (p_name ch +:+ " challenges block — SUCCESS.") g in
              Ok (reply (beginLoseInfluence g blockerId "lost_challenge"
                           (assassinate_force_target_loss actorId targetId)) [])
        | None =>
            if everyonePassed responders
            then Ok (finishTurn (log_push "Assassination is blocked." g))
            else Ok (reply g [])
        end
    end.

(** 5) Steal, A) challenge the Captain claim *)
Definition respondStealChallenge (g : GameEngine) (actorId targetId : string)
    (responders : Responders) (playerId responseType : string) : result Reply :=
  if negb (JsObject.has playerId responders) then Ok (reply g [])
  else
    match recordResponse playerId responseType responders with
    | None => Ok (reply g [])
    | Some responders =>
        let g := set_pendingAction
                   (Some (steal_awaitingChallenge actorId targetId responders)) g in
        match truthy (firstChallenger responders) with
        | Some challengerId =>
            let actorHas := playerHasRole g actorId Captain in
            let challenger := getPlayer g challengerId in
            if actorHas then
              let? ch := challenger in
              let g := log_push (p_name ch +:+ " challenges — FAILED.") g in
              let g := (revealAndRedraw rnd g actorId Captain).2 in
              Ok (reply (beginLoseInfluence g challengerId "failed_challenge"
                           (steal_open_block actorId targetId)) [])
            else
              let? ch := challenger in
              let g := log_push (p_name ch +:+ " challenges — SUCCESS.") g in
              let g := log_push "Steal fails." g in
              Ok (reply (beginLoseInfluence g actorId "lost_challenge" endTurn) [])
        | None =>
            if everyonePassed responders then
              Ok (reply (set_pendingAction
                           (Some (steal_awaitingBlock actorId targetId
                                    (JsObject.literal targetId Pending))) g) [])
            else Ok (reply g [])
        end
    end.

(** 5) Steal, B) the target blocks with Captain or Ambassador, or passes *)
Definition respondStealBlock (g : GameEngine) (actorId targetId : string)
    (playerId responseType : string) (payload : Payload) : result Reply :=
  let target := getPlayer g targetId in
  if decide (playerId ≠ targetId) then Ok (reply g [])
  else if decide (responseType = "pass") then
    let g := set_pendingAction None g in
    Ok (finishTurn (applySteal g actorId targetId))
  else if bool_decide (responseType = "block")
          && (bool_decide (pl_role payload = Some "Captain")
              || bool_decide (pl_role payload = Some "Ambassador"))
  then
    let role := if bool_decide (pl_role payload = Some "Captain") then Captain
                else Ambassador in
    let? tg := target in
    let g := log_push (p_name tg +:+ " blocks the steal with " +:+ roleName role +:+ ".") g in
    Ok (reply (set_pendingAction
                 (Some (steal_awaitingChallengeBlock actorId targetId targetId role
                          (initResponders g targetId))) g) [])
  else Ok (reply g []).

(** 5) Steal, C) challenge the block claim *)
Definition respondStealChallengeBlock (g : GameEngine)
    (actorId targetId blockedBy : string) (blockRole : Role) (responders : Responders)
    (playerId responseType : string) : result Reply :=
  if negb (JsObject.has playerId responders) then Ok (reply g [])
  else
    match recordResponse playerId responseType responders with
    | None => Ok (reply g [])
    | Some responders =>
        let g := set_pendingAction
                   (Some (steal_awaitingChallengeBlock actorId targetId blockedBy blockRole
                            responders)) g in
        match truthy (firstChallenger responders) with
        | Some challengerId =>
            let blockerId := blockedBy in
            let role := blockRole in
            let blockerHas := playerHasRole g blockerId role in
            let challenger := getPlayer g challengerId in
            if blockerHas then
              let? ch := challenger in
              let g := log_push (p_name ch +:+ " challenges block — FAILED.") g in
              let g := (revealAndRedraw rnd g blockerId role).2 in
              Ok (reply (beginLoseInfluence g challengerId "failed_challenge"
                           steal_block_stands) [])
            else
              let? ch := challenger in
              let g := log_push (p_name ch +:+ " challenges block — SUCCESS.") g in
              Ok (reply (beginLoseInfluence g blockerId "lost_challenge"
                           (steal_apply_after_block_fail actorId targetId)) [])
        | None =>
            if everyonePassed responders
            then Ok (finishTurn (log_push "Steal is blocked." g))
            else Ok (reply g [])
        end
    end.

(** 6) Exchange, A) challenge the Ambassador claim *)
Definition respondExchangeChallenge (g : GameEngine) (actorId : string)
    (responders : Responders) (playerId responseType : string) : result Reply :=
  if negb (JsObject.has playerId responders) then Ok (reply g [])
  else
    match recordResponse playerId responseType responders with
    | None => Ok (reply g [])
    | Some responders =>
        let g := set_pendingAction (Some (exchange_awaitingChallenge actorId responders)) g in
        match truthy (firstChallenger responders) with
        | Some challengerId =>
            let actorHas := playerHasRole g actorId Ambassador in
            let challenger := getPlayer g challengerId in
            if actorHas then
              let? ch := challenger in
              let g := log_push (p_name ch +:+ " challenges — FAILED.") g in
              let g := (revealAndRedraw rnd g actorId Ambassador).2 in
              Ok (reply (beginLoseInfluence g challengerId "failed_challenge"
                           (exchange_start_choice actorId)) [])
            else
              let? ch := challenger in
              let g := log_push (p_name ch +:+ " challenges — SUCCESS.") g in
              let g := log_push "Exchange fails." g in
              Ok (reply (beginLoseInfluence g actorId "lost_challenge" endTurn) [])
        | None =>
            if everyonePassed responders then Ok (startExchangeChoice rnd g actorId)
            else Ok (reply g [])
        end
    end.

(** [[...new Set(keep)]]: the distinct elements, by first occurrence. *)
Definition uniqueOf (keep : list string) : list string :=
  foldl (λ acc k, if decide (k ∈ acc) then acc else acc ++ [k]) [] keep.

(** The loop [actor.influence[handSlots[k]] = { role: chosen[k].role,
    revealed: false }]. *)
Definition placeChosen (handSlots : list nat) (chosen : list ExchangeOption)
    (cards : list Card) : list Card :=
  foldl (λ cs sc, <[sc.1 := mkCard (o_role sc.2) false]> cs) cards (zip handSlots chosen).

(** 6) Exchange, B) the actor picks which to keep *)
Definition respondExchangeChoice (g : GameEngine) (actorId : string)
    (playerId responseType : string) (payload : Payload) : Reply :=
  if decide (playerId ≠ actorId) then reply g []
  else if decide (responseType ≠ "exchangeChoice") then reply g []
  else
    match exchange g !! playerId with
    | None => reply g []
    | Some secret =>
        let keep := default [] (keep payload) in
        let unique := uniqueOf keep in
        if decide (length unique ≠ keepCount secret) then reply g []
        else
          let chosen := filter (λ o, o_id o ∈ unique) (options secret) in
          if decide (length chosen ≠ keepCount secret) then reply g []
          else
            match list_find (λ p, p_id p = playerId) (players g) with
            | None => reply g []
            | Some (ia, actor) =>
                let handSlots := (aliveCards actor).*1 in
                if decide (length handSlots ≠ keepCount secret) then reply g []
                else
                  let unchosenRoles :=
                    o_role <$> filter (λ o, o_id o ∉ unique) (options secret) in
                  let g := alterPlayer ia (set_influence (placeChosen handSlots chosen)) g in
                  let g := returnToDeck rnd unchosenRoles g in
                  let g := set_exchange (delete playerId) g in
                  let g := log_push (p_name actor +:+ " completes Exchange.") g in
                  finishTurn g
            end
    end.

(** [handleResponse(game, { playerId, responseType, payload })] *)
Definition handleResponse (g : GameEngine) (playerId responseType : string)
    (payload : Payload) : result Reply :=
  match pendingAction g with
  | None => Ok (reply g [])
  | Some (loseInfluence_awaitingChoice pendingPlayerId _ cont) =>
      Ok (respondLoseInfluence g pendingPlayerId cont playerId responseType payload)
  | Some (tax_awaitingChallenge actorId responders) =>
      respondTax g actorId responders playerId responseType
  | Some (foreign_aid_awaitingBlock actorId responders) =>
      respondForeignAidBlock g actorId responders playerId responseType payload
  | Some (foreign_aid_awaitingChallengeBlock actorId blockedBy responders) =>
      respondForeignAidChallengeBlock g actorId blockedBy responders playerId responseType
  | Some (assassinate_awaitingChallenge actorId targetId responders) =>
      respondAssassinateChallenge g actorId targetId responders playerId responseType
  | Some (assassinate_awaitingBlock actorId targetId _) =>
      respondAssassinateBlock g actorId targetId playerId responseType payload
  | Some (assassinate_awaitingChallengeBlock actorId targetId blockedBy responders) =>
      respondAssassinateChallengeBlock g actorId targetId blockedBy responders
        playerId responseType
  | Some (steal_awaitingChallenge actorId targetId responders) =>
      respondStealChallenge g actorId targetId responders playerId responseType
  | Some (steal_awaitingBlock actorId targetId _) =>
      respondStealBlock g actorId targetId playerId responseType payload
  | Some (steal_awaitingChallengeBlock actorId targetId blockedBy blockRole responders) =>
      respondStealChallengeBlock g actorId targetId blockedBy blockRole responders
        playerId responseType
  | Some (exchange_awaitingChallenge actorId responders) =>
      respondExchangeChallenge g actorId responders playerId responseType
  | Some (exchange_awaitingChoice actorId _) =>
      Ok (respondExchangeChoice g actorId playerId responseType payload)
  end.

End Responses.

(** ** The game-facing part of [server.js] *)

Section Server.

Variable rnd : nat → nat.

(** The "action" message of client [clientId]: dropped unless the game is
    running, it is that client's turn and nothing is pending. [None] is a
    dropped message. *)
Definition onAction (g : GameEngine) (clientId actionType : string)
    (targetId : option string) : option Reply :=
  if gameOver g then None
  else
    match currentPlayer g with
    | (Some current, g) =>
        if decide (p_id current ≠ clientId) then None
        else if bool_decide (is_Some (pendingAction g)) then None
        else Some (resolveAction g clientId actionType targetId)
    | (None, _) => None
    end.

(** The "response" message of client [clientId]: handed to
    [handleResponse] whenever a game is there, also when it is over (the
    servers with rooms drop it then, which only takes states away). *)
Definition onResponse (g : GameEngine) (clientId responseType : string)
    (payload : Payload) : option (result Reply) :=
  Some (handleResponse rnd g clientId responseType payload).

(** The players a room starts a game with: [joinOrder] holds each id once.
    No server refuses an id for being a name on [Object.prototype], and only
    one refuses the empty id. *)
Definition admissible (ps : list (string * string)) : Prop := NoDup ps.*1.

(** An id that is not empty and not a name on [Object.prototype]: as a key
    of a [responders] object it is an own property or absent, [in] finds it
    only when it was put there, and [if (id)] holds of it. *)
Definition plainId (id : string) : Prop :=
  id ≠ EmptyString ∧ JsObject.inherited id = false.

(** The states a room goes through: a game started from the join order,
    then any "action" and "response" messages of its clients. *)
Inductive reachable : GameEngine → Prop :=
| reach_start ps t :
    admissible ps → reachable (newGame rnd ps t)
| reach_action g clientId actionType targetId r :
    reachable g →
    onAction g clientId actionType targetId = Some r →
    reachable (game r)
| reach_response g clientId responseType payload r :
    reachable g →
    clientId ∈ p_id <$> players g →
    onResponse g clientId responseType payload = Some (Ok r) →
    reachable (game r).

(** The state of a room after a message: a dropped message, and a response
    that throws, leave it as it was. *)
Definition afterAction (g : GameEngine) (clientId actionType : string)
    (targetId : option string) : GameEngine :=
  match onAction g clientId actionType targetId with
  | Some r => game r
  | None => g
  end.

Definition afterResponse (g : GameEngine) (clientId responseType : string)
    (payload : Payload) : GameEngine :=
  if decide (clientId ∈ p_id <$> players g) then
    match onResponse g clientId responseType payload with
    | Some (Ok r) => game r
    | _ => g
    end
  else g.

End Server.

(** ** Vocabulary of the properties *)

(** [currentPlayer()] would not move [turnIndex]: the constructor and every
    resolver call end with one such call. *)
Definition turnSettled (g : GameEngine) : Prop := (currentPlayer g).2 = g.

Definition ids (g : GameEngine) : list string := p_id <$> players g.

Definition coinsOf (g : GameEngine) (id : string) : option Z := coins <$> getPlayer g id.

(** Who holds how many coins, seat by seat. *)
Definition purse (g : GameEngine) : list (string * Z) :=
  (λ p, (p_id p, coins p)) <$> players g.

(** Who sits where with which cards: all that eligibility to respond reads. *)
Definition seats (g : GameEngine) : list (string * list Card) :=
  (λ p, (p_id p, influence p)) <$> players g.

(** Whether the seat that [i] counts to, going round the table, holds a
    living player. *)
Definition aliveAt (g : GameEngine) (i : nat) : bool :=
  match players g !! (i mod length (players g)) with
  | Some p => isAlive g (p_id p)
  | None => false
  end.

(** All the coins on the table. *)
Definition totalCoins (g : GameEngine) : Z := foldr Z.add 0%Z (coins <$> players g).

(** The card in slot [ci] of the player at position [pi]. *)
Definition cardAt (g : GameEngine) (pi ci : nat) : option Card :=
  players g !! pi ≫= λ p, influence p !! ci.

(** A change of the state that [currentPlayer] neither sees nor undoes. *)
Definition turnBlind (f : GameEngine → GameEngine) : Prop :=
  (∀ g, players (f g) = players g)
  ∧ (∀ g, gameOver (f g) = gameOver g)
  ∧ (∀ g, turnIndex (f g) = turnIndex g)
  ∧ (∀ i g, f (set_turnIndex i g) = set_turnIndex i (f g)).


Definition hands (g : GameEngine) : list (list Card) := influence <$> players g.

Definition handSizes (g : GameEngine) : list nat := length <$> hands g.

(** The roles on all influence cards, held and revealed. *)
Definition handRoles (g : GameEngine) : list Role := role <$> concat (hands g).

(** The drawn options of the exchange whose choice is pending. *)
Definition inFlight (g : GameEngine) : list Role :=
  match pendingAction g with
  | Some (exchange_awaitingChoice actorId _) =>
      match exchange g !! actorId with
      | Some secret => o_role <$> filter (λ o, o_source o = drawn) (options secret)
      | None => []
      end
  | _ => []
  end.

Definition copies (r : Role) (cards : list Role) : nat :=
  length (filter (λ x, x = r) cards).

(** Deck, hands and revealed cards: the cards the conservation property counts. *)
Definition cardsOnTable (g : GameEngine) : list Role := deck g ++ handRoles g.

Definition cardsInPlay (g : GameEngine) : list Role := cardsOnTable g ++ inFlight g.

Definition idsOk (l : list string) : Prop := NoDup l ∧ Forall plainId l.

(** A room all of whose players have plain ids. *)
Definition plainRoom (g : GameEngine) : Prop := Forall plainId (ids g).

Definition noChallenge (responders : Responders) : Prop :=
  Forall (λ e, e.2 ≠ Challenged) responders.

Definition keysIn (l : list string) (responders : Responders) : Prop :=
  Forall (λ e, e.1 ∈ l) responders.

(** What holds of a pending negotiation in every state of a room of plain
    ids: the
    responders of a stage that reads them are players, none carries a standing
    challenge, each has one entry, and a claim is not put to its own actor. *)
Definition pendingOk (l : list string) (pa : PendingAction) : Prop :=
  match pa with
  | loseInfluence_awaitingChoice _ _ _ | exchange_awaitingChoice _ _ => True
  | tax_awaitingChallenge a rs
  | foreign_aid_awaitingBlock a rs
  | assassinate_awaitingChallenge a _ rs
  | steal_awaitingChallenge a _ rs
  | exchange_awaitingChallenge a rs =>
      a ∈ l ∧ keysIn l rs ∧ noChallenge rs ∧ NoDup rs.*1 ∧ JsObject.own a rs = None
  | foreign_aid_awaitingChallengeBlock a _ rs =>
      a ∈ l ∧ keysIn l rs ∧ noChallenge rs ∧ NoDup rs.*1
  | assassinate_awaitingChallengeBlock _ _ _ rs
  | steal_awaitingChallengeBlock _ _ _ _ rs => keysIn l rs ∧ noChallenge rs ∧ NoDup rs.*1
  | assassinate_awaitingBlock _ _ rs | steal_awaitingBlock _ _ rs =>
      noChallenge rs ∧ NoDup rs.*1
  end.

(** A steal is between two different players of the room. *)
Definition stealOk (l : list string) (a t : string) : Prop := a ∈ l ∧ t ∈ l ∧ a ≠ t.

Definition contOk (l : list string) (cont : Continuation) : Prop :=
  match cont with
  | steal_open_block a t | steal_apply a t | steal_apply_after_block_fail a t =>
      stealOk l a t
  | _ => True
  end.

(** The parties of a pending steal, at every stage and while a forced loss
    of influence holds its continuation. *)
Definition partiesOk (l : list string) (pa : PendingAction) : Prop :=
  match pa with
  | steal_awaitingChallenge a t _ | steal_awaitingBlock a t _
  | steal_awaitingChallengeBlock a t _ _ _ => stealOk l a t
  | loseInfluence_awaitingChoice _ _ cont => contOk l cont
  | _ => True
  end.

(** The secret stored for a pending exchange choice is the one
    [startExchangeChoice] wrote for the actor's present hand. *)
Definition secretOk (g : GameEngine) : Prop :=
  ∀ a k, pendingAction g = Some (exchange_awaitingChoice a k) →
    ∃ p d1 d2, getPlayer g a = Some p
      ∧ k = length (aliveCards p) ∧ k ≠ 0
      ∧ exchange g !! a = Some (mkSecret k (handOptions p ++ drawnOptions k d1 d2)).

(** What holds in every state of every room. *)
Record Base (g : GameEngine) : Prop := mkBase {
  base_ids : NoDup (ids g);
  base_hands : Forall (λ n, n = 2) (handSizes g);
  base_turn : turnSettled g;
  base_parties : ∀ pa, pendingAction g = Some pa → partiesOk (ids g) pa;
  base_secret : secretOk g }.

(** What holds in every state of a room of plain ids. *)
Record Inv (g : GameEngine) : Prop := mkInv {
  inv_ids : idsOk (ids g);
  inv_hands : Forall (λ n, n = 2) (handSizes g);
  inv_turn : turnSettled g;
  inv_pending : ∀ pa, pendingAction g = Some pa → pendingOk (ids g) pa;
  inv_parties : ∀ pa, pendingAction g = Some pa → partiesOk (ids g) pa;
  inv_secret : secretOk g }.

(** Revealed cards stay where they are, as they are; seats and hand sizes
    do not change. *)
Definition evolves (g g' : GameEngine) : Prop :=
  ids g' = ids g ∧ handSizes g' = handSizes g
  ∧ ∀ pi ci c, cardAt g pi ci = Some c → revealed c = true → cardAt g' pi ci = Some c.

(** Every field but the log is the same. *)
Definition sameButLog (g g' : GameEngine) : Prop :=
  players g' = players g ∧ deck g' = deck g ∧ turnIndex g' = turnIndex g
  ∧ pendingAction g' = pendingAction g ∧ gameOver g' = gameOver g
  ∧ winnerId g' = winnerId g ∧ exchange g' = exchange g
  ∧ randomCalls g' = randomCalls g.

(** From [g0] to [g] the deck and the hands hold the same cards between
    them, and the deck is as long as it was. *)
Definition tableKept (g0 g : GameEngine) : Prop :=
  cardsOnTable g ≡ₚ cardsOnTable g0 ∧ length (deck g) = length (deck g0).

(** No choice of an exchange is pending. *)
Definition noChoice (g : GameEngine) : Prop :=
  ∀ a k, pendingAction g ≠ Some (exchange_awaitingChoice a k).

(** The actor of a pending foreign aid: the two coins taken in advance are
    given back if the block stands. *)
Definition aidActor (pa : PendingAction) : option string :=
  match pa with
  | foreign_aid_awaitingBlock a _ | foreign_aid_awaitingChallengeBlock a _ _ => Some a
  | _ => None
  end.

(** Nobody is in debt. *)
Definition solvent (g : GameEngine) : Prop := Forall (λ p, (0 ≤ coins p)%Z) (players g).

(** The actor of a pending foreign aid holds the two coins that may be
    taken back. *)
Definition aidCovered (g : GameEngine) : Prop :=
  ∀ a c, pendingAction g ≫= aidActor = Some a → coinsOf g a = Some c → (2 ≤ c)%Z.

Definition coinsOk (g : GameEngine) : Prop := solvent g ∧ aidCovered g.

(** Who sits where, with which cards face up: all that being alive reads. *)
Definition faces (g : GameEngine) : list (string * list bool) :=
  (λ p, (p_id p, revealed <$> influence p)) <$> players g.

Definition aliveIds (g : GameEngine) : list string := p_id <$> alivePlayers g.

(** If the game is over, the winner is the one player left alive. *)
Definition won (g : GameEngine) : Prop :=
  gameOver g = true → ∃ w, winnerId g = Some w ∧ aliveIds g = [w].

(** [p'] is [p] with two unrevealed cards added to the hand. *)
Definition dealtTwo (p p' : Player) : Prop :=
  ∃ r1 r2, p' = set_influence (λ cs, cs ++ [mkCard r1 false; mkCard r2 false]) p.

(** If the game is over in [g], it is over in [g'] with the same winner. *)
Definition overKept (g g' : GameEngine) : Prop :=
  gameOver g = true → gameOver g' = true ∧ winnerId g' = winnerId g.

Create Rewrite HintDb obs.
Create HintDb over.
Create HintDb won.
Create HintDb tk.
Create HintDb ev.

(** The claim a pending action puts to challenge: who claims, which role
    the resolver checks, and who may respond. *)
Definition claimedBy (pa : PendingAction) : option (string * Role * Responders) :=
  match pa with
  | tax_awaitingChallenge a rs => Some (a, Duke, rs)
  | assassinate_awaitingChallenge a _ rs => Some (a, Assassin, rs)
  | steal_awaitingChallenge a _ rs => Some (a, Captain, rs)
  | exchange_awaitingChallenge a rs => Some (a, Ambassador, rs)
  | _ => None
  end.

(** The actor and the target of a pending steal, also while a forced loss
    of influence holds the steal as its continuation. *)
Definition stealOf (pa : PendingAction) : option (string * string) :=
  match pa with
  | steal_awaitingChallenge a t _ | steal_awaitingBlock a t _
  | steal_awaitingChallengeBlock a t _ _ _ => Some (a, t)
  | loseInfluence_awaitingChoice _ _
      (steal_open_block a t | steal_apply a t | steal_apply_after_block_fail a t) =>
      Some (a, t)
  | _ => None
  end.

(** From [g] to [g'], the steal of [a] from [t] took place, [ca] and [ct]
    being their coins in [g]: [min 2 ct] coins went from [t] to [a], nobody
    else's coins changed, and nothing is pending any more. *)
Definition stolen (g g' : GameEngine) (a t : string) (ca ct : Z) : Prop :=
  coinsOf g' a = Some (ca + Z.min 2 ct)%Z
  ∧ coinsOf g' t = Some (ct - Z.min 2 ct)%Z
  ∧ (∀ b, b ≠ a → b ≠ t → coinsOf g' b = coinsOf g b)
  ∧ pendingAction g' = None.

(** Whom [handleResponse] listens to while [pa] is pending: the player who
    must give up an influence, the target in a block window, the actor of an
    exchange making the choice, and otherwise whoever [in] finds in the
    responders. *)
Definition mayRespond (pa : PendingAction) (playerId : string) : bool :=
  match pa with
  | loseInfluence_awaitingChoice p _ _ => bool_decide (playerId = p)
  | assassinate_awaitingBlock _ t _ | steal_awaitingBlock _ t _ => bool_decide (playerId = t)
  | exchange_awaitingChoice a _ => bool_decide (playerId = a)
  | tax_awaitingChallenge _ rs
  | foreign_aid_awaitingBlock _ rs
  | foreign_aid_awaitingChallengeBlock _ _ rs
  | assassinate_awaitingChallenge _ _ rs
  | assassinate_awaitingChallengeBlock _ _ _ rs
  | steal_awaitingChallenge _ _ rs
  | steal_awaitingChallengeBlock _ _ _ _ rs
  | exchange_awaitingChallenge _ rs => JsObject.has playerId rs
  end.

(** The response types [handleResponse] knows. *)
Definition responseTypes : list string :=
  ["pass"; "challenge"; "block"; "loseInfluence"; "exchangeChoice"].

(** An assassination is under way: at one of its stages, or at a forced loss
    of influence that continues it. *)
Definition assassinationOf (pa : PendingAction) : bool :=
  match pa with
  | assassinate_awaitingChallenge _ _ _ | assassinate_awaitingBlock _ _ _
  | assassinate_awaitingChallengeBlock _ _ _ _
  | loseInfluence_awaitingChoice _ _
      (assassinate_open_block _ _ | assassinate_block_stands
      | assassinate_force_target_loss _ _ | endTurn_after_assassination _) => true
  | _ => false
  end.

(** The payload of a block that claims Duke. *)
Definition dukeBlock : Payload := mkPayload None (Some "Duke") None.

Section Operations.

Variable rnd : nat → nat.

(** One operation of the engine or of the resolver, taking a state to the
    state it leaves. *)
Inductive operation : GameEngine → GameEngine → Prop :=
| op_resolveAction g actorId actionType targetId :
    operation g (game (resolveAction g actorId actionType targetId))
| op_handleResponse g playerId responseType payload r :
    handleResponse rnd g playerId responseType payload = Ok r →
    operation g (game r)
| op_revealAndRedraw g playerId r : operation g (revealAndRedraw rnd g playerId r).2
| op_loseInfluence g playerId cardIndex : operation g (loseInfluence g playerId cardIndex).2
| op_draw g : operation g (draw rnd g).2
| op_returnToDeck g roles : operation g (returnToDeck rnd roles g)
| op_nextTurn g : operation g (nextTurn g)
| op_checkWin g : operation g (checkWin g)
| op_currentPlayer g : operation g (currentPlayer g).2
| op_getStateFor g viewerId : operation g (getStateFor g viewerId).2.

End Operations.

(** ** A sample room *)

Module Sample.

(** [Math.random()] returning 0 every time. *)
Definition rnd0 : nat → nat := λ _, 0.

Definition table : list (string * string) := [("a", "Ann"); ("b", "Bob")].

(** Ann holds Duke and Contessa, Bob two Contessas; two coins each. *)
Definition fresh : GameEngine := newGame rnd0 table 0.

Definition pick (i : nat) : Payload := mkPayload (Some i) None None.

Definition keeping (ks : list string) : Payload := mkPayload None None (Some ks).

(** Ann claims Duke for tax; Bob challenges and gives up his first card. *)
Definition taxOpen : GameEngine := afterAction fresh "a" "tax" None.
Definition taxChallenged : GameEngine :=
  afterResponse rnd0 taxOpen "b" "challenge" noPayload.
Definition bobLost : GameEngine := afterResponse rnd0 taxChallenged "b" "loseInfluence" (pick 0).

(** Ann takes foreign aid; Bob blocks it, claiming Duke. *)
Definition aidOpen : GameEngine := afterAction fresh "a" "foreign_aid" None.
Definition aidBlocked : GameEngine := afterResponse rnd0 aidOpen "b" "block" dukeBlock.

(** Ann steals from Bob; Bob lets the Captain claim pass. *)
Definition stealOpen : GameEngine := afterAction fresh "a" "steal" (Some "b").
Definition stealWindow : GameEngine := afterResponse rnd0 stealOpen "b" "pass" noPayload.

(** Ann exchanges; Bob lets the Ambassador claim pass. *)
Definition exchangeOpen : GameEngine := afterAction fresh "a" "exchange" None.
Definition exchangeChoice : GameEngine :=
  afterResponse rnd0 exchangeOpen "b" "pass" noPayload.

(** Ann with three coins pays them to assassinate Bob. *)
Definition funded : GameEngine := alterPlayer 0 (add_coins 1) fresh.
Definition contractOpen : GameEngine := afterAction funded "a" "assassinate" (Some "b").

(** Bob gives up both his cards: Ann has won. *)
Definition bobOut : GameEngine :=
  (loseInfluence (loseInfluence fresh "b" (Some 0)).2 "b" (Some 1)).2.

(** Ann with ten coins. *)
Definition rich : GameEngine := alterPlayer 0 (add_coins 8) fresh.

(** A room of three; Bob lets Ann's Duke claim pass. *)
Definition tableOfThree : list (string * string) :=
  [("a", "Ann"); ("b", "Bob"); ("c", "Cy")].
Definition freshOfThree : GameEngine := newGame rnd0 tableOfThree 0.
Definition taxOpenOfThree : GameEngine := afterAction freshOfThree "a" "tax" None.
Definition taxPassedOfThree : GameEngine :=
  afterResponse rnd0 taxOpenOfThree "b" "pass" noPayload.

(** A room whose second player joined with the id ["__proto__"]: Ann, who
    holds a Duke, claims it for tax. *)
Definition tableWithProto : list (string * string) := [("a", "Ann"); ("__proto__", "Pat")].
Definition freshWithProto : GameEngine := newGame rnd0 tableWithProto 0.
Definition taxOpenWithProto : GameEngine := afterAction freshWithProto "a" "tax" None.

(** A room whose first player joined with the id ["__proto__"]. Pat takes
    foreign aid and Bob, who holds no Duke, blocks it; Pat steals from Bob
    and Bob, who holds no Captain, blocks it. *)
Definition captainBlock : Payload := mkPayload None (Some "Captain") None.
Definition tableOfProto : list (string * string) := [("__proto__", "Pat"); ("b", "Bob")].
Definition freshOfProto : GameEngine := newGame rnd0 tableOfProto 0.
Definition aidBlockedOfProto : GameEngine :=
  afterResponse rnd0 (afterAction freshOfProto "__proto__" "foreign_aid" None)
    "b" "block" dukeBlock.
Definition stealBlockedOfProto : GameEngine :=
  afterResponse rnd0
    (afterResponse rnd0 (afterAction freshOfProto "__proto__" "steal" (Some "b"))
       "b" "pass" noPayload)
    "b" "block" captainBlock.

(** A room whose second player joined with the empty id; Ann claims Duke
    for tax. *)
Definition tableWithEmpty : list (string * string) :=
  [("a", "Ann"); (EmptyString, "Eve"); ("c", "Cy")].
Definition freshWithEmpty : GameEngine := newGame rnd0 tableWithEmpty 0.
Definition taxOpenWithEmpty : GameEngine := afterAction freshWithEmpty "a" "tax" None.

(** A room of eight, the most the lobby admits. *)
Definition tableOfEight : list (string * string) :=
  [("a", "Ann"); ("b", "Bob"); ("c", "Cy"); ("d", "Di"); ("e", "Ed"); ("f", "Flo");
   ("g", "Gus"); ("h", "Hal")].

Definition freshOfEight : GameEngine := newGame rnd0 tableOfEight 0.

End Sample.
(** ** Facts about the engine *)

Section EngineFacts.

Lemma set_turnIndex_same g : set_turnIndex (turnIndex g) g = g.
Proof. by destruct g. Qed.

Lemma set_turnIndex_twice i j g : set_turnIndex i (set_turnIndex j g) = set_turnIndex i g.
Proof. done. Qed.

Lemma isAlive_players g g' id : players g = players g' → isAlive g id = isAlive g' id.
Proof. unfold isAlive, getPlayer. by intros ->. Qed.

Lemma alivePlayers_players g g' : players g = players g' → alivePlayers g = alivePlayers g'.
Proof.
  intros E. unfold alivePlayers. rewrite E. apply list_filter_iff.
  intros p. by rewrite (isAlive_players g g').
Qed.

Lemma currentPlayerLoop_frame k g :
  ∃ i, (currentPlayerLoop k g).2 = set_turnIndex i g.
Proof.
  revert g. induction k as [|k IH]; intros g; simpl.
  - exists (turnIndex g). by rewrite set_turnIndex_same.
  - destruct (players g !! _) as [p|]; [|exists (turnIndex g); by rewrite set_turnIndex_same].
    destruct (isAlive g (p_id p)); [exists (turnIndex g); by rewrite set_turnIndex_same|].
    destruct (IH (set_turnIndex ((turnIndex g + 1) mod length (players g)) g)) as [i ->].
    by exists i.
Qed.

Lemma currentPlayer_frame g : ∃ i, (currentPlayer g).2 = set_turnIndex i g.
Proof.
  unfold currentPlayer.
  destruct (gameOver g); [exists (turnIndex g); by rewrite set_turnIndex_same|].
  case_decide; [exists (turnIndex g); by rewrite set_turnIndex_same|].
  apply currentPlayerLoop_frame.
Qed.

(** Within [k] rounds the loop stops at a living player, if there is one
    among the next [k] seats. *)
Lemma currentPlayerLoop_found k g j p :
  j < k →
  players g !! ((turnIndex g + j) mod length (players g)) = Some p →
  isAlive g (p_id p) = true →
  ∃ q i, currentPlayerLoop k g = (Some q, set_turnIndex i g)
         ∧ players g !! (i mod length (players g)) = Some q
         ∧ isAlive g (p_id q) = true.
Proof.
  revert g j. induction k as [|k IH]; intros g j Hj Hp Ha; [lia|]. simpl.
  destruct (players g !! (turnIndex g mod length (players g))) as [q|] eqn:Hq.
  - destruct (isAlive g (p_id q)) eqn:Hqa.
    + exists q, (turnIndex g). by rewrite set_turnIndex_same.
    + destruct j as [|j].
      { rewrite Nat.add_0_r, Hq in Hp. congruence. }
      set (g1 := set_turnIndex ((turnIndex g + 1) mod length (players g)) g).
      destruct (IH g1 j) as (q' & i & E & Hq' & Ha'); [lia| | |].
      * subst g1; simpl. rewrite <- Hp. f_equal.
        rewrite Nat.Div0.add_mod_idemp_l. f_equal. lia.
      * done.
      * exists q', i. by rewrite E.
  - apply lookup_lt_Some in Hp. apply lookup_ge_None in Hq.
    assert (length (players g) ≠ 0) by lia.
    pose proof (Nat.mod_upper_bound (turnIndex g) (length (players g))). lia.
Qed.

Lemma alivePlayers_seat g :
  length (alivePlayers g) ≠ 0 →
  ∃ i p, players g !! i = Some p ∧ isAlive g (p_id p) = true.
Proof.
  intros H. destruct (alivePlayers g) as [|p l] eqn:E; [done|].
  assert (p ∈ alivePlayers g) as Hin by (rewrite E; left).
  apply list_elem_of_filter in Hin as [Ha Hin].
  apply list_elem_of_lookup in Hin as [i Hi]. by exists i, p.
Qed.

Lemma seat_offset (t i n : nat) : i < n → ∃ j, j < n ∧ (t + j) mod n = i.
Proof.
  intros Hi. exists ((i + n - t mod n) mod n). split.
  - apply Nat.mod_upper_bound. lia.
  - rewrite Nat.Div0.add_mod_idemp_r.
    pose proof (Nat.mod_upper_bound t n ltac:(lia)).
    rewrite (Nat.div_mod_eq t n) at 1.
    replace (n * (t / n) + t mod n + (i + n - t mod n)) with (i + (1 + t / n) * n) by lia.
    rewrite Nat.Div0.mod_add. apply Nat.mod_small. lia.
Qed.

Lemma currentPlayer_cases g :
  (currentPlayer g = (None, g)
   ∧ (gameOver g = true ∨ length (alivePlayers g) = 0))
  ∨ (∃ q i, currentPlayer g = (Some q, set_turnIndex i g)
            ∧ gameOver g = false ∧ length (alivePlayers g) ≠ 0
            ∧ players g !! (i mod length (players g)) = Some q
            ∧ isAlive g (p_id q) = true).
Proof.
  unfold currentPlayer.
  destruct (gameOver g) eqn:Ho; [left; auto|].
  case_decide as Hal; [left; auto|]. right.
  destruct (alivePlayers_seat g Hal) as (i & p & Hi & Ha).
  destruct (seat_offset (turnIndex g) i (length (players g))) as (j & Hj & Ej).
  { by apply lookup_lt_Some in Hi. }
  destruct (currentPlayerLoop_found (length (players g)) g j p) as (q & i' & E & Hq & Hqa);
    [done|by rewrite Ej|done|].
  exists q, i'. by rewrite E.
Qed.

(** [currentPlayer()] is idempotent on the state. *)
Lemma currentPlayer_settles g : turnSettled (currentPlayer g).2.
Proof.
  unfold turnSettled.
  destruct (currentPlayer_cases g) as [[E _]|(q & i & E & Ho & Hal & Hq & Hqa)].
  - by rewrite E; simpl; rewrite E.
  - rewrite E. simpl. unfold currentPlayer. simpl. rewrite Ho.
    rewrite (alivePlayers_players _ g) by done. rewrite decide_False by done.
    destruct (length (players g)) as [|n] eqn:En.
    { apply lookup_lt_Some in Hq. lia. }
    simpl. rewrite En, Hq.
    rewrite (isAlive_players _ g) by done. by rewrite Hqa.
Qed.

End EngineFacts.

(** ** Facts about replies and player lookup *)

Section ReplyFacts.

Lemma reply_game g l : game (reply g l) = (currentPlayer g).2.
Proof. unfold reply, getPublicState, getStateFor. by destruct (currentPlayer g). Qed.

Lemma reply_frame g l : ∃ i, game (reply g l) = set_turnIndex i g.
Proof. rewrite reply_game. apply currentPlayer_frame. Qed.

Lemma reply_settled g l : turnSettled (game (reply g l)).
Proof. rewrite reply_game. apply currentPlayer_settles. Qed.

Lemma reply_of_settled g l : turnSettled g → game (reply g l) = g.
Proof. intros H. by rewrite reply_game. Qed.

Lemma log_push_log s g : log (log_push s g) = log g ++ [s].
Proof. done. Qed.

Lemma set_pendingAction_log pa g : log (set_pendingAction pa g) = log g.
Proof. done. Qed.

Lemma beginLoseInfluence_log g p r c : log (beginLoseInfluence g p r c) = log g.
Proof. done. Qed.

Lemma alterPlayer_log i f g : log (alterPlayer i f g) = log g.
Proof. done. Qed.

Lemma set_deck_log d t g : log (set_deck d t g) = log g.
Proof. done. Qed.

Lemma log_push_randomCalls s g : randomCalls (log_push s g) = randomCalls g.
Proof. done. Qed.

Lemma set_pendingAction_randomCalls pa g :
  randomCalls (set_pendingAction pa g) = randomCalls g.
Proof. done. Qed.

Lemma log_push_gameOver s g : gameOver (log_push s g) = gameOver g.
Proof. done. Qed.

Lemma log_push_winnerId s g : winnerId (log_push s g) = winnerId g.
Proof. done. Qed.

Lemma log_push_turnIndex s g : turnIndex (log_push s g) = turnIndex g.
Proof. done. Qed.

Lemma reply_privates g l : privates (reply g l) = l.
Proof. unfold reply. by destruct (getPublicState g). Qed.

Lemma reply_players g l : players (game (reply g l)) = players g.
Proof. by destruct (reply_frame g l) as [i ->]. Qed.
Lemma reply_deck g l : deck (game (reply g l)) = deck g.
Proof. by destruct (reply_frame g l) as [i ->]. Qed.
Lemma reply_log g l : log (game (reply g l)) = log g.
Proof. by destruct (reply_frame g l) as [i ->]. Qed.
Lemma reply_pendingAction g l : pendingAction (game (reply g l)) = pendingAction g.
Proof. by destruct (reply_frame g l) as [i ->]. Qed.
Lemma reply_gameOver g l : gameOver (game (reply g l)) = gameOver g.
Proof. by destruct (reply_frame g l) as [i ->]. Qed.
Lemma reply_winnerId g l : winnerId (game (reply g l)) = winnerId g.
Proof. by destruct (reply_frame g l) as [i ->]. Qed.
Lemma reply_exchange g l : exchange (game (reply g l)) = exchange g.
Proof. by destruct (reply_frame g l) as [i ->]. Qed.
Lemma reply_randomCalls g l : randomCalls (game (reply g l)) = randomCalls g.
Proof. by destruct (reply_frame g l) as [i ->]. Qed.

Lemma currentPlayerLoop_blind f k g :
  turnBlind f →
  currentPlayerLoop k (f g) = ((currentPlayerLoop k g).1, f (currentPlayerLoop k g).2).
Proof.
  intros (Hp & Ho & Ht & Hc). revert g. induction k as [|k IH]; intros g; simpl.
  - unfold getPlayer. by rewrite Hp.
  - rewrite Hp, Ht. destruct (players g !! _) as [p|]; [|done].
    rewrite (isAlive_players (f g) g) by done.
    destruct (isAlive g (p_id p)); [done|]. by rewrite <- Hc, IH.
Qed.

Lemma currentPlayer_blind f g :
  turnBlind f → currentPlayer (f g) = ((currentPlayer g).1, f (currentPlayer g).2).
Proof.
  intros Hf. pose proof Hf as (Hp & Ho & Ht & Hc). unfold currentPlayer.
  rewrite Ho, Hp. destruct (gameOver g); [done|].
  rewrite (alivePlayers_players (f g) g) by done.
  case_decide; [done|]. by apply currentPlayerLoop_blind.
Qed.

Lemma turnSettled_blind f g : turnBlind f → turnSettled g → turnSettled (f g).
Proof.
  unfold turnSettled. intros Hf H. rewrite currentPlayer_blind by done. simpl. by rewrite H.
Qed.

Lemma turnBlind_log_push s : turnBlind (log_push s).
Proof. done. Qed.

Lemma turnBlind_set_pendingAction pa : turnBlind (set_pendingAction pa).
Proof. done. Qed.

Lemma getPlayer_find g id p :
  getPlayer g id = Some p → ∃ i, list_find (λ p, p_id p = id) (players g) = Some (i, p).
Proof.
  unfold getPlayer. destruct (list_find _ _) as [[i q]|]; [|done].
  intros [= ->]. by exists i.
Qed.

Lemma find_getPlayer g id i p :
  list_find (λ p, p_id p = id) (players g) = Some (i, p) →
  getPlayer g id = Some p ∧ players g !! i = Some p ∧ p_id p = id.
Proof.
  intros H. unfold getPlayer. rewrite H. apply list_find_Some in H as (? & ? & _). done.
Qed.

Lemma find_id_alter (f : Player → Player) i l id :
  (∀ p, p_id (f p) = p_id p) →
  list_find (λ p, p_id p = id) (alter f i l)
  = (λ jp, (jp.1, if decide (jp.1 = i) then f jp.2 else jp.2))
      <$> list_find (λ p, p_id p = id) l.
Proof.
  intros Hf. revert i. induction l as [|p l IH]; intros i; [done|].
  destruct i as [|i]; simpl.
  - rewrite Hf. case_decide; [done|]. simpl.
    destruct (list_find _ l) as [[j q]|]; [|done]. done.
  - case_decide; [done|]. specialize (IH i). unfold alter in IH. rewrite IH. simpl.
    destruct (list_find _ l) as [[j q]|]; [|done]. simpl.
    repeat case_decide; done || lia.
Qed.

Lemma alterPlayer_players i f g : players (alterPlayer i f g) = alter f i (players g).
Proof. done. Qed.

Lemma getPlayer_alterPlayer g i f id :
  (∀ p, p_id (f p) = p_id p) →
  getPlayer (alterPlayer i f g) id
  = (λ jp, if decide (jp.1 = i) then f jp.2 else jp.2)
      <$> list_find (λ p, p_id p = id) (players g).
Proof.
  intros Hf. unfold getPlayer, alterPlayer. simpl. rewrite find_id_alter by done.
  by destruct (list_find _ (players g)) as [[j q]|].
Qed.

Lemma find_id_inj l i j p q :
  list_find (λ p, p_id p = p_id q) l = Some (j, q) →
  list_find (λ p', p_id p' = p_id p) l = Some (i, p) →
  i = j → p_id p = p_id q.
Proof.
  intros H1 H2 ->.
  apply list_find_Some in H1 as (? & _), H2 as (? & _). congruence.
Qed.

End ReplyFacts.

(** ** How each operation acts on seats, hands, deck, pending action and secrets *)

Section Observers.

Variable rnd : nat → nat.

Lemma cardAt_hands g pi ci : cardAt g pi ci = hands g !! pi ≫= λ cs, cs !! ci.
Proof. unfold cardAt, hands. rewrite list_lookup_fmap. by destruct (players g !! pi). Qed.

Lemma ids_players g g' : players g' = players g → ids g' = ids g.
Proof. unfold ids. by intros ->. Qed.

Lemma hands_players g g' : players g' = players g → hands g' = hands g.
Proof. unfold hands. by intros ->. Qed.

Lemma fmap_alter {A B} (h : A → B) (f : A → A) (f' : B → B) (i : nat) (l : list A) :
  (∀ x, h (f x) = f' (h x)) → h <$> alter f i l = alter f' i (h <$> l).
Proof.
  intros Hf. revert i. induction l as [|x l IH]; intros [|i]; simpl; [done..| |].
  - by rewrite Hf.
  - f_equal. apply IH.
Qed.

Lemma ids_alter (i : nat) f (l : list Player) :
  (∀ p, p_id (f p) = p_id p) → p_id <$> alter f i l = p_id <$> l.
Proof.
  intros Hf. rewrite (fmap_alter p_id f (λ x, x)) by done. by apply list_alter_id.
Qed.

Lemma hands_alter (i : nat) f (l : list Player) :
  (∀ p, influence (f p) = influence p) → influence <$> alter f i l = influence <$> l.
Proof.
  intros Hf. rewrite (fmap_alter influence f (λ x, x)) by done. by apply list_alter_id.
Qed.

Lemma checkWin_cases g :
  checkWin g = g ∨ ∃ p, checkWin g = log_push (p_name p +:+ " wins!") (set_winner (p_id p) g).
Proof.
  unfold checkWin. destruct (gameOver g); [by left|].
  destruct (alivePlayers g) as [|p [|q l]]; eauto.
Qed.

Lemma nextTurnLoop_frame k g : ∃ i, nextTurnLoop k g = set_turnIndex i g.
Proof.
  revert g. induction k as [|k IH]; intros g; simpl.
  - exists (turnIndex g). by rewrite set_turnIndex_same.
  - destruct (players g !! _) as [p|]; [|by eexists].
    destruct (isAlive _ _); [by eexists|].
    destruct (IH (set_turnIndex ((turnIndex g + 1) mod length (players g)) g)) as [i ->].
    by exists i.
Qed.

Lemma nextTurn_same g :
  players (nextTurn g) = players g ∧ deck (nextTurn g) = deck g
  ∧ exchange (nextTurn g) = exchange g ∧ pendingAction (nextTurn g) = pendingAction g
  ∧ randomCalls (nextTurn g) = randomCalls g.
Proof.
  unfold nextTurn.
  assert (players (checkWin g) = players g ∧ deck (checkWin g) = deck g
          ∧ exchange (checkWin g) = exchange g
          ∧ pendingAction (checkWin g) = pendingAction g
          ∧ randomCalls (checkWin g) = randomCalls g) as (Hp & Hd & He & Ha & Hr).
  { by destruct (checkWin_cases g) as [->|[p ->]]. }
  destruct (gameOver (checkWin g)); [done|].
  destruct (nextTurnLoop_frame (length (players (checkWin g))) (checkWin g)) as [i ->].
  destruct (currentPlayer_frame (set_turnIndex i (checkWin g))) as [j Ej].
  destruct (currentPlayer _) as [[cp|] g']; simpl in Ej; subst g'; simpl; done.
Qed.

Lemma applySteal_same g a t :
  ids (applySteal g a t) = ids g ∧ hands (applySteal g a t) = hands g
  ∧ deck (applySteal g a t) = deck g ∧ exchange (applySteal g a t) = exchange g
  ∧ pendingAction (applySteal g a t) = pendingAction g
  ∧ randomCalls (applySteal g a t) = randomCalls g.
Proof.
  unfold applySteal.
  destruct (list_find _ _) as [[ia actor]|]; [|done].
  destruct (list_find _ _) as [[it target]|]; [|done].
  unfold ids, hands. simpl. rewrite !ids_alter, !hands_alter by done. done.
Qed.

Lemma log_push_players s g : players (log_push s g) = players g.
Proof. done. Qed.

Lemma log_push_ids s g : ids (log_push s g) = ids g.
Proof. done. Qed.

Lemma log_push_hands s g : hands (log_push s g) = hands g.
Proof. done. Qed.

Lemma log_push_deck s g : deck (log_push s g) = deck g.
Proof. done. Qed.

Lemma log_push_exchange s g : exchange (log_push s g) = exchange g.
Proof. done. Qed.

Lemma log_push_pendingAction s g : pendingAction (log_push s g) = pendingAction g.
Proof. done. Qed.

Lemma set_pendingAction_players pa g : players (set_pendingAction pa g) = players g.
Proof. done. Qed.

Lemma set_pendingAction_ids pa g : ids (set_pendingAction pa g) = ids g.
Proof. done. Qed.

Lemma set_pendingAction_hands pa g : hands (set_pendingAction pa g) = hands g.
Proof. done. Qed.

Lemma set_pendingAction_deck pa g : deck (set_pendingAction pa g) = deck g.
Proof. done. Qed.

Lemma set_pendingAction_exchange pa g : exchange (set_pendingAction pa g) = exchange g.
Proof. done. Qed.

Lemma set_pendingAction_pendingAction pa g : pendingAction (set_pendingAction pa g) = pa.
Proof. done. Qed.

Lemma set_turnIndex_players i g : players (set_turnIndex i g) = players g.
Proof. done. Qed.

Lemma set_turnIndex_ids i g : ids (set_turnIndex i g) = ids g.
Proof. done. Qed.

Lemma set_turnIndex_hands i g : hands (set_turnIndex i g) = hands g.
Proof. done. Qed.

Lemma set_turnIndex_deck i g : deck (set_turnIndex i g) = deck g.
Proof. done. Qed.

Lemma set_turnIndex_exchange i g : exchange (set_turnIndex i g) = exchange g.
Proof. done. Qed.

Lemma set_turnIndex_pendingAction i g : pendingAction (set_turnIndex i g) = pendingAction g.
Proof. done. Qed.

Lemma beginLoseInfluence_players g p r c : players (beginLoseInfluence g p r c) = players g.
Proof. done. Qed.

Lemma beginLoseInfluence_ids g p r c : ids (beginLoseInfluence g p r c) = ids g.
Proof. done. Qed.

Lemma beginLoseInfluence_hands g p r c : hands (beginLoseInfluence g p r c) = hands g.
Proof. done. Qed.

Lemma beginLoseInfluence_deck g p r c : deck (beginLoseInfluence g p r c) = deck g.
Proof. done. Qed.

Lemma beginLoseInfluence_exchange g p r c : exchange (beginLoseInfluence g p r c) = exchange g.
Proof. done. Qed.

Lemma beginLoseInfluence_pendingAction g p r c : pendingAction (beginLoseInfluence g p r c) = Some (loseInfluence_awaitingChoice p r c).
Proof. done. Qed.

Lemma set_exchange_players f g : players (set_exchange f g) = players g.
Proof. done. Qed.

Lemma set_exchange_ids f g : ids (set_exchange f g) = ids g.
Proof. done. Qed.

Lemma set_exchange_hands f g : hands (set_exchange f g) = hands g.
Proof. done. Qed.

Lemma set_exchange_deck f g : deck (set_exchange f g) = deck g.
Proof. done. Qed.

Lemma set_exchange_exchange f g : exchange (set_exchange f g) = f (exchange g).
Proof. done. Qed.

Lemma set_exchange_pendingAction f g : pendingAction (set_exchange f g) = pendingAction g.
Proof. done. Qed.

Lemma set_deck_players d t g : players (set_deck d t g) = players g.
Proof. done. Qed.

Lemma set_deck_ids d t g : ids (set_deck d t g) = ids g.
Proof. done. Qed.

Lemma set_deck_hands d t g : hands (set_deck d t g) = hands g.
Proof. done. Qed.

Lemma set_deck_deck d t g : deck (set_deck d t g) = d.
Proof. done. Qed.

Lemma set_deck_exchange d t g : exchange (set_deck d t g) = exchange g.
Proof. done. Qed.

Lemma set_deck_pendingAction d t g : pendingAction (set_deck d t g) = pendingAction g.
Proof. done. Qed.

Lemma add_coins_ids i n g : ids (alterPlayer i (add_coins n) g) = ids g.
Proof. unfold ids, alterPlayer; simpl. by rewrite ids_alter. Qed.

Lemma add_coins_hands i n g : hands (alterPlayer i (add_coins n) g) = hands g.
Proof. unfold hands, alterPlayer; simpl. by rewrite hands_alter. Qed.

Lemma add_coins_deck i n g : deck (alterPlayer i (add_coins n) g) = deck g.
Proof. done. Qed.

Lemma add_coins_exchange i n g : exchange (alterPlayer i (add_coins n) g) = exchange g.
Proof. done. Qed.

Lemma add_coins_pendingAction i n g : pendingAction (alterPlayer i (add_coins n) g) = pendingAction g.
Proof. done. Qed.

Lemma nextTurn_players g : players (nextTurn g) = players g.
Proof. apply nextTurn_same. Qed.

Lemma nextTurn_deck g : deck (nextTurn g) = deck g.
Proof. apply nextTurn_same. Qed.

Lemma nextTurn_exchange g : exchange (nextTurn g) = exchange g.
Proof. apply nextTurn_same. Qed.

Lemma nextTurn_pendingAction g : pendingAction (nextTurn g) = pendingAction g.
Proof. apply nextTurn_same. Qed.

Lemma nextTurn_ids g : ids (nextTurn g) = ids g.
Proof. apply ids_players, nextTurn_same. Qed.

Lemma reply_ids g l : ids (game (reply g l)) = ids g.
Proof. apply ids_players, reply_players. Qed.

Lemma nextTurn_hands g : hands (nextTurn g) = hands g.
Proof. apply hands_players, nextTurn_same. Qed.

Lemma reply_hands g l : hands (game (reply g l)) = hands g.
Proof. apply hands_players, reply_players. Qed.

Lemma applySteal_ids g a t : ids (applySteal g a t) = ids g.
Proof. apply applySteal_same. Qed.

Lemma applySteal_hands g a t : hands (applySteal g a t) = hands g.
Proof. apply applySteal_same. Qed.

Lemma applySteal_deck g a t : deck (applySteal g a t) = deck g.
Proof. apply applySteal_same. Qed.

Lemma applySteal_exchange g a t : exchange (applySteal g a t) = exchange g.
Proof. apply applySteal_same. Qed.

Lemma applySteal_pendingAction g a t : pendingAction (applySteal g a t) = pendingAction g.
Proof. apply applySteal_same. Qed.


Lemma finishTurn_game g : game (finishTurn g) = game (reply (nextTurn (set_pendingAction None g)) []).
Proof. done. Qed.

Lemma finishTurn_players g : players (game (finishTurn g)) = players g.
Proof. unfold finishTurn. by rewrite reply_players, nextTurn_players. Qed.

Lemma finishTurn_ids g : ids (game (finishTurn g)) = ids g.
Proof. unfold finishTurn. by rewrite reply_ids, nextTurn_ids. Qed.

Lemma finishTurn_hands g : hands (game (finishTurn g)) = hands g.
Proof. unfold finishTurn. by rewrite reply_hands, nextTurn_hands. Qed.

Lemma finishTurn_deck g : deck (game (finishTurn g)) = deck g.
Proof. unfold finishTurn. by rewrite reply_deck, nextTurn_deck. Qed.

Lemma finishTurn_exchange g : exchange (game (finishTurn g)) = exchange g.
Proof. unfold finishTurn. by rewrite reply_exchange, nextTurn_exchange. Qed.

Lemma finishTurn_pendingAction g : pendingAction (game (finishTurn g)) = None.
Proof. unfold finishTurn. by rewrite reply_pendingAction, nextTurn_pendingAction. Qed.

Lemma finishTurn_settled g : turnSettled (game (finishTurn g)).
Proof. apply reply_settled. Qed.


End Observers.

#[export] Hint Rewrite
  log_push_players log_push_ids log_push_hands log_push_deck
  log_push_exchange log_push_pendingAction set_pendingAction_players set_pendingAction_ids
  set_pendingAction_hands set_pendingAction_deck set_pendingAction_exchange set_pendingAction_pendingAction
  set_turnIndex_players set_turnIndex_ids set_turnIndex_hands set_turnIndex_deck
  set_turnIndex_exchange set_turnIndex_pendingAction beginLoseInfluence_players beginLoseInfluence_ids
  beginLoseInfluence_hands beginLoseInfluence_deck beginLoseInfluence_exchange beginLoseInfluence_pendingAction
  set_exchange_players set_exchange_ids set_exchange_hands set_exchange_deck
  set_exchange_exchange set_exchange_pendingAction set_deck_players set_deck_ids
  set_deck_hands set_deck_deck set_deck_exchange set_deck_pendingAction
  add_coins_ids add_coins_hands add_coins_deck add_coins_exchange
  add_coins_pendingAction nextTurn_players nextTurn_deck nextTurn_exchange
  nextTurn_pendingAction nextTurn_ids reply_ids nextTurn_hands
  reply_hands applySteal_ids applySteal_hands applySteal_deck
  applySteal_exchange applySteal_pendingAction reply_players reply_deck
  reply_exchange reply_pendingAction finishTurn_players finishTurn_ids
  finishTurn_hands finishTurn_deck finishTurn_exchange finishTurn_pendingAction
  : obs.

(** ** Facts about responders *)

Section ResponderFacts.

Context {V : Type}.
Implicit Types (o : JsObject.t V) (k : string) (v : V).

Lemma put_Forall (P : string * V → Prop) k v o :
  Forall P o → (∀ k', P (k', v)) → Forall P (JsObject.put k v o).
Proof.
  intros Ho Hv. induction Ho as [|[k' v'] o Hx Ho IH]; simpl.
  - by repeat constructor.
  - case_decide; constructor; auto.
Qed.

Lemma put_Forall_key (P : string * V → Prop) k v o :
  Forall P o → P (k, v) → Forall P (JsObject.put k v o).
Proof.
  intros Ho Hv. induction Ho as [|[k' v'] o Hx Ho IH]; simpl.
  - by repeat constructor.
  - case_decide; subst; constructor; auto.
Qed.

Lemma put_elem_of k v o e :
  e ∈ JsObject.put k v o → e ∈ o ∨ e = (k, v).
Proof.
  induction o as [|[k' v'] o IH]; simpl.
  - intros ?%list_elem_of_singleton. by right.
  - case_decide; subst.
    + intros [->|?]%elem_of_cons; [by right|left; by right].
    + intros [->|?]%elem_of_cons; [left; by left|].
      destruct IH as [?|?]; [done|left; by right|by right].
Qed.

Lemma put_has k v o : (k, v) ∈ JsObject.put k v o.
Proof.
  induction o as [|[k' v'] o IH]; simpl; [by left|].
  case_decide; subst; [by left|by right].
Qed.

Lemma own_put_ne k a v o : a ≠ k → JsObject.own a (JsObject.put k v o) = JsObject.own a o.
Proof.
  intros Hne. induction o as [|[k' v'] o IH]; simpl.
  - by rewrite decide_False.
  - destruct (decide (k' = k)) as [->|]; simpl.
    + by rewrite !decide_False.
    + by rewrite IH.
Qed.

Lemma own_Some_elem_of k v o : JsObject.own k o = Some v → (k, v) ∈ o.
Proof.
  induction o as [|[k' v'] o IH]; simpl; [done|].
  case_decide; subst; [intros [= ->]; by left|]. right. auto.
Qed.

Lemma elem_of_own k v o : (k, v) ∈ o → is_Some (JsObject.own k o).
Proof.
  induction o as [|[k' v'] o IH]; simpl; [by intros ?%elem_of_nil|].
  case_decide; [by eexists|].
  intros [?|?]%elem_of_cons; [congruence|auto].
Qed.

Lemma put_keys k v o :
  (JsObject.put k v o).*1 = if JsObject.own k o is Some _ then o.*1 else o.*1 ++ [k].
Proof.
  induction o as [|[k' v'] o IH]; simpl; [done|].
  case_decide; subst; simpl; [done|].
  change (JsObject.put k v o).*1 with ((JsObject.put k v o).*1) in *.
  f_equal/=. unfold fmap in IH. rewrite IH. by destruct (JsObject.own k o).
Qed.

Lemma own_None_keys k o : JsObject.own k o = None → k ∉ o.*1.
Proof.
  intros H ([k' v] & -> & Hin)%list_elem_of_fmap.
  apply elem_of_own in Hin as [? ?]. simpl in *. congruence.
Qed.

Lemma put_NoDup k v o : NoDup o.*1 → NoDup (JsObject.put k v o).*1.
Proof.
  intros H. rewrite put_keys. destruct (JsObject.own k o) eqn:E; [done|].
  apply NoDup_app. split_and!; [done| |apply NoDup_singleton].
  intros x Hx ->%list_elem_of_singleton. by apply own_None_keys in E.
Qed.

Lemma set_NoDup k v o : NoDup o.*1 → NoDup (JsObject.set k v o).*1.
Proof. intros H. unfold JsObject.set. case_decide; [done|]. by apply put_NoDup. Qed.

Lemma insertByIndex_perm (e : string * V) l : JsObject.insertByIndex e l ≡ₚ e :: l.
Proof.
  induction l as [|e' l IH]; simpl; [done|].
  destruct (_ <=? _)%N; [done|]. by rewrite IH, Permutation_swap.
Qed.

Lemma sortByIndex_perm (l : list (string * V)) : JsObject.sortByIndex l ≡ₚ l.
Proof.
  induction l as [|e l IH]; simpl; [done|].
  by rewrite insertByIndex_perm, IH.
Qed.

Lemma entries_perm o : JsObject.entries o ≡ₚ o.
Proof.
  unfold JsObject.entries. rewrite sortByIndex_perm. apply filter_app_complement.
Qed.

Lemma put_elem_of_NoDup k v o e :
  NoDup o.*1 → e ∈ JsObject.put k v o → e = (k, v) ∨ (e ∈ o ∧ e.1 ≠ k).
Proof.
  induction o as [|[k' v'] o IH]; simpl.
  - intros _ ?%list_elem_of_singleton. by left.
  - intros [Hk Hn]%NoDup_cons. case_decide; subst.
    + intros [->|He]%elem_of_cons; [by left|]. right. split; [by right|].
      intros <-. apply Hk. apply list_elem_of_fmap. by exists e.
    + intros [->|He]%elem_of_cons; [right; split; [by left|done]|].
      destruct (IH Hn He) as [->|[? ?]]; [by left|]. right. split; [by right|done].
Qed.

End ResponderFacts.

Section ChallengeFacts.

Implicit Types (rs : Responders) (l : list string).

Lemma firstChallenger_None rs : firstChallenger rs = None → noChallenge rs.
Proof.
  unfold firstChallenger, noChallenge. intros H.
  destruct (find _ _) eqn:E; [done|].
  rewrite <- (entries_perm rs). apply Forall_forall. intros e He%list_elem_of_In.
  apply (find_none _ _ E) in He. by case_bool_decide.
Qed.

Lemma firstChallenger_Some rs k : firstChallenger rs = Some k → (k, Challenged) ∈ rs.
Proof.
  unfold firstChallenger. destruct (find _ _) as [[k' m]|] eqn:E; [|done].
  intros [= <-]. apply find_some in E as [Hin Hm]. simpl in Hm.
  case_bool_decide; [subst|done].
  rewrite <- (entries_perm rs). by apply list_elem_of_In.
Qed.

Lemma noChallenge_elem_of rs k : noChallenge rs → (k, Challenged) ∉ rs.
Proof.
  intros H Hin. unfold noChallenge in H.
  rewrite Forall_forall in H. by apply H in Hin.
Qed.

Lemma truthy_None o : truthy o = None → o = None ∨ o = Some EmptyString.
Proof. destruct o as [[|]|]; naive_solver. Qed.

Lemma truthy_Some o k : truthy o = Some k → o = Some k ∧ k ≠ EmptyString.
Proof. destruct o as [[|]|]; naive_solver. Qed.

(** The challenger found after a recorded response is the responder, when no
    challenge was standing. *)
Lemma firstChallenger_recorded pid rt rs rs' k :
  noChallenge rs →
  recordResponse pid rt rs = Some rs' →
  firstChallenger rs' = Some k →
  k = pid ∧ rt = "challenge".
Proof.
  intros Hn Hr Hk. apply firstChallenger_Some in Hk.
  unfold recordResponse, JsObject.set in Hr.
  repeat case_decide; simplify_eq; try by apply noChallenge_elem_of in Hk.
  - apply put_elem_of in Hk as [Hk|[=]]. by apply noChallenge_elem_of in Hk.
  - apply put_elem_of in Hk as [Hk|[=]]; [by apply noChallenge_elem_of in Hk|done].
Qed.

(** No challenge stands after a response that did not produce a challenger. *)
Lemma recordResponse_noChallenge pid rt rs rs' :
  pid ≠ EmptyString →
  noChallenge rs →
  recordResponse pid rt rs = Some rs' →
  truthy (firstChallenger rs') = None →
  noChallenge rs'.
Proof.
  intros Hpid Hn Hr Ht. apply truthy_None in Ht as [Ht|Ht].
  { by apply firstChallenger_None. }
  by destruct (firstChallenger_recorded _ _ _ _ _ Hn Hr Ht) as [<- _].
Qed.

Lemma recordResponse_keysIn l pid rt rs rs' :
  pid ∈ l → keysIn l rs → recordResponse pid rt rs = Some rs' → keysIn l rs'.
Proof.
  intros Hpid Hk Hr. unfold recordResponse, JsObject.set in Hr.
  repeat case_decide; simplify_eq; try done; by apply put_Forall_key.
Qed.

Lemma recordResponse_NoDup pid rt rs rs' :
  NoDup rs.*1 → recordResponse pid rt rs = Some rs' → NoDup rs'.*1.
Proof.
  intros Hn Hr. unfold recordResponse in Hr.
  repeat case_decide; simplify_eq; by apply set_NoDup.
Qed.

Lemma has_plain pid rs :
  JsObject.has pid rs = true → JsObject.inherited pid = false → is_Some (JsObject.own pid rs).
Proof.
  unfold JsObject.has. intros H Hi. rewrite Hi, orb_false_r in H.
  by apply bool_decide_eq_true in H.
Qed.

(** In a room of plain ids the test [playerId in responders] finds a
    player exactly when the player has an entry. *)
Lemma listed_own g pid (rs : Responders) :
  plainRoom g → pid ∈ ids g → JsObject.has pid rs = true → is_Some (JsObject.own pid rs).
Proof.
  intros Hplain Hin Hhas. apply has_plain; [done|].
  unfold plainRoom in Hplain. rewrite Forall_forall in Hplain. by apply Hplain.
Qed.

Lemma own_has pid rs : is_Some (JsObject.own pid rs) → JsObject.has pid rs = true.
Proof. intros H. unfold JsObject.has. by rewrite bool_decide_eq_true_2. Qed.

Lemma recordResponse_own a pid rt rs rs' :
  JsObject.own a rs = None →
  is_Some (JsObject.own pid rs) →
  recordResponse pid rt rs = Some rs' →
  JsObject.own a rs' = None.
Proof.
  intros Ha Hp Hr. assert (a ≠ pid) by (intros ->; rewrite Ha in Hp; by destruct Hp).
  unfold recordResponse, JsObject.set in Hr.
  repeat case_decide; simplify_eq; try done; by rewrite own_put_ne.
Qed.

Lemma set_noChallenge pid m rs :
  m ≠ Challenged → noChallenge rs → noChallenge (JsObject.set pid m rs).
Proof.
  intros Hm Hn. unfold JsObject.set. case_decide; [done|]. by apply put_Forall.
Qed.

Lemma set_keysIn l pid m rs : pid ∈ l → keysIn l rs → keysIn l (JsObject.set pid m rs).
Proof.
  intros Hp Hk. unfold JsObject.set. case_decide; [done|]. by apply put_Forall_key.
Qed.

Lemma set_own a pid m rs :
  a ≠ pid → JsObject.own a (JsObject.set pid m rs) = JsObject.own a rs.
Proof. intros H. unfold JsObject.set. case_decide; [done|]. by apply own_put_ne. Qed.

(** A challenge by a responder is found at once. *)
Lemma firstChallenger_challenge pid rs :
  noChallenge rs → pid ≠ "__proto__" →
  firstChallenger (JsObject.set pid Challenged rs) = Some pid.
Proof.
  intros Hn Hp. unfold JsObject.set. rewrite decide_False by done.
  destruct (firstChallenger (JsObject.put pid Challenged rs)) as [k|] eqn:E.
  - apply firstChallenger_Some, put_elem_of in E as [E|[= ->]]; [|done].
    by apply noChallenge_elem_of in E.
  - apply firstChallenger_None in E.
    destruct (noChallenge_elem_of _ pid E). apply put_has.
Qed.

Lemma initResponders_ok g excludeId :
  keysIn (ids g) (initResponders g excludeId)
  ∧ noChallenge (initResponders g excludeId)
  ∧ NoDup (initResponders g excludeId).*1
  ∧ JsObject.own excludeId (initResponders g excludeId) = None.
Proof.
  unfold initResponders, ids.
  assert (∀ ps rs,
    Forall (λ p, p_id p ∈ p_id <$> players g) ps →
    keysIn (p_id <$> players g) rs ∧ noChallenge rs ∧ NoDup rs.*1
    ∧ JsObject.own excludeId rs = None →
    let rs' := foldl (λ responders p,
                 if decide (p_id p = excludeId) then responders
                 else if negb (isAlive g (p_id p)) then responders
                 else JsObject.set (p_id p) Pending responders) rs ps in
    keysIn (p_id <$> players g) rs' ∧ noChallenge rs' ∧ NoDup rs'.*1
    ∧ JsObject.own excludeId rs' = None)
    as Hgen.
  { induction ps as [|p ps IH]; intros rs Hps (Hk & Hn & Hd & Ho); simpl; [done|].
    apply Forall_cons in Hps as [Hp Hps]. apply IH; [done|].
    case_decide; [done|]. destruct (negb _); [done|].
    split_and!; [by apply set_keysIn|by apply set_noChallenge|by apply set_NoDup
                |by rewrite set_own]. }
  apply Hgen.
  - apply Forall_forall. intros p Hp. by apply list_elem_of_fmap_2.
  - split_and!; [by constructor|by constructor|by constructor|done].
Qed.

Lemma isAlive_seats g g' id : seats g' = seats g → isAlive g' id = isAlive g id.
Proof.
  intros H.
  assert (∀ g, isAlive g id
               = match list_find (λ e : string * list Card, e.1 = id) (seats g) with
                 | Some (_, (_, cs)) => existsb unrevealed cs
                 | None => false
                 end) as E.
  { intros g0. unfold isAlive, getPlayer, seats. rewrite list_find_fmap.
    by destruct (list_find _ (players g0)) as [[i p]|]. }
  by rewrite !E, H.
Qed.

(** The responders depend on the seats only, not on the coins. *)
Lemma initResponders_seats g g' excludeId :
  seats g' = seats g → initResponders g' excludeId = initResponders g excludeId.
Proof.
  intros H.
  assert (∀ g0, initResponders g0 excludeId
                = foldl (λ rs (e : string * list Card),
                           if decide (e.1 = excludeId) then rs
                           else if negb (isAlive g0 e.1) then rs
                           else JsObject.set e.1 Pending rs) [] (seats g0)) as E.
  { intros g0. unfold initResponders, seats. by rewrite foldl_fmap. }
  assert (∀ id, isAlive g' id = isAlive g id) as Ha by (intros; by apply isAlive_seats).
  rewrite !E, H. clear E H. generalize ([] : Responders).
  induction (seats g) as [|e l IH]; intros rs; simpl; [done|].
  rewrite Ha. apply IH.
Qed.

Lemma literal_noChallenge t : noChallenge (JsObject.literal t Pending).
Proof. by repeat constructor. Qed.

Lemma literal_NoDup t : NoDup (JsObject.literal t Pending).*1.
Proof. apply NoDup_singleton. Qed.

Lemma everyonePassed_Forall rs :
  everyonePassed rs = true ↔ Forall (λ e, e.2 = Passed) rs.
Proof.
  unfold everyonePassed, JsObject.values. rewrite <- (entries_perm rs) at 2.
  rewrite forallb_forall, Forall_forall. split.
  - intros H e He. eapply bool_decide_eq_true_1, H, list_elem_of_In.
    apply list_elem_of_fmap. by exists e.
  - intros H m ([k m'] & -> & He)%list_elem_of_In%list_elem_of_fmap.
    apply bool_decide_eq_true_2. by apply H in He.
Qed.

(** The pass of the last responder who had not passed. *)
Lemma everyonePassed_last pid rs :
  NoDup rs.*1 → pid ≠ "__proto__" →
  (∀ k m, (k, m) ∈ rs → k ≠ pid → m = Passed) →
  everyonePassed (JsObject.set pid Passed rs) = true.
Proof.
  intros Hn Hp Hrs. apply everyonePassed_Forall, Forall_forall. intros [k m] He.
  unfold JsObject.set in He. rewrite decide_False in He by done.
  destruct (put_elem_of_NoDup _ _ _ _ Hn He) as [[= -> ->]|[He' Hk]]; [done|].
  simpl in *. eauto.
Qed.

End ChallengeFacts.

(** ** Facts about the deck and the card operations *)

Section CardFacts.

Variable rnd : nat → nat.

Lemma swap_perm {A} (arr : list A) i j : swap arr i j ≡ₚ arr.
Proof.
  unfold swap. destruct (arr !! i) as [x|] eqn:Hi; [|done].
  destruct (arr !! j) as [y|] eqn:Hj; [|done].
  by apply Permutation_insert_swap.
Qed.

Lemma shuffleFrom_perm {A} i (arr : list A) t : (shuffleFrom rnd i arr t).1 ≡ₚ arr.
Proof.
  revert arr t. induction i as [|i IH]; intros arr t; simpl; [done|].
  by rewrite IH, swap_perm.
Qed.

Lemma shuffle_perm {A} (arr : list A) t : (shuffle rnd arr t).1 ≡ₚ arr.
Proof. apply shuffleFrom_perm. Qed.

Lemma makeDeck_perm t : (makeDeck rnd t).1 ≡ₚ fullDeck.
Proof. apply shuffle_perm. Qed.

Lemma pop_snoc {A} (arr : list A) x : pop (arr ++ [x]) = Some (x, arr).
Proof. unfold pop. rewrite reverse_snoc. by rewrite reverse_involutive. Qed.

Lemma pop_cases {A} (arr : list A) :
  (arr = [] ∧ pop arr = None) ∨ ∃ x r, arr = r ++ [x] ∧ pop arr = Some (x, r).
Proof.
  destruct arr as [|y arr] using rev_ind; [by left|].
  right. exists y, arr. by rewrite pop_snoc.
Qed.

(** [draw()] from a deck that is not empty pops its last card. *)
Lemma draw_nonempty g :
  deck g ≠ [] →
  ∃ r d, deck g = d ++ [r] ∧ draw rnd g = (r, set_deck d (randomCalls g) g).
Proof.
  intros Hne. unfold draw. rewrite decide_False.
  2:{ by destruct (deck g). }
  destruct (pop_cases (deck g)) as [[? _]|(x & r & E & Hp)]; [done|].
  rewrite Hp. by exists x, r.
Qed.

(** [draw()] from the empty deck makes a new deck of 15 and pops from it. *)
Lemma draw_empty g :
  deck g = [] →
  ∃ r d t, r :: d ≡ₚ fullDeck ∧ draw rnd g = (r, set_deck d t g).
Proof.
  intros He. unfold draw. rewrite decide_True by (by rewrite He).
  destruct (makeDeck rnd (randomCalls g)) as [d t] eqn:Em.
  assert (d ≡ₚ fullDeck) as Hd by (by rewrite <- (makeDeck_perm (randomCalls g)), Em).
  simpl. destruct (pop_cases d) as [[-> _]|(x & r & -> & Hp)].
  { by apply Permutation_nil_l in Hd. }
  rewrite Hp. exists x, r, t. split; [|done].
  by rewrite <- Hd, Permutation_app_comm.
Qed.

(** The pop in [draw] always finds a card. *)
Lemma draw_pops g :
  ∃ r d t, draw rnd g = (r, set_deck d t g)
           ∧ (deck g ≠ [] → deck g = d ++ [r]).
Proof.
  destruct (decide (deck g = [])) as [He|Hne].
  - destruct (draw_empty g He) as (r & d & t & _ & E). by exists r, d, t.
  - destruct (draw_nonempty g Hne) as (r & d & E & Hd). by exists r, d, (randomCalls g).
Qed.

Lemma returnToDeck_spec roles g :
  ∃ d t, returnToDeck rnd roles g = set_deck d t g ∧ d ≡ₚ roles ++ deck g.
Proof.
  unfold returnToDeck.
  pose proof (shuffle_perm (reverse roles ++ deck g) (randomCalls g)) as Hp.
  destruct (shuffle _ _ _) as [d t]. exists d, t. split; [done|].
  simpl in Hp. by rewrite Hp, reverse_Permutation.
Qed.

Lemma findRole_Some r cards idx :
  findRole r cards = Some idx →
  ∃ c, cards !! idx = Some c ∧ revealed c = false ∧ role c = r.
Proof.
  unfold findRole. destruct (list_find _ _) as [[i c]|] eqn:E; [|done].
  intros [= <-]. apply list_find_Some in E as (? & [? ?] & _). by exists c.
Qed.

Lemma alter_then_insert {A} (f : A → A) i (x : A) (l : list A) :
  <[i := x]> (alter f i l) = <[i := x]> l.
Proof.
  revert i. induction l as [|y l IH]; intros [|i]; simpl; [done..|]. f_equal. apply IH.
Qed.

Lemma alterPlayer_twice i f1 f2 g :
  alterPlayer i f2 (alterPlayer i f1 g) = alterPlayer i (f2 ∘ f1) g.
Proof.
  unfold alterPlayer, set_players. simpl. f_equal. by rewrite list_alter_alter_eq.
Qed.

(** What [revealAndRedraw] does when the card is there: the slot gets a
    fresh unrevealed card, drawn after the shown role went back to the deck. *)
Lemma revealAndRedraw_success g playerId r pi p idx :
  list_find (λ p, p_id p = playerId) (players g) = Some (pi, p) →
  findRole r (influence p) = Some idx →
  ∃ r' d t,
    (revealAndRedraw rnd g playerId r).1 = true
    ∧ players (revealAndRedraw rnd g playerId r).2
      = alter (set_influence <[idx := mkCard r' false]>) pi (players g)
    ∧ deck (revealAndRedraw rnd g playerId r).2 = d
    ∧ r' :: d ≡ₚ r :: deck g
    ∧ pendingAction (revealAndRedraw rnd g playerId r).2 = pendingAction g
    ∧ exchange (revealAndRedraw rnd g playerId r).2 = exchange g
    ∧ randomCalls (revealAndRedraw rnd g playerId r).2 = t.
Proof.
  intros Hf Hr. unfold revealAndRedraw. rewrite Hf, Hr.
  set (g1 := log_push _ (alterPlayer pi _ g)).
  destruct (returnToDeck_spec [r] g1) as (d1 & t1 & -> & Hd1).
  assert (deck (set_deck d1 t1 g1) ≠ []) as Hne.
  { simpl. intros ->. by apply Permutation_nil_l in Hd1. }
  destruct (draw_nonempty _ Hne) as (r' & d & Hd & ->). simpl in Hd. subst d1.
  exists r', d, t1. simpl. split_and!; try done.
  - rewrite list_alter_alter_eq.
    apply list_alter_ext; [|done]. intros q _. unfold set_influence. simpl. f_equal.
    apply alter_then_insert.
  - subst g1. simpl in Hd1. etrans; [|apply Hd1]. by rewrite Permutation_app_comm.
Qed.

(** The same call to the letter: the card is shown (the log says so), the
    shown role is put under the deck, the deck is shuffled, and its last card
    goes to the slot. *)
Lemma revealAndRedraw_shown g playerId r pi p idx :
  list_find (λ p, p_id p = playerId) (players g) = Some (pi, p) →
  findRole r (influence p) = Some idx →
  ∃ r' d,
    (shuffle rnd (r :: deck g) (randomCalls g)).1 = d ++ [r']
    ∧ deck (revealAndRedraw rnd g playerId r).2 = d
    ∧ players (revealAndRedraw rnd g playerId r).2
      = alter (set_influence <[idx := mkCard r' false]>) pi (players g)
    ∧ log (revealAndRedraw rnd g playerId r).2
      = log g ++ [p_name p +:+ " reveals " +:+ roleName r +:+ ".";
                  p_name p +:+ " draws a replacement influence."].
Proof.
  intros Hf Hr. unfold revealAndRedraw. rewrite Hf, Hr.
  set (g1 := log_push _ (alterPlayer pi _ g)).
  pose proof (returnToDeck_spec [r] g1) as (d1 & t1 & E1 & Hd1).
  assert (shuffle rnd (r :: deck g) (randomCalls g) = (d1, t1)) as Es.
  { unfold returnToDeck in E1. simpl in E1.
    destruct (shuffle rnd (r :: deck g) (randomCalls g)) as [d0 t0].
    by injection E1 as -> ->. }
  rewrite E1.
  assert (deck (set_deck d1 t1 g1) ≠ []) as Hne.
  { simpl. intros ->. by apply Permutation_nil_l in Hd1. }
  destruct (draw_nonempty _ Hne) as (r' & d & Hd & ->). simpl in Hd. subst d1.
  exists r', d. rewrite Es. simpl. split_and!; try done.
  - rewrite list_alter_alter_eq.
    apply list_alter_ext; [|done]. intros q _. unfold set_influence. simpl. f_equal.
    apply alter_then_insert.
  - by rewrite <- app_assoc.
Qed.

Lemma revealAndRedraw_cases g playerId r :
  revealAndRedraw rnd g playerId r = (false, g)
  ∨ ∃ pi p idx, list_find (λ p, p_id p = playerId) (players g) = Some (pi, p)
                ∧ findRole r (influence p) = Some idx.
Proof.
  unfold revealAndRedraw.
  destruct (list_find _ _) as [[pi p]|]; [|by left].
  destruct (findRole r (influence p)) as [idx|] eqn:E; [|by left]. right. by exists pi, p, idx.
Qed.

Lemma loseInfluence_cases g playerId cardIndex :
  loseInfluence g playerId cardIndex = (false, g)
  ∨ ∃ pi p i c,
      list_find (λ p, p_id p = playerId) (players g) = Some (pi, p)
      ∧ cardIndex = Some i ∧ influence p !! i = Some c ∧ revealed c = false
      ∧ loseInfluence g playerId cardIndex
        = (true, checkWin (log_push (p_name p +:+ " loses influence (" +:+ roleName (role c)
                                       +:+ " revealed).")
                             (alterPlayer pi (set_influence (alter reveal i)) g))).
Proof.
  unfold loseInfluence.
  destruct (list_find _ _) as [[pi p]|]; [|by left].
  destruct cardIndex as [i|]; simpl; [|by left].
  destruct (influence p !! i) as [c|] eqn:Hc; simpl; [|by left].
  destruct (revealed c) eqn:Hr; [by left|]. right. by exists pi, p, i, c.
Qed.

End CardFacts.

Section HandFacts.

Variable rnd : nat → nat.

Lemma hands_set_influence i f g :
  hands (alterPlayer i (set_influence f) g) = alter f i (hands g).
Proof. unfold hands, alterPlayer. simpl. by apply fmap_alter. Qed.

Lemma ids_set_influence i f g : ids (alterPlayer i (set_influence f) g) = ids g.
Proof. unfold ids, alterPlayer. simpl. by apply ids_alter. Qed.

Lemma hands_lookup g pi p : players g !! pi = Some p → hands g !! pi = Some (influence p).
Proof. intros H. unfold hands. by rewrite list_lookup_fmap, H. Qed.

Lemma insert_swap_perm {A} (l : list A) i x y :
  l !! i = Some x → y :: l ≡ₚ x :: <[i := y]> l.
Proof.
  revert i. induction l as [|z l IH]; intros [|i] H; simplify_eq/=.
  - apply Permutation_swap.
  - rewrite (Permutation_swap z x), <- (IH i H). apply Permutation_swap.
Qed.

Lemma concat_alter_perm {A} (ls : list (list A)) pi cs (f : list A → list A) k1 k2 :
  ls !! pi = Some cs → k1 ++ cs ≡ₚ k2 ++ f cs →
  k1 ++ concat ls ≡ₚ k2 ++ concat (alter f pi ls).
Proof.
  revert pi. induction ls as [|l ls IH]; intros [|pi] H Hp; simplify_eq/=.
  - by rewrite !app_assoc, Hp.
  - rewrite !(Permutation_app_swap_app _ l). f_equiv. by apply IH.
Qed.

Lemma concat_alter_roles (f : list Card → list Card) (pi : nat) (ls : list (list Card)) :
  (∀ cs, role <$> f cs = role <$> cs) →
  role <$> concat (alter f pi ls) = role <$> concat ls.
Proof.
  intros Hf. revert pi. induction ls as [|l ls IH]; intros [|pi]; simpl; [done..| |].
  - by rewrite !fmap_app, Hf.
  - rewrite !fmap_app. f_equal. apply IH.
Qed.

Lemma handSizes_alter g g' pi f :
  hands g' = alter f pi (hands g) →
  (∀ cs, hands g !! pi = Some cs → length (f cs) = length cs) →
  handSizes g' = handSizes g.
Proof.
  intros Hh Hf. unfold handSizes. rewrite Hh. apply list_eq. intros j.
  rewrite !list_lookup_fmap. destruct (decide (pi = j)) as [->|].
  - rewrite list_lookup_alter_eq. destruct (hands g !! j) eqn:E; simpl; [|done].
    f_equal. by apply Hf.
  - by rewrite list_lookup_alter_ne.
Qed.

Lemma evolves_refl g : evolves g g.
Proof. done. Qed.

Lemma evolves_trans g1 g2 g3 : evolves g1 g2 → evolves g2 g3 → evolves g1 g3.
Proof.
  intros (Hi & Hs & Hc) (Hi' & Hs' & Hc'). split_and!; [congruence..|]. eauto.
Qed.

Lemma evolves_same g g' : ids g' = ids g → hands g' = hands g → evolves g g'.
Proof.
  intros Hi Hh. split_and!; [done|by unfold handSizes; rewrite Hh|].
  intros pi ci c. by rewrite !cardAt_hands, Hh.
Qed.

Lemma evolves_alter g g' pi f :
  ids g' = ids g →
  hands g' = alter f pi (hands g) →
  (∀ cs, hands g !! pi = Some cs →
         length (f cs) = length cs
         ∧ ∀ ci c, cs !! ci = Some c → revealed c = true → f cs !! ci = Some c) →
  evolves g g'.
Proof.
  intros Hi Hh Hf. split_and!; [done|..].
  - eapply handSizes_alter; [done|]. intros cs Hcs. by apply Hf.
  - intros pj ci c. rewrite !cardAt_hands, Hh.
    destruct (decide (pi = pj)) as [->|]; [|by rewrite list_lookup_alter_ne].
    rewrite list_lookup_alter_eq. destruct (hands g !! pj) as [cs|] eqn:E; simpl; [|done].
    intros. by apply Hf.
Qed.

Lemma revealAndRedraw_ids g playerId r : ids (revealAndRedraw rnd g playerId r).2 = ids g.
Proof.
  destruct (revealAndRedraw_cases rnd g playerId r) as [->|(pi & p & idx & Hf & Hr)]; [done|].
  destruct (revealAndRedraw_success rnd g playerId r pi p idx Hf Hr)
    as (r' & d & t & _ & Hp & _).
  unfold ids. rewrite Hp. by apply ids_alter.
Qed.

Lemma revealAndRedraw_pendingAction g playerId r :
  pendingAction (revealAndRedraw rnd g playerId r).2 = pendingAction g.
Proof.
  destruct (revealAndRedraw_cases rnd g playerId r) as [->|(pi & p & idx & Hf & Hr)]; [done|].
  by destruct (revealAndRedraw_success rnd g playerId r pi p idx Hf Hr)
    as (r' & d & t & _ & _ & _ & _ & Hp & _).
Qed.

Lemma revealAndRedraw_exchange g playerId r :
  exchange (revealAndRedraw rnd g playerId r).2 = exchange g.
Proof.
  destruct (revealAndRedraw_cases rnd g playerId r) as [->|(pi & p & idx & Hf & Hr)]; [done|].
  by destruct (revealAndRedraw_success rnd g playerId r pi p idx Hf Hr)
    as (r' & d & t & _ & _ & _ & _ & _ & Hp & _).
Qed.

Lemma revealAndRedraw_hands g playerId r pi p idx :
  list_find (λ p, p_id p = playerId) (players g) = Some (pi, p) →
  findRole r (influence p) = Some idx →
  ∃ r' c, influence p !! idx = Some c ∧ revealed c = false ∧ role c = r
    ∧ hands (revealAndRedraw rnd g playerId r).2
      = alter <[idx := mkCard r' false]> pi (hands g)
    ∧ r' :: deck (revealAndRedraw rnd g playerId r).2 ≡ₚ r :: deck g.
Proof.
  intros Hf Hr.
  destruct (revealAndRedraw_success rnd g playerId r pi p idx Hf Hr)
    as (r' & d & t & _ & Hp & Hd & Hperm & _).
  destruct (findRole_Some _ _ _ Hr) as (c & Hc & Hu & Hrole).
  exists r', c. split_and!; [done..| |by rewrite Hd].
  unfold hands. rewrite Hp. by apply fmap_alter.
Qed.

Lemma revealAndRedraw_evolves g playerId r :
  evolves g (revealAndRedraw rnd g playerId r).2.
Proof.
  destruct (revealAndRedraw_cases rnd g playerId r) as [->|(pi & p & idx & Hf & Hr)]; [done|].
  destruct (revealAndRedraw_hands g playerId r pi p idx Hf Hr)
    as (r' & c & Hc & Hu & _ & Hh & _).
  eapply evolves_alter; [apply revealAndRedraw_ids|done|].
  intros cs Hcs. apply find_getPlayer in Hf as (_ & Hp & _).
  rewrite (hands_lookup _ _ _ Hp) in Hcs. simplify_eq.
  split; [by rewrite length_insert|].
  intros ci c' Hc' Hrev. destruct (decide (idx = ci)) as [->|]; [congruence|].
  by rewrite list_lookup_insert_ne.
Qed.

(** [revealAndRedraw] keeps the cards of deck and hands together the same. *)
Lemma revealAndRedraw_cards g playerId r :
  cardsOnTable (revealAndRedraw rnd g playerId r).2 ≡ₚ cardsOnTable g.
Proof.
  destruct (revealAndRedraw_cases rnd g playerId r) as [->|(pi & p & idx & Hf & Hr)]; [done|].
  destruct (revealAndRedraw_hands g playerId r pi p idx Hf Hr)
    as (r' & c & Hc & Hu & Hrole & Hh & Hd).
  apply find_getPlayer in Hf as (_ & Hp & _).
  unfold cardsOnTable, handRoles. rewrite Hh.
  set (d := deck (revealAndRedraw rnd g playerId r).2) in *.
  assert ([mkCard r' false] ++ concat (hands g)
          ≡ₚ [c] ++ concat (alter <[idx := mkCard r' false]> pi (hands g))) as Hperm.
  { eapply concat_alter_perm; [by apply hands_lookup|].
    simpl. by apply insert_swap_perm. }
  apply (fmap_Permutation role) in Hperm. simpl in Hperm. rewrite Hrole in Hperm.
  apply (inj (cons r)).
  rewrite (Permutation_middle d), <- Hperm, <- Permutation_middle.
  change (r :: deck g ++ ?x) with ((r :: deck g) ++ x). by rewrite <- Hd.
Qed.

Lemma loseInfluence_spec g playerId cardIndex :
  ids (loseInfluence g playerId cardIndex).2 = ids g
  ∧ deck (loseInfluence g playerId cardIndex).2 = deck g
  ∧ pendingAction (loseInfluence g playerId cardIndex).2 = pendingAction g
  ∧ exchange (loseInfluence g playerId cardIndex).2 = exchange g
  ∧ handRoles (loseInfluence g playerId cardIndex).2 = handRoles g
  ∧ evolves g (loseInfluence g playerId cardIndex).2.
Proof.
  destruct (loseInfluence_cases g playerId cardIndex)
    as [->|(pi & p & i & c & Hf & -> & Hc & Hu & ->)]; [done|]. simpl.
  set (g1 := log_push _ _).
  assert (players (checkWin g1) = players g1 ∧ deck (checkWin g1) = deck g1
          ∧ pendingAction (checkWin g1) = pendingAction g1
          ∧ exchange (checkWin g1) = exchange g1) as (Hp & Hd & Ha & He).
  { by destruct (checkWin_cases g1) as [->|[q ->]]. }
  apply find_getPlayer in Hf as (_ & Hpl & _).
  assert (hands (checkWin g1) = alter (alter reveal i) pi (hands g)) as Hh.
  { rewrite (hands_players g1) by done. apply hands_set_influence. }
  assert (ids (checkWin g1) = ids g) as Hi.
  { rewrite (ids_players g1) by done. apply ids_set_influence. }
  split_and!; [done|by rewrite Hd|by rewrite Ha|by rewrite He|..].
  - unfold handRoles. rewrite Hh. apply concat_alter_roles. intros cs.
    rewrite (fmap_alter role reveal (λ x, x)) by done. by rewrite list_alter_id.
  - eapply evolves_alter; [done..|].
    intros cs Hcs. rewrite (hands_lookup _ _ _ Hpl) in Hcs. simplify_eq.
    split; [by rewrite length_alter|].
    intros ci c' Hc' Hrev. destruct (decide (i = ci)) as [->|]; [congruence|].
    by rewrite list_lookup_alter_ne.
Qed.

End HandFacts.

(** ** Revealed cards stay revealed *)

Section Evolution.

Variable rnd : nat → nat.

Lemma aliveCards_elem_of p i c :
  (i, c) ∈ aliveCards p ↔ influence p !! i = Some c ∧ revealed c = false.
Proof.
  unfold aliveCards. rewrite list_elem_of_filter, elem_of_lookup_imap. simpl. split.
  - intros (Hu & j & c' & [= -> ->] & Hc). done.
  - intros (Hc & Hu). split; [done|]. by exists i, c.
Qed.

Lemma placeChosen_length slots chosen cs : length (placeChosen slots chosen cs) = length cs.
Proof.
  unfold placeChosen. generalize (zip slots chosen). intros l. revert cs.
  induction l as [|sc l IH]; intros cs; simpl; [done|]. by rewrite IH, length_insert.
Qed.

Lemma placeChosen_other slots chosen cs ci :
  ci ∉ slots → placeChosen slots chosen cs !! ci = cs !! ci.
Proof.
  unfold placeChosen. revert chosen cs.
  induction slots as [|s slots IH]; intros [|o chosen] cs Hci; simpl; try done.
  apply not_elem_of_cons in Hci as [Hne Hci].
  rewrite IH by done. by rewrite list_lookup_insert_ne.
Qed.

Lemma evolves_draw g : evolves g (draw rnd g).2.
Proof. by destruct (draw_pops rnd g) as (r & d & t & -> & _). Qed.

Lemma evolves_returnToDeck roles g : evolves g (returnToDeck rnd roles g).
Proof. by destruct (returnToDeck_spec rnd roles g) as (d & t & -> & _). Qed.

Lemma ev_reply g0 g l : evolves g0 g → evolves g0 (game (reply g l)).
Proof.
  intros H. eapply evolves_trans; [done|]. apply evolves_same; by autorewrite with obs.
Qed.

Lemma ev_finishTurn g0 g : evolves g0 g → evolves g0 (game (finishTurn g)).
Proof.
  intros H. eapply evolves_trans; [done|]. apply evolves_same; by autorewrite with obs.
Qed.

Lemma ev_nextTurn g0 g : evolves g0 g → evolves g0 (nextTurn g).
Proof.
  intros H. eapply evolves_trans; [done|]. apply evolves_same; by autorewrite with obs.
Qed.

Lemma ev_log_push g0 g s : evolves g0 g → evolves g0 (log_push s g).
Proof. done. Qed.

Lemma ev_set_pendingAction g0 g pa : evolves g0 g → evolves g0 (set_pendingAction pa g).
Proof. done. Qed.

Lemma ev_beginLoseInfluence g0 g p r c : evolves g0 g → evolves g0 (beginLoseInfluence g p r c).
Proof. done. Qed.

Lemma ev_set_exchange g0 g f : evolves g0 g → evolves g0 (set_exchange f g).
Proof. done. Qed.

Lemma ev_add_coins g0 g i n : evolves g0 g → evolves g0 (alterPlayer i (add_coins n) g).
Proof.
  intros H. eapply evolves_trans; [done|]. apply evolves_same; by autorewrite with obs.
Qed.

Lemma ev_applySteal g0 g a t : evolves g0 g → evolves g0 (applySteal g a t).
Proof.
  intros H. eapply evolves_trans; [done|]. apply evolves_same; by autorewrite with obs.
Qed.

Lemma ev_revealAndRedraw g0 g p r : evolves g0 g → evolves g0 (revealAndRedraw rnd g p r).2.
Proof. intros H. eapply evolves_trans; [done|]. apply revealAndRedraw_evolves. Qed.

Lemma ev_loseInfluence g0 g p i b g' :
  loseInfluence g p i = (b, g') → evolves g0 g → evolves g0 g'.
Proof.
  intros E H. eapply evolves_trans; [done|].
  pose proof (loseInfluence_spec g p i) as (_ & _ & _ & _ & _ & Hev). by rewrite E in Hev.
Qed.

Lemma ev_draw g0 g r g' : draw rnd g = (r, g') → evolves g0 g → evolves g0 g'.
Proof.
  intros E H. eapply evolves_trans; [done|].
  pose proof (evolves_draw g) as Hev. by rewrite E in Hev.
Qed.

Lemma ev_returnToDeck g0 g roles : evolves g0 g → evolves g0 (returnToDeck rnd roles g).
Proof. intros H. eapply evolves_trans; [done|]. apply evolves_returnToDeck. Qed.

Lemma ev_placeChosen g0 g ia actor chosen :
  evolves g0 g →
  list_find (λ p, p_id p = p_id actor) (players g) = Some (ia, actor) →
  evolves g0 (alterPlayer ia (set_influence (placeChosen (aliveCards actor).*1 chosen)) g).
Proof.
  intros H Hf. eapply evolves_trans; [done|].
  apply find_getPlayer in Hf as (_ & Hp & _).
  eapply evolves_alter; [apply ids_set_influence|apply hands_set_influence|].
  intros cs Hcs. rewrite (hands_lookup _ _ _ Hp) in Hcs. simplify_eq.
  split; [apply placeChosen_length|].
  intros ci c Hc Hrev. rewrite placeChosen_other; [done|].
  intros ([i c'] & -> & Hin%aliveCards_elem_of)%list_elem_of_fmap. simpl in *.
  destruct Hin. congruence.
Qed.

End Evolution.

#[export] Hint Resolve evolves_refl ev_reply ev_finishTurn ev_nextTurn ev_log_push
  ev_set_pendingAction ev_beginLoseInfluence ev_set_exchange ev_add_coins ev_applySteal
  ev_revealAndRedraw ev_loseInfluence ev_draw ev_returnToDeck : ev.

Ltac split_cases := repeat (first [ case_match | case_decide ]); simplify_eq.

Ltac split_light :=
  repeat case_match; try discriminate;
  repeat match goal with H : Ok _ = Ok _ |- _ => injection H as <- end.

(** Case analysis of a hypothesis [handleResponse ... = Ok r] by the pending
    action, then inside the block that answers it. *)
Ltac unfold_blocks :=
  unfold respondLoseInfluence, respondTax, respondForeignAidBlock,
    respondForeignAidChallengeBlock, respondAssassinateChallenge, respondAssassinateBlock,
    respondAssassinateChallengeBlock, respondStealChallenge, respondStealBlock,
    respondStealChallengeBlock, respondExchangeChallenge in *.

Ltac by_blocks H :=
  unfold handleResponse in H;
  let E := fresh "Hpending" in
  destruct (pendingAction _) as [[]|] eqn:E; unfold_blocks; split_light.

Section EvolutionOfCalls.

Variable rnd : nat → nat.

Lemma evolves_startExchangeChoice g0 g a :
  evolves g0 g → evolves g0 (game (startExchangeChoice rnd g a)).
Proof. intros H. unfold startExchangeChoice. split_cases; eauto 20 with ev. Qed.

Lemma evolves_continue g0 g cont :
  evolves g0 g → evolves g0 (game (continueAfterLoseInfluence rnd g cont)).
Proof.
  intros H. unfold continueAfterLoseInfluence.
  split_cases; eauto 20 using evolves_startExchangeChoice with ev.
Qed.

Lemma evolves_resolveAction g actorId actionType targetId :
  evolves g (game (resolveAction g actorId actionType targetId)).
Proof.
  unfold resolveAction. split_light;
    eauto 20 with ev.
Qed.

Lemma evolves_respondExchangeChoice g a playerId responseType payload :
  evolves g (game (respondExchangeChoice rnd g a playerId responseType payload)).
Proof.
  unfold respondExchangeChoice. split_cases; eauto 20 with ev.
  match goal with H : list_find _ _ = Some _ |- _ =>
    pose proof (find_getPlayer _ _ _ _ H) as (_ & _ & Hid) end.
  rewrite <- Hid in *.
  eauto 20 using ev_placeChosen with ev.
Qed.

Lemma evolves_handleResponse g playerId responseType payload r :
  handleResponse rnd g playerId responseType payload = Ok r → evolves g (game r).
Proof.
  intros H. by_blocks H;
    eauto 20 using evolves_startExchangeChoice, evolves_continue,
      evolves_respondExchangeChoice with ev.
Qed.

Lemma getStateFor_game g viewerId : (getStateFor g viewerId).2 = (currentPlayer g).2.
Proof. unfold getStateFor. by destruct (currentPlayer g). Qed.

Lemma evolves_currentPlayer g : evolves g (currentPlayer g).2.
Proof. destruct (currentPlayer_frame g) as [i ->]. by apply evolves_same. Qed.

Lemma evolves_checkWin g : evolves g (checkWin g).
Proof. destruct (checkWin_cases g) as [->|[p ->]]; by apply evolves_same. Qed.

(** Every operation of the engine and of the resolver keeps the revealed
    cards. *)
Lemma evolves_operation g g' : operation rnd g g' → evolves g g'.
Proof.
  destruct 1 as [g a ty t|g pid ty pl r Hr|g pid r|g pid ci|g|g rs|g|g|g|g v].
  - apply evolves_resolveAction.
  - by eapply evolves_handleResponse.
  - apply revealAndRedraw_evolves.
  - eapply ev_loseInfluence; [apply surjective_pairing|apply evolves_refl].
  - apply evolves_draw.
  - apply evolves_returnToDeck.
  - apply ev_nextTurn, evolves_refl.
  - apply evolves_checkWin.
  - apply evolves_currentPlayer.
  - rewrite getStateFor_game. apply evolves_currentPlayer.
Qed.

Lemma evolves_operations g g' : rtc (operation rnd) g g' → evolves g g'.
Proof.
  induction 1 as [g|g g1 g2 Hop _ IH]; [apply evolves_refl|].
  eapply evolves_trans; [by apply evolves_operation|done].
Qed.

End EvolutionOfCalls.
(** ** Coins *)

Section Coins.

Variable rnd : nat → nat.

Lemma find_purse g a :
  list_find (λ e : string * Z, e.1 = a) (purse g)
  = prod_map id (λ p, (p_id p, coins p)) <$> list_find (λ p, p_id p = a) (players g).
Proof. unfold purse. by rewrite list_find_fmap. Qed.

Lemma coinsOf_purse g a :
  coinsOf g a = (λ e : nat * (string * Z), e.2.2) <$> list_find (λ e, e.1 = a) (purse g).
Proof.
  rewrite find_purse. unfold coinsOf, getPlayer.
  by destruct (list_find _ (players g)) as [[i p]|].
Qed.

Lemma purse_coinsOf g g' a : purse g' = purse g → coinsOf g' a = coinsOf g a.
Proof. intros H. by rewrite !coinsOf_purse, H. Qed.

Lemma purse_seat g g' a i p :
  purse g' = purse g →
  list_find (λ p, p_id p = a) (players g) = Some (i, p) →
  ∃ p', list_find (λ p, p_id p = a) (players g') = Some (i, p') ∧ coins p' = coins p.
Proof.
  intros H Hf. pose proof (find_purse g' a) as E. rewrite H, find_purse, Hf in E.
  destruct (list_find _ (players g')) as [[j q]|]; [|done].
  injection E as -> _ Hc. by exists q.
Qed.

Lemma purse_players g g' : players g' = players g → purse g' = purse g.
Proof. unfold purse. by intros ->. Qed.

Lemma purse_alter g i f :
  (∀ p, p_id (f p) = p_id p) → (∀ p, coins (f p) = coins p) →
  purse (alterPlayer i f g) = purse g.
Proof.
  intros Hid Hc. unfold purse. rewrite alterPlayer_players.
  rewrite fmap_alter with (f' := id); [apply list_alter_id; done|].
  intros p. by rewrite Hid, Hc.
Qed.

Lemma purse_revealAndRedraw g playerId r :
  purse (revealAndRedraw rnd g playerId r).2 = purse g.
Proof.
  destruct (revealAndRedraw_cases rnd g playerId r) as [->|(pi & p & idx & Hf & Hr)]; [done|].
  destruct (revealAndRedraw_success rnd g playerId r pi p idx Hf Hr)
    as (r' & d & t & _ & Hp & _).
  unfold purse. rewrite Hp.
  rewrite fmap_alter with (f' := id); [apply list_alter_id; done|done].
Qed.

Lemma purse_checkWin g : purse (checkWin g) = purse g.
Proof. by destruct (checkWin_cases g) as [->|[p ->]]. Qed.

Lemma purse_loseInfluence g playerId cardIndex :
  purse (loseInfluence g playerId cardIndex).2 = purse g.
Proof.
  destruct (loseInfluence_cases g playerId cardIndex)
    as [->|(pi & p & i & c & Hf & -> & Hc & Hu & ->)]; [done|]. simpl.
  rewrite purse_checkWin. by apply purse_alter.
Qed.

Lemma purse_finishTurn g : purse (game (finishTurn g)) = purse g.
Proof. apply purse_players. by autorewrite with obs. Qed.

Lemma purse_reply g l : purse (game (reply g l)) = purse g.
Proof. apply purse_players. by autorewrite with obs. Qed.

Lemma coinsOf_find g a i p :
  list_find (λ p, p_id p = a) (players g) = Some (i, p) → coinsOf g a = Some (coins p).
Proof. intros H. unfold coinsOf, getPlayer. by rewrite H. Qed.

Lemma find_coinsOf g a c :
  coinsOf g a = Some c →
  ∃ i p, list_find (λ p, p_id p = a) (players g) = Some (i, p) ∧ coins p = c.
Proof.
  unfold coinsOf, getPlayer. destruct (list_find _ _) as [[i p]|]; [|done].
  intros [= <-]. by exists i, p.
Qed.

(** [p.coins += n] for the player found under [a], read back under [b]. *)
Lemma coinsOf_add_coins g a b i p n :
  list_find (λ p, p_id p = a) (players g) = Some (i, p) →
  coinsOf (alterPlayer i (add_coins n) g) b
  = if decide (b = a) then Some (coins p + n)%Z else coinsOf g b.
Proof.
  intros Hf. unfold coinsOf. rewrite getPlayer_alterPlayer by done.
  destruct (decide (b = a)) as [->|Hab].
  - by rewrite Hf; simpl; rewrite decide_True.
  - unfold getPlayer.
    destruct (list_find (λ p, p_id p = b) (players g)) as [[j q]|] eqn:Hq; [|done]. simpl.
    case_decide; [|done]. subst j.
    apply list_find_Some in Hf as (Hi & Ha & _), Hq as (Hi' & Hb & _). congruence.
Qed.

(** The same, when the seat was looked up before other changes that left
    the purses alone. *)
Lemma coinsOf_add_coins_later X g a b i p n :
  purse X = purse g →
  list_find (λ p, p_id p = a) (players g) = Some (i, p) →
  coinsOf (alterPlayer i (add_coins n) X) b
  = if decide (b = a) then Some (coins p + n)%Z else coinsOf g b.
Proof.
  intros HX Hf. destruct (purse_seat g X a i p HX Hf) as (p' & Hf' & <-).
  rewrite (coinsOf_add_coins X a b i p') by done.
  case_decide; [done|]. by apply purse_coinsOf.
Qed.

Lemma find_seat_ne g a b i j p q :
  a ≠ b →
  list_find (λ p, p_id p = a) (players g) = Some (i, p) →
  list_find (λ p, p_id p = b) (players g) = Some (j, q) →
  i ≠ j.
Proof.
  intros Hne (Hi & Ha & _)%list_find_Some (Hj & Hb & _)%list_find_Some ->. congruence.
Qed.

Lemma seats_add_coins g i n : seats (alterPlayer i (add_coins n) g) = seats g.
Proof.
  unfold seats. rewrite alterPlayer_players.
  rewrite fmap_alter with (f' := id); [apply list_alter_id; done|done].
Qed.

Lemma seats_players g g' : players g' = players g → seats g' = seats g.
Proof. unfold seats. by intros ->. Qed.

Lemma log_push_purse s g : purse (log_push s g) = purse g.
Proof. apply purse_players. by autorewrite with obs. Qed.

Lemma log_push_seats s g : seats (log_push s g) = seats g.
Proof. apply seats_players. by autorewrite with obs. Qed.

Lemma log_push_coinsOf s g a : coinsOf (log_push s g) a = coinsOf g a.
Proof. apply purse_coinsOf, log_push_purse. Qed.

Lemma set_pendingAction_purse pa g : purse (set_pendingAction pa g) = purse g.
Proof. apply purse_players. by autorewrite with obs. Qed.

Lemma set_pendingAction_seats pa g : seats (set_pendingAction pa g) = seats g.
Proof. apply seats_players. by autorewrite with obs. Qed.

Lemma set_pendingAction_coinsOf pa g a : coinsOf (set_pendingAction pa g) a = coinsOf g a.
Proof. apply purse_coinsOf, set_pendingAction_purse. Qed.

Lemma beginLoseInfluence_purse g p r c : purse (beginLoseInfluence g p r c) = purse g.
Proof. apply purse_players. by autorewrite with obs. Qed.

Lemma beginLoseInfluence_seats g p r c : seats (beginLoseInfluence g p r c) = seats g.
Proof. apply seats_players. by autorewrite with obs. Qed.

Lemma beginLoseInfluence_coinsOf g p r c a : coinsOf (beginLoseInfluence g p r c) a = coinsOf g a.
Proof. apply purse_coinsOf, beginLoseInfluence_purse. Qed.

Lemma set_exchange_purse f g : purse (set_exchange f g) = purse g.
Proof. apply purse_players. by autorewrite with obs. Qed.

Lemma set_exchange_seats f g : seats (set_exchange f g) = seats g.
Proof. apply seats_players. by autorewrite with obs. Qed.

Lemma set_exchange_coinsOf f g a : coinsOf (set_exchange f g) a = coinsOf g a.
Proof. apply purse_coinsOf, set_exchange_purse. Qed.

Lemma set_deck_purse d t g : purse (set_deck d t g) = purse g.
Proof. apply purse_players. by autorewrite with obs. Qed.

Lemma set_deck_seats d t g : seats (set_deck d t g) = seats g.
Proof. apply seats_players. by autorewrite with obs. Qed.

Lemma set_deck_coinsOf d t g a : coinsOf (set_deck d t g) a = coinsOf g a.
Proof. apply purse_coinsOf, set_deck_purse. Qed.

Lemma set_turnIndex_purse i g : purse (set_turnIndex i g) = purse g.
Proof. apply purse_players. by autorewrite with obs. Qed.

Lemma set_turnIndex_seats i g : seats (set_turnIndex i g) = seats g.
Proof. apply seats_players. by autorewrite with obs. Qed.

Lemma set_turnIndex_coinsOf i g a : coinsOf (set_turnIndex i g) a = coinsOf g a.
Proof. apply purse_coinsOf, set_turnIndex_purse. Qed.

Lemma nextTurn_purse g : purse (nextTurn g) = purse g.
Proof. apply purse_players. by autorewrite with obs. Qed.

Lemma nextTurn_seats g : seats (nextTurn g) = seats g.
Proof. apply seats_players. by autorewrite with obs. Qed.

Lemma nextTurn_coinsOf g a : coinsOf (nextTurn g) a = coinsOf g a.
Proof. apply purse_coinsOf, nextTurn_purse. Qed.

Lemma reply_seats g l : seats (game (reply g l)) = seats g.
Proof. apply seats_players. by autorewrite with obs. Qed.

Lemma reply_coinsOf g l a : coinsOf (game (reply g l)) a = coinsOf g a.
Proof. apply purse_coinsOf, purse_reply. Qed.

Lemma finishTurn_seats g : seats (game (finishTurn g)) = seats g.
Proof. apply seats_players. by autorewrite with obs. Qed.

Lemma finishTurn_coinsOf g a : coinsOf (game (finishTurn g)) a = coinsOf g a.
Proof. apply purse_coinsOf, purse_finishTurn. Qed.

Lemma revealAndRedraw_coinsOf g playerId r a :
  coinsOf (revealAndRedraw rnd g playerId r).2 a = coinsOf g a.
Proof. apply purse_coinsOf, purse_revealAndRedraw. Qed.

Lemma loseInfluence_coinsOf g playerId cardIndex a :
  coinsOf (loseInfluence g playerId cardIndex).2 a = coinsOf g a.
Proof. apply purse_coinsOf, purse_loseInfluence. Qed.

(** [applySteal] between two different players. *)
Lemma applySteal_coins g a t ca ct :
  a ≠ t → coinsOf g a = Some ca → coinsOf g t = Some ct →
  coinsOf (applySteal g a t) a = Some (ca + Z.min 2 ct)%Z
  ∧ coinsOf (applySteal g a t) t = Some (ct - Z.min 2 ct)%Z
  ∧ ∀ b, b ≠ a → b ≠ t → coinsOf (applySteal g a t) b = coinsOf g b.
Proof.
  intros Hne (ia & actor & Hfa & <-)%find_coinsOf (it & target & Hft & <-)%find_coinsOf.
  pose proof (find_seat_ne g a t ia it actor target Hne Hfa Hft) as Hseat.
  unfold applySteal. rewrite Hfa, Hft.
  set (amt := Z.min 2 (coins target)).
  set (X := alterPlayer it (add_coins (- amt)) g).
  assert (list_find (λ p, p_id p = a) (players X) = Some (ia, actor)) as HfX.
  { subst X. rewrite alterPlayer_players, find_id_alter, Hfa by done. simpl.
    by rewrite decide_False. }
  assert (∀ b, coinsOf (log_push (p_name actor +:+ " steals " +:+ pretty amt
                                    +:+ " coin(s) from " +:+ p_name target +:+ ".")
                          (alterPlayer ia (add_coins amt) X)) b
               = if decide (b = a) then Some (coins actor + amt)%Z
                 else if decide (b = t) then Some (coins target - amt)%Z
                 else coinsOf g b) as E.
  { intros b. rewrite log_push_coinsOf, (coinsOf_add_coins X a b ia actor) by done.
    case_decide; [done|]. subst X. by rewrite (coinsOf_add_coins g t b it target). }
  split_and!.
  - by rewrite E, decide_True.
  - by rewrite E, decide_False, decide_True.
  - intros b Hba Hbt. by rewrite E, !decide_False.
Qed.

End Coins.

#[global] Hint Rewrite log_push_purse log_push_seats log_push_coinsOf set_pendingAction_purse set_pendingAction_seats set_pendingAction_coinsOf beginLoseInfluence_purse beginLoseInfluence_seats beginLoseInfluence_coinsOf set_exchange_purse set_exchange_seats set_exchange_coinsOf set_deck_purse set_deck_seats set_deck_coinsOf set_turnIndex_purse set_turnIndex_seats set_turnIndex_coinsOf nextTurn_purse nextTurn_seats nextTurn_coinsOf purse_reply reply_seats reply_coinsOf purse_finishTurn finishTurn_seats finishTurn_coinsOf purse_revealAndRedraw purse_loseInfluence revealAndRedraw_coinsOf loseInfluence_coinsOf seats_add_coins : obs.


(** ** The viewer projection *)

Section Projection.

Lemma roleName_not_placeholder r : roleName r ≠ "?".
Proof. by destruct r. Qed.

Lemma roleName_inj r1 r2 : roleName r1 = roleName r2 → r1 = r2.
Proof. by destruct r1, r2. Qed.

(** C1. In the state sent to a viewer, a card that is unrevealed and belongs
    to another player shows the placeholder "?" and not its role; a card
    shows its true role exactly when it is revealed or the viewer's own. *)
Theorem projection_hides_unrevealed (g : GameEngine) (viewerId : option string)
    (pi ci : nat) (p : Player) (c : Card) :
  players g !! pi = Some p →
  influence p !! ci = Some c →
  ∃ pv cv,
    sv_players (getStateFor g viewerId).1 !! pi = Some pv
    ∧ pv_id pv = p_id p
    ∧ pv_influence pv !! ci = Some cv
    ∧ cv_revealed cv = revealed c
    ∧ (revealed c = false → viewerId ≠ Some (p_id p) → cv = mkCardView "?" false)
    ∧ (cv_role cv = roleName (role c) ↔ revealed c = true ∨ viewerId = Some (p_id p)).
Proof.
  intros Hp Hc. unfold getStateFor. destruct (currentPlayer g) as [cp g']. simpl.
  exists (viewPlayer g viewerId p),
         (viewCard (bool_decide (Some (p_id p) = viewerId)) c).
  rewrite list_lookup_fmap, Hp. simpl. rewrite list_lookup_fmap, Hc. simpl.
  repeat split; unfold viewCard.
  - destruct (revealed c); [done|]. by case_bool_decide.
  - intros -> Hv. case_bool_decide; [congruence|done].
  - destruct (revealed c); [auto|]. case_bool_decide; [auto|]. simpl.
    intros E. symmetry in E. by apply roleName_not_placeholder in E.
  - intros [-> | ->]; [done|]. case_bool_decide; [|done].
    by destruct (revealed c).
Qed.

(** What the viewer is sent about the other players does not depend on the
    roles they hold unrevealed. *)
Lemma projection_noninterference (g1 g2 : GameEngine) (viewerId : option string) :
  Forall2 (λ p1 p2,
             p_id p1 = p_id p2 ∧ p_name p1 = p_name p2 ∧ coins p1 = coins p2
             ∧ Forall2 (λ c1 c2, revealed c1 = revealed c2
                                 ∧ (revealed c1 = true ∨ Some (p_id p1) = viewerId
                                    → role c1 = role c2))
                 (influence p1) (influence p2))
    (players g1) (players g2) →
  (∀ id, isAlive g1 id = isAlive g2 id) →
  sv_players (getStateFor g1 viewerId).1 = sv_players (getStateFor g2 viewerId).1.
Proof.
  intros H Ha. unfold getStateFor.
  destruct (currentPlayer g1), (currentPlayer g2). simpl.
  induction H as [|p1 p2 l1 l2 (Hi & Hn & Hc & Hf) _ IH]; [done|]. simpl. f_equal; [|done].
  unfold viewPlayer. rewrite Hi, Hn, Hc, Ha. f_equal.
  rewrite <- Hi. clear -Hf.
  induction Hf as [|c1 c2 k1 k2 [Hr Hro] _ IH]; [done|]. simpl. f_equal; [|done].
  unfold viewCard. rewrite <- Hr. destruct (revealed c1).
  - by rewrite Hro by auto.
  - case_bool_decide; [|done]. by rewrite Hro by auto.
Qed.

End Projection.

(** ** Initiation *)

Section Initiation.

(** C4. An actor holding ten coins or more who initiates anything but a coup
    changes no field of the state except the log, which gains the refusal. *)
Theorem mandatory_coup_is_noop (g : GameEngine) (actorId actionType : string)
    (targetId : option string) (actor : Player) :
  getPlayer g actorId = Some actor →
  (10 ≤ coins actor)%Z →
  actionType ≠ "coup" →
  turnSettled g →
  let g' := game (resolveAction g actorId actionType targetId) in
  sameButLog g g'
  ∧ log g' = log g ++ [p_name actor +:+ " has 10+ coins and must Coup."].
Proof.
  intros Ha Hc Ht Hs g'. subst g'.
  apply getPlayer_find in Ha as [ia Ha]. unfold resolveAction. rewrite Ha.
  rewrite !bool_decide_eq_true_2 by done. simpl.
  rewrite reply_of_settled; [done|].
  by apply (turnSettled_blind (log_push _)).
Qed.

(** The rule does not depend on the state being settled for anything but
    [turnIndex]: no coin moves and nothing becomes pending. *)
Lemma mandatory_coup_keeps_table (g : GameEngine) (actorId actionType : string)
    (targetId : option string) (actor : Player) :
  getPlayer g actorId = Some actor →
  (10 ≤ coins actor)%Z →
  actionType ≠ "coup" →
  let g' := game (resolveAction g actorId actionType targetId) in
  players g' = players g ∧ deck g' = deck g ∧ pendingAction g' = pendingAction g
  ∧ gameOver g' = gameOver g ∧ winnerId g' = winnerId g ∧ exchange g' = exchange g.
Proof.
  intros Ha Hc Ht g'. subst g'.
  apply getPlayer_find in Ha as [ia Ha]. unfold resolveAction. rewrite Ha.
  rewrite !bool_decide_eq_true_2 by done. simpl.
  by rewrite reply_players, reply_deck, reply_pendingAction, reply_gameOver,
    reply_winnerId, reply_exchange.
Qed.

(** C9. A coup aimed at the actor is accepted: seven coins are paid and the
    actor is the one who must lose an influence. Assassinate and steal refuse
    the same target and leave players and pending action as they were. *)
Theorem coup_accepts_self_target (g : GameEngine) (actorId : string) (actor : Player) :
  getPlayer g actorId = Some actor →
  isAlive g actorId = true →
  (7 ≤ coins actor)%Z →
  let g' := game (resolveAction g actorId "coup" (Some actorId)) in
  pendingAction g' = Some (loseInfluence_awaitingChoice actorId "coup" endTurn)
  ∧ coinsOf g' actorId = Some (coins actor - 7)%Z
  ∧ ∀ actionType, actionType = "assassinate" ∨ actionType = "steal" →
      let g'' := game (resolveAction g actorId actionType (Some actorId)) in
      players g'' = players g ∧ pendingAction g'' = pendingAction g.
Proof.
  intros Ha Hl Hc g'. subst g'.
  pose proof Ha as [ia Hf]%getPlayer_find.
  pose proof (find_getPlayer _ _ _ _ Hf) as (_ & _ & Hid).
  split; [|split].
  - unfold resolveAction. rewrite Hf. simpl. rewrite Ha, Hid, Hl. simpl.
    rewrite bool_decide_eq_false_2 by lia.
    by rewrite reply_pendingAction.
  - unfold resolveAction. rewrite Hf. simpl. rewrite Ha, Hid, Hl. simpl.
    rewrite bool_decide_eq_false_2 by lia.
    unfold coinsOf, getPlayer. rewrite reply_players. simpl.
    rewrite find_id_alter by done. rewrite Hf. simpl.
    rewrite decide_True by done. simpl. f_equal; lia.
  - intros actionType H g''. subst g''.
    destruct H as [-> | ->]; unfold resolveAction; rewrite Hf; simpl;
      (destruct (bool_decide (10 ≤ coins actor)%Z); simpl;
       [by rewrite reply_players, reply_pendingAction|]);
      rewrite Ha, Hid, Hl; simpl; rewrite bool_decide_eq_true_2 by done;
      by rewrite reply_players, reply_pendingAction.
Qed.

End Initiation.
(** ** More of the engine *)

Section EngineBehaviour.

Variable rnd : nat → nat.

Lemma shuffleFrom_calls {A} i (arr : list A) t : (shuffleFrom rnd i arr t).2 = t + i.
Proof.
  revert arr t. induction i as [|i IH]; intros arr t; simpl; [lia|]. rewrite IH. lia.
Qed.

(** X1. [shuffle] returns the cards it was given, in some order, and draws
    one random number for each position but the first. *)
Theorem shuffle_keeps_the_cards {A} (arr : list A) (t : nat) :
  (shuffle rnd arr t).1 ≡ₚ arr
  ∧ length (shuffle rnd arr t).1 = length arr
  ∧ (shuffle rnd arr t).2 = t + (length arr - 1).
Proof.
  split_and!; [apply shuffle_perm|by rewrite shuffle_perm|apply shuffleFrom_calls].
Qed.

(** X2. [makeDeck] makes fifteen cards, three of each of the five roles,
    whatever the random numbers. *)
Theorem makeDeck_has_three_of_each (t : nat) (r : Role) :
  (makeDeck rnd t).1 ≡ₚ fullDeck
  ∧ length (makeDeck rnd t).1 = 15
  ∧ copies r (makeDeck rnd t).1 = 3.
Proof.
  pose proof (makeDeck_perm rnd t) as H. split_and!; [done|by rewrite H|].
  unfold copies. rewrite H. by destruct r.
Qed.

(** X3. [draw] always returns a card and changes nothing but the deck: from
    a deck with cards it takes the last one, with no random number drawn;
    from the empty deck it first makes a new deck of fifteen, of which
    fourteen are left. *)
Theorem draw_always_returns_a_card (g : GameEngine) :
  ∃ r d t,
    draw rnd g = (r, set_deck d t g)
    ∧ (deck g ≠ [] → deck g = d ++ [r] ∧ t = randomCalls g)
    ∧ (deck g = [] → r :: d ≡ₚ fullDeck ∧ length d = 14).
Proof.
  destruct (decide (deck g = [])) as [He|Hne].
  - destruct (draw_empty rnd g He) as (r & d & t & Hp & E). exists r, d, t.
    split_and!; [done|done|]. intros _. split; [done|].
    apply Permutation_length in Hp. simpl in Hp. lia.
  - destruct (draw_nonempty rnd g Hne) as (r & d & Hd & E). exists r, d, (randomCalls g).
    split_and!; [done|done|done].
Qed.

(** X4. [returnToDeck] leaves a deck that holds the returned roles and the
    cards it held, and changes nothing but the deck. *)
Theorem returnToDeck_adds_the_roles (roles : list Role) (g : GameEngine) :
  ∃ d t,
    returnToDeck rnd roles g = set_deck d t g
    ∧ d ≡ₚ roles ++ deck g
    ∧ length d = length roles + length (deck g).
Proof.
  destruct (returnToDeck_spec rnd roles g) as (d & t & E & Hd). exists d, t.
  split_and!; [done..|]. by rewrite Hd, length_app.
Qed.

(** X5. [checkWin] ends the game exactly when it is not over and one player
    is left alive, whom it names the winner; a game that is over it leaves
    alone, and it never touches players, deck or pending action. *)
Theorem checkWin_declares_the_last_player (g : GameEngine) :
  (gameOver (checkWin g) = true ↔ gameOver g = true ∨ length (alivePlayers g) = 1)
  ∧ (gameOver g = true → checkWin g = g)
  ∧ (∀ p, gameOver g = false → alivePlayers g = [p] →
       winnerId (checkWin g) = Some (p_id p)
       ∧ log (checkWin g) = log g ++ [p_name p +:+ " wins!"])
  ∧ (length (alivePlayers g) ≠ 1 → checkWin g = g)
  ∧ players (checkWin g) = players g ∧ deck (checkWin g) = deck g
  ∧ pendingAction (checkWin g) = pendingAction g.
Proof.
  unfold checkWin. destruct (gameOver g) eqn:Ho.
  { split_and!; try done. split; [by left|by intros _]. }
  destruct (alivePlayers g) as [|p [|q l]] eqn:Ea; simpl.
  - split_and!; try done. rewrite Ho. split; [done|by intros [?|?]].
  - split_and!; try done; [split; [by right|done]|by intros q _ [= ->]].
  - split_and!; try done. rewrite Ho. split; [done|]. intros [?|?]; [done|lia].
Qed.

(** X6. [revealAndRedraw] succeeds exactly when [playerHasRole] says the
    player holds the role unrevealed; when it fails the state is untouched. *)
Theorem revealAndRedraw_succeeds_iff_role_held (g : GameEngine) (playerId : string)
    (r : Role) :
  (revealAndRedraw rnd g playerId r).1 = playerHasRole g playerId r
  ∧ (playerHasRole g playerId r = false → (revealAndRedraw rnd g playerId r).2 = g).
Proof.
  unfold revealAndRedraw, playerHasRole, getPlayer, findRole.
  destruct (list_find _ (players g)) as [[pi p]|]; simpl; [|done].
  destruct (list_find _ (influence p)) as [[idx c]|] eqn:E; simpl.
  - apply list_find_Some in E as (Hc & [Hu Hr] & _).
    assert (existsb (λ c, unrevealed c && bool_decide (role c = r)) (influence p) = true)
      as ->.
    { apply existsb_exists. exists c. split.
      - apply list_elem_of_In. by eapply list_elem_of_lookup_2.
      - unfold unrevealed. rewrite Hu. simpl. by apply bool_decide_eq_true. }
    split; [|done]. by destruct (draw rnd _).
  - assert (existsb (λ c, unrevealed c && bool_decide (role c = r)) (influence p) = false)
      as ->; [|done].
    apply not_true_iff_false. intros (c & Hin & Hc)%existsb_exists.
    apply andb_true_iff in Hc as [Hu Hr]. apply bool_decide_eq_true in Hr.
    apply negb_true_iff in Hu. apply list_elem_of_In in Hin.
    destruct (list_find_elem_of (λ c, revealed c = false ∧ role c = r) (influence p) c)
      as [x Hx]; [done..|]. congruence.
Qed.

(** X7. [loseInfluence] succeeds exactly when the player exists and
    [cardIndex] is the position of one of their unrevealed cards; it then
    flags that card and no other, and moves no coin and no card. When it
    fails (unknown player, no index, index past the hand, card already
    revealed) the state is untouched. *)
Theorem loseInfluence_reveals_one_card (g : GameEngine) (playerId : string)
    (cardIndex : option nat) :
  ((loseInfluence g playerId cardIndex).1 = true
   ↔ ∃ p i c, getPlayer g playerId = Some p ∧ cardIndex = Some i
              ∧ influence p !! i = Some c ∧ revealed c = false)
  ∧ ((loseInfluence g playerId cardIndex).1 = false →
     (loseInfluence g playerId cardIndex).2 = g)
  ∧ (∀ pi p i,
       list_find (λ p, p_id p = playerId) (players g) = Some (pi, p) →
       cardIndex = Some i →
       (loseInfluence g playerId cardIndex).1 = true →
       hands (loseInfluence g playerId cardIndex).2 = alter (alter reveal i) pi (hands g)
       ∧ purse (loseInfluence g playerId cardIndex).2 = purse g
       ∧ deck (loseInfluence g playerId cardIndex).2 = deck g).
Proof.
  unfold loseInfluence, getPlayer.
  destruct (list_find _ (players g)) as [[pi p]|] eqn:Hf; simpl.
  2:{ split_and!; [|done|done]. split; [done|]. by intros (? & ? & ? & ? & _). }
  destruct cardIndex as [i|]; simpl.
  2:{ split_and!; [|done|done]. split; [done|]. by intros (? & ? & ? & _ & ? & _). }
  destruct (influence p !! i) as [c|] eqn:Hc; simpl.
  2:{ split_and!; [|done|done]. split; [done|].
      intros (? & ? & ? & [= <-] & [= <-] & ? & _). congruence. }
  destruct (revealed c) eqn:Hr; simpl.
  { split_and!; [|done|done]. split; [done|].
    intros (? & ? & ? & [= <-] & [= <-] & ? & ?). congruence. }
  split_and!; [|done|].
  - split; [|done]. intros _. by exists p, i, c.
  - intros ? ? ? [= <- <-] [= <-] _.
    set (g1 := log_push _ _).
    assert (players (checkWin g1) = players g1 ∧ deck (checkWin g1) = deck g1) as [Hp Hd].
    { unfold checkWin. destruct (gameOver g1); [done|].
      by destruct (alivePlayers g1) as [|? [|? ?]]. }
    split_and!.
    + unfold hands. rewrite Hp. subst g1. simpl. by apply fmap_alter.
    + unfold purse. rewrite Hp. subst g1. simpl.
      rewrite fmap_alter with (f' := id); [apply list_alter_id; done|done].
    + by rewrite Hd.
Qed.

(** X8. [currentPlayer] returns nobody exactly when the game is over or no
    player is alive. Otherwise it returns a living player and leaves
    [turnIndex] on that player's seat, changing nothing else; a second call
    returns the same player and moves nothing. *)
Theorem currentPlayer_finds_a_living_player (g : GameEngine) :
  ((currentPlayer g).1 = None ↔ gameOver g = true ∨ alivePlayers g = [])
  ∧ (∃ i, (currentPlayer g).2 = set_turnIndex i g)
  ∧ (∀ q, (currentPlayer g).1 = Some q →
       isAlive g (p_id q) = true
       ∧ players g !! (turnIndex (currentPlayer g).2 mod length (players g)) = Some q)
  ∧ currentPlayer (currentPlayer g).2 = currentPlayer g.
Proof.
  destruct (currentPlayer_cases g) as [[E Hn]|(q & i & E & Ho & Hal & Hq & Hqa)].
  - rewrite E. simpl. split_and!; [|by exists (turnIndex g); rewrite set_turnIndex_same|done|done].
    split; [|done]. intros _. destruct Hn as [?|Hl]; [by left|right].
    by destruct (alivePlayers g).
  - rewrite E. simpl. split_and!.
    + split; [done|]. intros [?|Hl]; [congruence|]. by rewrite Hl in Hal.
    + by exists i.
    + by intros ? [= <-].
    + unfold currentPlayer at 1. simpl. rewrite Ho.
      rewrite (alivePlayers_players _ g) by done. rewrite decide_False by done.
      destruct (length (players g)) as [|n] eqn:En.
      { apply lookup_lt_Some in Hq. lia. }
      simpl. rewrite En, Hq.
      rewrite (isAlive_players _ g) by done. by rewrite Hqa.
Qed.

Lemma currentPlayerLoop_here k g p :
  players g !! (turnIndex g mod length (players g)) = Some p →
  isAlive g (p_id p) = true →
  currentPlayerLoop (S k) g = (Some p, g).
Proof. intros Hp Ha. cbn [currentPlayerLoop]. by rewrite Hp, Ha. Qed.

Lemma aliveAt_set_turnIndex i g j : aliveAt (set_turnIndex i g) j = aliveAt g j.
Proof. done. Qed.

Lemma nextTurnLoop_spec k g :
  (∃ j, 1 ≤ j ≤ k ∧ aliveAt g (turnIndex g + j) = true) →
  ∃ j, 1 ≤ j ≤ k
       ∧ nextTurnLoop k g = set_turnIndex ((turnIndex g + j) mod length (players g)) g
       ∧ aliveAt g (turnIndex g + j) = true
       ∧ ∀ j', 1 ≤ j' < j → aliveAt g (turnIndex g + j') = false.
Proof.
  revert g. induction k as [|k IH]; intros g (j0 & Hj0 & Ha0); [lia|]. simpl.
  set (n := length (players g)) in *.
  destruct (aliveAt g (turnIndex g + 1)) eqn:H1.
  - exists 1. split; [lia|]. split; [|split; [done|intros; lia]].
    unfold aliveAt in H1. fold n in H1.
    destruct (players g !! ((turnIndex g + 1) mod n)) as [p|]; [|done].
    by rewrite (isAlive_players _ g), H1.
  - assert (j0 ≠ 1) as Hne by (intros ->; congruence).
    set (g1 := set_turnIndex ((turnIndex g + 1) mod n) g).
    assert (∀ j, aliveAt g1 (turnIndex g1 + j) = aliveAt g (turnIndex g + (1 + j))) as Hshift.
    { intros j.
      assert (((turnIndex g + 1) mod n + j) mod n = (turnIndex g + (1 + j)) mod n) as Em.
      { rewrite Nat.Div0.add_mod_idemp_l. f_equal. lia. }
      unfold aliveAt. subst g1.
      change (players (set_turnIndex ((turnIndex g + 1) mod n) g)) with (players g).
      change (turnIndex (set_turnIndex ((turnIndex g + 1) mod n) g))
        with ((turnIndex g + 1) mod n).
      fold n. by rewrite Em. }
    destruct (IH g1) as (j & Hj & E & Ha & Hmin).
    { exists (j0 - 1). split; [lia|]. rewrite Hshift. by replace (1 + (j0 - 1)) with j0 by lia. }
    assert (nextTurnLoop k g1 = set_turnIndex ((turnIndex g + (1 + j)) mod n) g) as E'.
    { rewrite E. subst g1.
      change (players (set_turnIndex ((turnIndex g + 1) mod n) g)) with (players g).
      change (turnIndex (set_turnIndex ((turnIndex g + 1) mod n) g))
        with ((turnIndex g + 1) mod n).
      fold n. rewrite Nat.Div0.add_mod_idemp_l.
      replace (turnIndex g + 1 + j) with (turnIndex g + (1 + j)) by lia. done. }
    exists (1 + j). split; [lia|]. split; [|split; [by rewrite <- Hshift|]].
    + unfold aliveAt in H1. fold n in H1.
      destruct (players g !! ((turnIndex g + 1) mod n)) as [p|] eqn:Hp.
      * by rewrite (isAlive_players _ g), H1.
      * (* the seat exists: some seat does *)
        exfalso. unfold aliveAt in Ha0. fold n in Ha0.
        destruct (players g !! ((turnIndex g + j0) mod n)) as [q|] eqn:Hq; [|done].
        apply lookup_lt_Some in Hq. apply lookup_ge_None in Hp. fold n in Hp, Hq.
        pose proof (Nat.mod_upper_bound (turnIndex g + 1) n). lia.
    + intros j' Hj'. destruct (decide (j' = 1)) as [->|]; [done|].
      replace j' with (1 + (j' - 1)) by lia. rewrite <- Hshift. apply Hmin. lia.
Qed.

(** X9. [nextTurn], when the game goes on and somebody is alive, gives the
    turn to the first living player after the one whose turn it was, going
    round the table past the eliminated ones, and logs whose turn it is; it
    changes nothing else. When [checkWin] ends the game (or it was over) the
    turn does not move. *)
Theorem nextTurn_passes_to_next_living_player (g : GameEngine) :
  gameOver (checkWin g) = false → alivePlayers g ≠ [] →
  ∃ k q,
    1 ≤ k ≤ length (players g)
    ∧ players g !! ((turnIndex g + k) mod length (players g)) = Some q
    ∧ isAlive g (p_id q) = true
    ∧ (∀ j, 1 ≤ j < k → aliveAt g (turnIndex g + j) = false)
    ∧ nextTurn g
      = log_push ("It is now " +:+ p_name q +:+ "'s turn.")
          (set_turnIndex ((turnIndex g + k) mod length (players g)) g).
Proof.
  intros Ho Hal.
  assert (checkWin g = g ∧ gameOver g = false) as [Ec Hog].
  { unfold checkWin in *. destruct (gameOver g) eqn:Hg; [congruence|].
    by destruct (alivePlayers g) as [|p [|q l]]. }
  set (n := length (players g)).
  destruct (alivePlayers_seat g) as (i & p & Hi & Ha).
  { by destruct (alivePlayers g). }
  destruct (seat_offset (turnIndex g + 1) i n) as (j0 & Hj0 & Ej0).
  { by apply lookup_lt_Some in Hi. }
  destruct (nextTurnLoop_spec n g) as (k & Hk & E & Hka & Hmin).
  { exists (1 + j0). split; [lia|]. unfold aliveAt. fold n.
    by rewrite Nat.add_assoc, Ej0, Hi. }
  unfold aliveAt in Hka. fold n in Hka.
  destruct (players g !! ((turnIndex g + k) mod n)) as [q|] eqn:Hq; [|done].
  exists k, q. split; [done|]. split_and!; [done..|].
  unfold nextTurn. rewrite Ec, Hog. fold n. rewrite E. fold n.
  set (g2 := set_turnIndex ((turnIndex g + k) mod n) g).
  assert (currentPlayer g2 = (Some q, g2)) as ->; [|done].
  unfold currentPlayer. simpl. rewrite Hog.
  rewrite (alivePlayers_players g2 g) by done.
  rewrite decide_False by (by destruct (alivePlayers g)).
  assert (∃ m, length (players g) = S m) as [m Hm].
  { apply lookup_lt_Some in Hq. exists (pred n). subst n. lia. }
  replace (currentPlayerLoop (length (players g)) g2)
    with (currentPlayerLoop (S m) g2) by (by rewrite Hm).
  apply currentPlayerLoop_here; [|by rewrite (isAlive_players _ g)].
  subst g2. cbn [players turnIndex set_turnIndex]. fold n.
  by rewrite Nat.Div0.mod_mod.
Qed.

End EngineBehaviour.

Lemma currentPlayer_nobody g : players g = [] → currentPlayer g = (None, g).
Proof.
  intros E. unfold currentPlayer. destruct (gameOver g); [done|].
  unfold alivePlayers. rewrite E. by rewrite decide_True.
Qed.

Lemma currentPlayer_first g p :
  gameOver g = false → turnIndex g = 0 → players g !! 0 = Some p →
  isAlive g (p_id p) = true →
  currentPlayer g = (Some p, g).
Proof.
  intros Ho Ht Hp Ha. unfold currentPlayer. rewrite Ho.
  destruct (players g) as [|p0 pl] eqn:E; [done|]. injection Hp as ->.
  rewrite decide_False.
  2:{ unfold alivePlayers. rewrite E, filter_cons_True; [done|]. simpl. by rewrite Ha. }
  rewrite <- E. replace (length (players g)) with (S (length pl)) by (by rewrite E).
  apply currentPlayerLoop_here; [|done].
  rewrite Ht, E. by rewrite Nat.Div0.mod_0_l.
Qed.

(** ** A game that is over stays over *)

Section GameOver.

Variable rnd : nat → nat.

Lemma over_refl g : overKept g g.
Proof. by intros ?. Qed.

Lemma over_trans g1 g2 g3 : overKept g1 g2 → overKept g2 g3 → overKept g1 g3.
Proof.
  intros H1 H2 Ho. destruct (H1 Ho) as [Ho2 Hw2]. destruct (H2 Ho2) as [Ho3 Hw3].
  split; [done|congruence].
Qed.

Lemma over_same g g' :
  gameOver g' = gameOver g → winnerId g' = winnerId g → overKept g g'.
Proof. intros Ho Hw H. by rewrite Ho, Hw. Qed.

Lemma over_step g0 g g' : overKept g g' → overKept g0 g → overKept g0 g'.
Proof. intros H1 H2. by eapply over_trans. Qed.

Lemma checkWin_over g : overKept g (checkWin g).
Proof. intros Ho. unfold checkWin. by rewrite Ho. Qed.

Lemma currentPlayer_over g : overKept g (currentPlayer g).2.
Proof. destruct (currentPlayer_frame g) as [i ->]. by apply over_same. Qed.

Lemma nextTurn_over g : overKept g (nextTurn g).
Proof.
  intros Ho. unfold nextTurn. destruct (checkWin_over g Ho) as [Ho1 Hw1].
  by rewrite Ho1.
Qed.

Lemma reply_over g l : overKept g (game (reply g l)).
Proof. apply over_same; [apply reply_gameOver|apply reply_winnerId]. Qed.

Lemma finishTurn_over g : overKept g (game (finishTurn g)).
Proof.
  unfold finishTurn. eapply over_trans; [|apply reply_over].
  eapply over_trans; [|apply nextTurn_over]. by apply over_same.
Qed.

Lemma draw_over g : overKept g (draw rnd g).2.
Proof. destruct (draw_pops rnd g) as (r & d & t & -> & _). by apply over_same. Qed.

Lemma returnToDeck_over roles g : overKept g (returnToDeck rnd roles g).
Proof. destruct (returnToDeck_spec rnd roles g) as (d & t & -> & _). by apply over_same. Qed.

Lemma revealAndRedraw_over g playerId r : overKept g (revealAndRedraw rnd g playerId r).2.
Proof.
  unfold revealAndRedraw.
  destruct (list_find _ _) as [[pi p]|]; [|apply over_refl].
  destruct (findRole r (influence p)) as [idx|]; [|apply over_refl].
  set (g1 := log_push _ (alterPlayer pi _ g)).
  destruct (returnToDeck_spec rnd [r] g1) as (d & t & -> & _).
  destruct (draw_pops rnd (set_deck d t g1)) as (r' & d' & t' & -> & _).
  by apply over_same.
Qed.

Lemma loseInfluence_over g playerId cardIndex :
  overKept g (loseInfluence g playerId cardIndex).2.
Proof.
  unfold loseInfluence.
  destruct (list_find _ _) as [[pi p]|]; [|apply over_refl].
  destruct (cardIndex ≫= _) as [[i c]|]; [|apply over_refl].
  destruct (revealed c); [apply over_refl|]. simpl.
  eapply over_trans; [|apply checkWin_over]. by apply over_same.
Qed.

Lemma applySteal_over g a t : overKept g (applySteal g a t).
Proof.
  unfold applySteal. destruct (list_find _ _) as [[ia actor]|]; [|apply over_refl].
  destruct (list_find _ _) as [[it target]|]; [|apply over_refl]. by apply over_same.
Qed.

Lemma ov_reply g0 g l : overKept g0 g → overKept g0 (game (reply g l)).
Proof. apply over_step, reply_over. Qed.

Lemma ov_finishTurn g0 g : overKept g0 g → overKept g0 (game (finishTurn g)).
Proof. apply over_step, finishTurn_over. Qed.

Lemma ov_log_push g0 g s : overKept g0 g → overKept g0 (log_push s g).
Proof. apply over_step. by apply over_same. Qed.

Lemma ov_set_pendingAction g0 g pa : overKept g0 g → overKept g0 (set_pendingAction pa g).
Proof. apply over_step. by apply over_same. Qed.

Lemma ov_beginLoseInfluence g0 g p r c :
  overKept g0 g → overKept g0 (beginLoseInfluence g p r c).
Proof. apply over_step. by apply over_same. Qed.

Lemma ov_set_exchange g0 g f : overKept g0 g → overKept g0 (set_exchange f g).
Proof. apply over_step. by apply over_same. Qed.

Lemma ov_set_deck g0 g d t : overKept g0 g → overKept g0 (set_deck d t g).
Proof. apply over_step. by apply over_same. Qed.

Lemma ov_alterPlayer g0 g i f : overKept g0 g → overKept g0 (alterPlayer i f g).
Proof. apply over_step. by apply over_same. Qed.

Lemma ov_applySteal g0 g a t : overKept g0 g → overKept g0 (applySteal g a t).
Proof. apply over_step, applySteal_over. Qed.

Lemma ov_revealAndRedraw g0 g p r :
  overKept g0 g → overKept g0 (revealAndRedraw rnd g p r).2.
Proof. apply over_step, revealAndRedraw_over. Qed.

Lemma ov_loseInfluence g0 g p i b g' :
  loseInfluence g p i = (b, g') → overKept g0 g → overKept g0 g'.
Proof.
  intros E. apply over_step. pose proof (loseInfluence_over g p i) as H. by rewrite E in H.
Qed.

Lemma ov_draw g0 g r g' : draw rnd g = (r, g') → overKept g0 g → overKept g0 g'.
Proof. intros E. apply over_step. pose proof (draw_over g) as H. by rewrite E in H. Qed.

Lemma ov_returnToDeck g0 g roles : overKept g0 g → overKept g0 (returnToDeck rnd roles g).
Proof. apply over_step, returnToDeck_over. Qed.

End GameOver.

#[export] Hint Resolve over_refl ov_reply ov_finishTurn ov_log_push ov_set_pendingAction
  ov_beginLoseInfluence ov_set_exchange ov_set_deck ov_alterPlayer ov_applySteal
  ov_revealAndRedraw ov_loseInfluence ov_draw ov_returnToDeck : over.

Section GameOverOfCalls.

Variable rnd : nat → nat.

Lemma over_startExchangeChoice g0 g a :
  overKept g0 g → overKept g0 (game (startExchangeChoice rnd g a)).
Proof. intros H. unfold startExchangeChoice. split_cases; eauto 20 with over. Qed.

Lemma over_continue g0 g cont :
  overKept g0 g → overKept g0 (game (continueAfterLoseInfluence rnd g cont)).
Proof.
  intros H. unfold continueAfterLoseInfluence.
  split_cases; eauto 20 using over_startExchangeChoice with over.
Qed.

Lemma over_resolveAction g actorId actionType targetId :
  overKept g (game (resolveAction g actorId actionType targetId)).
Proof. unfold resolveAction. split_light; eauto 20 with over. Qed.

Lemma over_respondExchangeChoice g a playerId responseType payload :
  overKept g (game (respondExchangeChoice rnd g a playerId responseType payload)).
Proof. unfold respondExchangeChoice. split_cases; eauto 20 with over. Qed.

Lemma over_handleResponse g playerId responseType payload r :
  handleResponse rnd g playerId responseType payload = Ok r → overKept g (game r).
Proof.
  intros H. by_blocks H;
    eauto 20 using over_startExchangeChoice, over_continue,
      over_respondExchangeChoice with over.
Qed.

Lemma over_operation g g' : operation rnd g g' → overKept g g'.
Proof.
  destruct 1 as [g a ty t|g pid ty pl r Hr|g pid r|g pid ci|g|g rs|g|g|g|g v].
  - apply over_resolveAction.
  - by eapply over_handleResponse.
  - apply revealAndRedraw_over.
  - apply loseInfluence_over.
  - apply draw_over.
  - apply returnToDeck_over.
  - apply nextTurn_over.
  - apply checkWin_over.
  - apply currentPlayer_over.
  - rewrite getStateFor_game. apply currentPlayer_over.
Qed.

(** X24. A game that is over stays over, with the winner it has: no
    operation of the engine or of the resolver clears [gameOver] or changes
    [winnerId] once the game has ended. *)
Theorem game_over_is_final (g g' : GameEngine) :
  rtc (operation rnd) g g' →
  gameOver g = true →
  gameOver g' = true ∧ winnerId g' = winnerId g.
Proof.
  induction 1 as [g|g g1 g2 Hop _ IH]; intros Ho; [done|].
  destruct (over_operation g g1 Hop Ho) as [Ho1 Hw1].
  destruct (IH Ho1) as [Ho2 Hw2]. split; [done|congruence].
Qed.

End GameOverOfCalls.
(** ** More of the resolver *)

Section ResolverBehaviour.

Variable rnd : nat → nat.

Lemma own_None_iff {V} k (o : JsObject.t V) : JsObject.own k o = None ↔ k ∉ o.*1.
Proof.
  split; [apply own_None_keys|]. intros Hk.
  destruct (JsObject.own k o) as [v|] eqn:E; [|done].
  apply own_Some_elem_of in E. destruct Hk. apply list_elem_of_fmap. by exists (k, v).
Qed.

Lemma initResponders_from (g : GameEngine) (x : string) (ps : list Player) (rs : Responders) :
  NoDup (p_id <$> ps) → Forall (λ p, p_id p ≠ "__proto__") ps →
  (∀ p, p ∈ ps → p_id p ∉ rs.*1) →
  Forall (λ e, e.2 = Pending) rs →
  let rs' := foldl (λ responders p,
                      if decide (p_id p = x) then responders
                      else if negb (isAlive g (p_id p)) then responders
                      else JsObject.set (p_id p) Pending responders) rs ps in
  rs'.*1 = rs.*1 ++ filter (λ id, id ≠ x ∧ isAlive g id = true) (p_id <$> ps)
  ∧ Forall (λ e, e.2 = Pending) rs'.
Proof.
  revert rs. induction ps as [|p ps IH]; intros rs Hn Hp Hfresh Hm.
  { simpl. by rewrite app_nil_r. }
  rewrite fmap_cons in Hn.
  apply NoDup_cons in Hn as [Hpn Hn]. apply Forall_cons in Hp as [Hpp Hp].
  cbn [foldl]. rewrite fmap_cons, filter_cons. case_decide as Hx.
  - rewrite decide_False by tauto. apply IH; [done..| |done].
    intros q Hq. apply Hfresh. by right.
  - destruct (isAlive g (p_id p)) eqn:Ha; simpl.
    + rewrite decide_True by done.
      assert (JsObject.own (p_id p) rs = None) as Hown.
      { apply own_None_iff, Hfresh. by left. }
      assert ((JsObject.set (p_id p) Pending rs).*1 = rs.*1 ++ [p_id p]) as Hk.
      { unfold JsObject.set. rewrite decide_False by done. by rewrite put_keys, Hown. }
      destruct (IH (JsObject.set (p_id p) Pending rs)) as [Ek Em]; [done..| | |].
      * intros q Hq. rewrite Hk. intros [Hin|Heq%list_elem_of_singleton]%elem_of_app.
        -- eapply Hfresh; [by right|done].
        -- apply Hpn. rewrite <- Heq. by apply list_elem_of_fmap_2.
      * unfold JsObject.set. rewrite decide_False by done. by apply put_Forall.
      * split; [|done]. by rewrite Ek, Hk, <- app_assoc.
    + rewrite decide_False by (intros [_ ?]; congruence).
      apply IH; [done..| |done]. intros q Hq. apply Hfresh. by right.
Qed.

(** X10. [initResponders], for players with distinct ids none of which is
    ["__proto__"], lists exactly the living players other than the excluded
    one, in seat order, each marked "pending". *)
Theorem initResponders_lists_living_others (g : GameEngine) (excludeId : string) :
  NoDup (ids g) → Forall (λ id, id ≠ "__proto__") (ids g) →
  (initResponders g excludeId).*1
  = filter (λ id, id ≠ excludeId ∧ isAlive g id = true) (ids g)
  ∧ Forall (λ e, e.2 = Pending) (initResponders g excludeId).
Proof.
  intros Hn Hp. unfold initResponders, ids in *.
  destruct (initResponders_from g excludeId (players g) []) as [Ek Em].
  - done.
  - rewrite Forall_forall in Hp. apply Forall_forall. intros p Hin.
    by apply Hp, list_elem_of_fmap_2.
  - intros p _. apply not_elem_of_nil.
  - constructor.
  - done.
Qed.

(** X11. [everyonePassed] holds exactly when every entry is "passed"; it
    holds of the empty object. *)
Theorem everyonePassed_iff_all_passed (rs : Responders) :
  (everyonePassed rs = true ↔ ∀ k m, (k, m) ∈ rs → m = Passed)
  ∧ everyonePassed [] = true.
Proof.
  split; [|done]. rewrite everyonePassed_Forall, Forall_forall. split.
  - intros H k m Hin. by apply H in Hin.
  - intros H [k m] Hin. simpl. eauto.
Qed.

(** X12. [firstChallenger] returns nobody exactly when no entry is
    "challenged", and otherwise a key whose entry is "challenged". *)
Theorem firstChallenger_finds_a_challenge (rs : Responders) :
  (firstChallenger rs = None ↔ ∀ k m, (k, m) ∈ rs → m ≠ Challenged)
  ∧ (∀ k, firstChallenger rs = Some k → (k, Challenged) ∈ rs).
Proof.
  split; [|apply firstChallenger_Some]. split.
  - intros H%firstChallenger_None k m Hin.
    unfold noChallenge in H. rewrite Forall_forall in H. by apply H in Hin.
  - intros H. destruct (firstChallenger rs) as [k|] eqn:E; [|done].
    apply firstChallenger_Some in E. by apply H in E.
Qed.

Lemma sum_alter (l : list Z) i x (f : Z → Z) :
  l !! i = Some x →
  foldr Z.add 0%Z (alter f i l) = (foldr Z.add 0 l - x + f x)%Z.
Proof.
  revert i. induction l as [|y l IH]; intros [|i] H; simplify_eq/=; [lia|].
  rewrite (IH i) by done. lia.
Qed.

Lemma totalCoins_add_coins g i p n :
  players g !! i = Some p →
  totalCoins (alterPlayer i (add_coins n) g) = (totalCoins g + n)%Z.
Proof.
  intros Hp. unfold totalCoins. rewrite alterPlayer_players.
  rewrite (fmap_alter coins _ (λ c, c + n)%Z) by done.
  rewrite (sum_alter _ i (coins p)) by (by rewrite list_lookup_fmap, Hp). lia.
Qed.

(** X13. [applySteal] neither makes nor loses coins, whoever the two
    players are (the same one included), and does nothing when either is
    missing. *)
Theorem applySteal_conserves_coins (g : GameEngine) (actorId targetId : string) :
  totalCoins (applySteal g actorId targetId) = totalCoins g
  ∧ (getPlayer g actorId = None ∨ getPlayer g targetId = None →
     applySteal g actorId targetId = g).
Proof.
  unfold applySteal, getPlayer.
  destruct (list_find (λ p, p_id p = actorId) (players g)) as [[ia actor]|] eqn:Ha; simpl.
  2:{ split; [done|]. done. }
  destruct (list_find (λ p, p_id p = targetId) (players g)) as [[it target]|] eqn:Ht; simpl.
  2:{ split; [done|]. done. }
  split; [|by intros [?|?]].
  apply list_find_Some in Ha as (Hia & _), Ht as (Hit & _).
  change (totalCoins (log_push ?s ?X)) with (totalCoins X).
  set (amt := Z.min 2 (coins target)).
  destruct (lookup_lt_is_Some_2 (players (alterPlayer it (add_coins (- amt)) g)) ia)
    as [q Hq].
  { rewrite alterPlayer_players, length_alter. by eapply lookup_lt_Some. }
  rewrite (totalCoins_add_coins _ ia q) by done.
  rewrite (totalCoins_add_coins _ it target) by done. lia.
Qed.

End ResolverBehaviour.
(** ** Coins: nobody goes into debt *)

Section Solvent.

Lemma solvent_iff_purse g : solvent g ↔ Forall (λ e : string * Z, (0 ≤ e.2)%Z) (purse g).
Proof. unfold solvent, purse. by rewrite Forall_fmap. Qed.

Lemma solvent_purse g g' : purse g' = purse g → solvent g → solvent g'.
Proof. intros E H. apply solvent_iff_purse. rewrite E. by apply solvent_iff_purse. Qed.

Lemma purse_lookup g i p : players g !! i = Some p → purse g !! i = Some (p_id p, coins p).
Proof. intros H. unfold purse. by rewrite list_lookup_fmap, H. Qed.

Lemma purse_lookup_coins g g' i p p' :
  purse g' = purse g → players g !! i = Some p → players g' !! i = Some p' →
  coins p' = coins p.
Proof.
  intros E Hp Hp'. apply purse_lookup in Hp, Hp'. rewrite E, Hp in Hp'. by injection Hp'.
Qed.

Lemma solvent_add_coins g i n :
  solvent g →
  (∀ p, players g !! i = Some p → (0 ≤ coins p + n)%Z) →
  solvent (alterPlayer i (add_coins n) g).
Proof.
  intros H Hi. unfold solvent. rewrite alterPlayer_players.
  apply Forall_alter; [done|]. intros p Hp _. simpl. by apply Hi.
Qed.

Lemma solvent_applySteal g a t : solvent g → solvent (applySteal g a t).
Proof.
  intros H. unfold applySteal.
  destruct (list_find (λ p, p_id p = a) (players g)) as [[ia actor]|]; [|done].
  destruct (list_find (λ p, p_id p = t) (players g)) as [[it target]|] eqn:Ht; [|done].
  apply list_find_Some in Ht as (Ht & _).
  pose proof (Forall_lookup_1 _ _ _ _ H Ht) as Hc. simpl in Hc.
  eapply solvent_purse; [apply log_push_purse|].
  assert (solvent (alterPlayer it (add_coins (- Z.min 2 (coins target))) g)) as H1.
  { apply solvent_add_coins; [done|]. intros p Hp. rewrite Ht in Hp. injection Hp as <-. lia. }
  apply solvent_add_coins; [done|]. intros p Hp.
  pose proof (Forall_lookup_1 _ _ _ _ H1 Hp) as Hc'. simpl in Hc'. lia.
Qed.

Lemma covered_none g : pendingAction g ≫= aidActor = None → aidCovered g.
Proof. intros E a c. by rewrite E. Qed.

Lemma covered_purse g g' :
  purse g' = purse g →
  pendingAction g' ≫= aidActor = None
  ∨ pendingAction g' ≫= aidActor = pendingAction g ≫= aidActor →
  aidCovered g → aidCovered g'.
Proof.
  intros E [En|Ea] H; [by apply covered_none|].
  intros a c. rewrite Ea, (purse_coinsOf g g') by done. apply H.
Qed.

(** The ways a step keeps [coinsOk]: moving no coin; adding coins; giving
    back the two coins of a foreign aid; paying a price the actor can afford;
    taking foreign aid; stealing. *)
Lemma coinsOk_keep g g' :
  coinsOk g → purse g' = purse g →
  pendingAction g' ≫= aidActor = None
  ∨ pendingAction g' ≫= aidActor = pendingAction g ≫= aidActor →
  coinsOk g'.
Proof.
  intros [Hs Hc] E Ha. split; [by eapply solvent_purse|by eapply covered_purse].
Qed.

Lemma coinsOk_gain g g' X i n :
  coinsOk g →
  purse g' = purse (alterPlayer i (add_coins n) X) → purse X = purse g →
  (0 ≤ n)%Z → pendingAction g' ≫= aidActor = None →
  coinsOk g'.
Proof.
  intros [Hs _] E EX Hn Ha. split; [|by apply covered_none].
  eapply solvent_purse; [exact E|].
  assert (solvent X) as HX by (by eapply solvent_purse).
  apply solvent_add_coins; [done|]. intros p Hp.
  pose proof (Forall_lookup_1 _ _ _ _ HX Hp) as Hc. simpl in Hc. lia.
Qed.

Lemma coinsOk_pay g g' X a (ia : nat * Player) n :
  coinsOk g →
  list_find (λ p, p_id p = a) (players g) = Some ia →
  purse g' = purse (alterPlayer ia.1 (add_coins n) X) → purse X = purse g →
  (0 ≤ coins ia.2 + n)%Z → pendingAction g' ≫= aidActor = None →
  coinsOk g'.
Proof.
  destruct ia as [i actor]. simpl.
  intros [Hs _] Hf E EX Hn Ha. split; [|by apply covered_none].
  eapply solvent_purse; [exact E|].
  assert (solvent X) as HX by (by eapply solvent_purse).
  apply list_find_Some in Hf as (Hf & _).
  apply solvent_add_coins; [done|]. intros p Hp.
  rewrite (purse_lookup_coins g X i actor p) by done. lia.
Qed.

Lemma coinsOk_repay g g' X a (ia : nat * Player) :
  coinsOk g →
  pendingAction g ≫= aidActor = Some a →
  list_find (λ p, p_id p = a) (players g) = Some ia →
  purse g' = purse (alterPlayer ia.1 (add_coins (-2)) X) → purse X = purse g →
  pendingAction g' ≫= aidActor = None →
  coinsOk g'.
Proof.
  intros Hok Hpa Hf E EX Ha.
  apply (coinsOk_pay g g' X a ia (-2)); try done.
  destruct Hok as [_ Hc]. destruct ia as [i actor]. simpl.
  assert (2 ≤ coins actor)%Z; [|lia]. apply (Hc a); [done|]. by eapply coinsOf_find.
Qed.

Lemma coinsOk_aid g g' a (ia : nat * Player) :
  coinsOk g →
  list_find (λ p, p_id p = a) (players g) = Some ia →
  purse g' = purse (alterPlayer ia.1 (add_coins 2) g) →
  pendingAction g' ≫= aidActor = Some a →
  coinsOk g'.
Proof.
  destruct ia as [i actor]. simpl.
  intros [Hs _] Hf E Ha.
  pose proof Hf as (Hl & _)%list_find_Some.
  pose proof (Forall_lookup_1 _ _ _ _ Hs Hl) as Hc. simpl in Hc.
  split.
  - eapply solvent_purse; [exact E|]. apply solvent_add_coins; [done|].
    intros p Hp. rewrite Hl in Hp. injection Hp as <-. lia.
  - intros b c. rewrite Ha. intros [= <-].
    rewrite (purse_coinsOf _ _ a E), (coinsOf_add_coins g a a i actor) by done.
    rewrite decide_True by done. intros [= <-]. lia.
Qed.

Lemma coinsOk_steal g g' X a t :
  coinsOk g →
  purse g' = purse (applySteal X a t) → purse X = purse g →
  pendingAction g' ≫= aidActor = None →
  coinsOk g'.
Proof.
  intros [Hs _] E EX Ha. split; [|by apply covered_none].
  eapply solvent_purse; [exact E|]. apply solvent_applySteal. by eapply solvent_purse.
Qed.

End Solvent.

(** ** The invariant of a room *)

Section MoreObservers.

Variable rnd : nat → nat.

Lemma loseInfluence_ids g p i : ids (loseInfluence g p i).2 = ids g.
Proof. apply loseInfluence_spec. Qed.
Lemma loseInfluence_deck g p i : deck (loseInfluence g p i).2 = deck g.
Proof. apply loseInfluence_spec. Qed.
Lemma loseInfluence_pendingAction g p i :
  pendingAction (loseInfluence g p i).2 = pendingAction g.
Proof. apply loseInfluence_spec. Qed.
Lemma loseInfluence_exchange g p i : exchange (loseInfluence g p i).2 = exchange g.
Proof. apply loseInfluence_spec. Qed.
Lemma loseInfluence_handRoles g p i : handRoles (loseInfluence g p i).2 = handRoles g.
Proof. apply loseInfluence_spec. Qed.

Lemma draw_players g : players (draw rnd g).2 = players g.
Proof. by destruct (draw_pops rnd g) as (r & d & t & -> & _). Qed.
Lemma draw_ids g : ids (draw rnd g).2 = ids g.
Proof. apply ids_players, draw_players. Qed.
Lemma draw_hands g : hands (draw rnd g).2 = hands g.
Proof. apply hands_players, draw_players. Qed.
Lemma draw_pendingAction g : pendingAction (draw rnd g).2 = pendingAction g.
Proof. by destruct (draw_pops rnd g) as (r & d & t & -> & _). Qed.
Lemma draw_exchange g : exchange (draw rnd g).2 = exchange g.
Proof. by destruct (draw_pops rnd g) as (r & d & t & -> & _). Qed.

Lemma returnToDeck_players roles g : players (returnToDeck rnd roles g) = players g.
Proof. by destruct (returnToDeck_spec rnd roles g) as (d & t & -> & _). Qed.
Lemma returnToDeck_ids roles g : ids (returnToDeck rnd roles g) = ids g.
Proof. apply ids_players, returnToDeck_players. Qed.
Lemma returnToDeck_hands roles g : hands (returnToDeck rnd roles g) = hands g.
Proof. apply hands_players, returnToDeck_players. Qed.
Lemma returnToDeck_pendingAction roles g :
  pendingAction (returnToDeck rnd roles g) = pendingAction g.
Proof. by destruct (returnToDeck_spec rnd roles g) as (d & t & -> & _). Qed.
Lemma returnToDeck_exchange roles g : exchange (returnToDeck rnd roles g) = exchange g.
Proof. by destruct (returnToDeck_spec rnd roles g) as (d & t & -> & _). Qed.

Lemma set_influence_deck i f g : deck (alterPlayer i (set_influence f) g) = deck g.
Proof. done. Qed.
Lemma set_influence_pendingAction i f g :
  pendingAction (alterPlayer i (set_influence f) g) = pendingAction g.
Proof. done. Qed.
Lemma set_influence_exchange i f g : exchange (alterPlayer i (set_influence f) g) = exchange g.
Proof. done. Qed.

End MoreObservers.

#[export] Hint Rewrite
  loseInfluence_ids loseInfluence_deck loseInfluence_pendingAction loseInfluence_exchange
  loseInfluence_handRoles
  draw_players draw_ids draw_hands draw_pendingAction draw_exchange
  returnToDeck_players returnToDeck_ids returnToDeck_hands returnToDeck_pendingAction
  returnToDeck_exchange
  ids_set_influence set_influence_deck set_influence_pendingAction set_influence_exchange
  revealAndRedraw_ids revealAndRedraw_pendingAction revealAndRedraw_exchange
  : obs.

(** From here on the operations are used through the facts above. *)
#[global] Opaque reply finishTurn nextTurn checkWin revealAndRedraw loseInfluence applySteal
  initResponders draw returnToDeck
  currentPlayer getStateFor getPublicState log_push set_pendingAction beginLoseInfluence
  alterPlayer set_exchange set_deck set_turnIndex set_players.

(** Name the states that the case analysis took out of a pair. *)
Ltac name_results :=
  repeat match goal with
    | E : loseInfluence ?g ?p ?i = (_, ?g1) |- _ =>
        is_var g1; assert (g1 = (loseInfluence g p i).2) as -> by (by rewrite E); clear E
    | E : draw ?rnd ?g = (_, ?g1) |- _ =>
        is_var g1; assert (g1 = (draw rnd g).2) as -> by (by rewrite E); clear E
    end.

Section Settled.

Variable rnd : nat → nat.

Lemma startExchangeChoice_settled g a : turnSettled (game (startExchangeChoice rnd g a)).
Proof.
  unfold startExchangeChoice. split_cases; auto using reply_settled, finishTurn_settled.
Qed.

Lemma continue_settled g cont : turnSettled (game (continueAfterLoseInfluence rnd g cont)).
Proof.
  unfold continueAfterLoseInfluence.
  split_cases; auto using reply_settled, finishTurn_settled, startExchangeChoice_settled.
Qed.

Lemma resolveAction_settled g actorId actionType targetId :
  turnSettled (game (resolveAction g actorId actionType targetId)).
Proof.
  unfold resolveAction. split_light;
    auto using reply_settled, finishTurn_settled.
Qed.

Lemma handleResponse_settled g playerId responseType payload r :
  handleResponse rnd g playerId responseType payload = Ok r → turnSettled (game r).
Proof.
  intros H. by_blocks H; unfold respondExchangeChoice; split_cases;
    auto using reply_settled, finishTurn_settled, startExchangeChoice_settled,
      continue_settled.
Qed.

End Settled.


Section PendingInvariant.

Variable rnd : nat → nat.

Lemma startExchangeChoice_pending g a pa :
  pendingAction (game (startExchangeChoice rnd g a)) = Some pa →
  (∃ k, pa = exchange_awaitingChoice a k) ∨ pendingAction g = Some pa.
Proof.
  unfold startExchangeChoice. split_light; name_results; autorewrite with obs; simpl;
    intros; simplify_eq; eauto.
Qed.

Lemma continue_pending g cont pa l :
  pendingAction g = None →
  pendingAction (game (continueAfterLoseInfluence rnd g cont)) = Some pa →
  pendingOk l pa.
Proof.
  intros Hg. unfold continueAfterLoseInfluence.
  split_light; autorewrite with obs; simpl; intros; simplify_eq; simpl;
    try done; try (split; [apply literal_noChallenge|apply NoDup_singleton]).
  match goal with H : pendingAction (game (startExchangeChoice _ _ _)) = _ |- _ =>
    apply startExchangeChoice_pending in H as [[k ->]|H]; [done|congruence] end.
Qed.

Lemma idsOk_plain l pid : idsOk l → pid ∈ l → plainId pid.
Proof. intros [_ H] Hin. rewrite Forall_forall in H. auto. Qed.

Lemma recordResponse_pendingOk l a pid rt rs rs' :
  plainId pid → pid ∈ l →
  JsObject.has pid rs = true →
  recordResponse pid rt rs = Some rs' →
  truthy (firstChallenger rs') = None →
  keysIn l rs → noChallenge rs →
  keysIn l rs' ∧ noChallenge rs'
  ∧ (NoDup rs.*1 → NoDup rs'.*1)
  ∧ (JsObject.own a rs = None → JsObject.own a rs' = None).
Proof.
  intros [Hne Hinh] Hin Hhas Hr Ht Hk Hn. split_and!.
  - by eapply recordResponse_keysIn.
  - by eapply recordResponse_noChallenge.
  - intros Hd. by eapply recordResponse_NoDup.
  - intros Ha. eapply recordResponse_own; [done| |done]. by apply has_plain.
Qed.

Lemma initResponders_pendingOk g g' x :
  ids g' = ids g →
  keysIn (ids g) (initResponders g' x) ∧ noChallenge (initResponders g' x)
  ∧ NoDup (initResponders g' x).*1
  ∧ JsObject.own x (initResponders g' x) = None.
Proof. intros <-. apply initResponders_ok. Qed.

Lemma set_pendingOk l a pid m rs :
  plainId pid → pid ∈ l → JsObject.has pid rs = true → m ≠ Challenged →
  keysIn l rs → noChallenge rs →
  keysIn l (JsObject.set pid m rs) ∧ noChallenge (JsObject.set pid m rs)
  ∧ (NoDup rs.*1 → NoDup (JsObject.set pid m rs).*1)
  ∧ (JsObject.own a rs = None → JsObject.own a (JsObject.set pid m rs) = None).
Proof.
  intros [Hne Hinh] Hin Hhas Hm Hk Hn. split_and!.
  - by apply set_keysIn.
  - by apply set_noChallenge.
  - apply set_NoDup.
  - intros Ha. rewrite set_own; [done|]. intros ->.
    apply has_plain in Hhas as [? ?]; [congruence|done].
Qed.

Lemma respondExchangeChoice_pending g a pid rt pl pa :
  pendingAction (game (respondExchangeChoice rnd g a pid rt pl)) = Some pa →
  pendingAction g = Some pa.
Proof.
  unfold respondExchangeChoice. split_light; autorewrite with obs; done.
Qed.

Lemma pendingOk_handleResponse g pid rt pl r :
  idsOk (ids g) → pid ∈ ids g →
  (∀ pa, pendingAction g = Some pa → pendingOk (ids g) pa) →
  handleResponse rnd g pid rt pl = Ok r →
  ∀ pa, pendingAction (game r) = Some pa → pendingOk (ids g) pa.
Proof.
  intros Hids Hpid Hpa H.
  pose proof (idsOk_plain _ _ Hids Hpid) as Hplain.
  by_blocks H; name_results; try (specialize (Hpa _ eq_refl); simpl in Hpa);
    try match goal with
      | Hh : negb (JsObject.has pid ?rs) = false |- _ => apply negb_false_iff in Hh
      end;
    try match goal with
      | Hr : recordResponse pid rt ?rs = Some ?t,
        Hh : JsObject.has pid ?rs = true,
        Ht : truthy (firstChallenger ?t) = None |- _ =>
          pose proof (λ a, recordResponse_pendingOk (ids g) a pid rt rs t
                             Hplain Hpid Hh Hr Ht) as Hrec
      end;
    try match goal with
      | Hh : JsObject.has pid ?rs = true |- _ =>
          pose proof (λ a, set_pendingOk (ids g) a pid Passed rs Hplain Hpid Hh
                             ltac:(done)) as Hset
      end;
    intros pa Epa; autorewrite with obs in Epa; try discriminate;
    try (rewrite Hpending in Epa; injection Epa as <-; exact Hpa);
    try (eapply continue_pending; [|exact Epa]; done);
    try (apply respondExchangeChoice_pending in Epa; rewrite Hpending in Epa;
         by injection Epa as <-);
    try (apply startExchangeChoice_pending in Epa as [[k ->]|Epa]; [done|];
         autorewrite with obs in Epa);
    try (injection Epa as <-; simpl; try done);
    try done; try (split; [apply literal_noChallenge|apply NoDup_singleton]);
    try match goal with
      | |- context [initResponders ?g' ?x] =>
          pose proof (initResponders_pendingOk g g' x ltac:(by autorewrite with obs))
      end;
    try naive_solver.
Qed.

Lemma pendingOk_resolveAction g actorId actionType targetId :
  pendingAction g = None →
  ∀ pa, pendingAction (game (resolveAction g actorId actionType targetId)) = Some pa →
        pendingOk (ids g) pa.
Proof.
  intros Hg. unfold resolveAction.
  split_light;
    intros pa Epa; autorewrite with obs in Epa; try congruence;
    injection Epa as <-; simpl; try done;
    match goal with
    | Hf : list_find _ _ = Some (_, ?actor) |- _ =>
        apply list_find_Some in Hf as (Hf & ? & _);
        apply (list_elem_of_lookup_2 (players g)), (list_elem_of_fmap_2 p_id) in Hf;
        fold (ids g) in Hf
    end;
    match goal with
    | |- context [initResponders ?g' ?x] =>
        pose proof (initResponders_pendingOk g g' x ltac:(by autorewrite with obs))
    end;
    naive_solver.
Qed.

End PendingInvariant.
Section Parties.

Variable rnd : nat → nat.

Lemma find_ids g id i p :
  list_find (λ p, p_id p = id) (players g) = Some (i, p) → p_id p = id ∧ id ∈ ids g.
Proof.
  intros (Hl & <- & _)%list_find_Some. split; [done|].
  apply (list_elem_of_lookup_2 (players g)), (list_elem_of_fmap_2 p_id) in Hl. done.
Qed.

Lemma continue_parties g cont pa l :
  contOk l cont →
  pendingAction g = None →
  pendingAction (game (continueAfterLoseInfluence rnd g cont)) = Some pa →
  partiesOk l pa.
Proof.
  intros Hc Hg. unfold continueAfterLoseInfluence.
  split_light; autorewrite with obs; simpl; intros; simplify_eq; simpl; try done.
  match goal with H : pendingAction (game (startExchangeChoice _ _ _)) = _ |- _ =>
    apply startExchangeChoice_pending in H as [[k ->]|H]; [done|congruence] end.
Qed.

Lemma partiesOk_handleResponse g pid rt pl r :
  (∀ pa, pendingAction g = Some pa → partiesOk (ids g) pa) →
  handleResponse rnd g pid rt pl = Ok r →
  ∀ pa, pendingAction (game r) = Some pa → partiesOk (ids g) pa.
Proof.
  intros Hpa H.
  by_blocks H; name_results; try (specialize (Hpa _ eq_refl); simpl in Hpa);
    intros pa Epa; autorewrite with obs in Epa; try discriminate;
    try (rewrite Hpending in Epa; injection Epa as <-; exact Hpa);
    try (eapply continue_parties; [|    |exact Epa]; [done|by autorewrite with obs]);
    try (apply respondExchangeChoice_pending in Epa; rewrite Hpending in Epa;
         by injection Epa as <-);
    try (apply startExchangeChoice_pending in Epa as [[k ->]|Epa]; [done|];
         autorewrite with obs in Epa);
    try (injection Epa as <-; simpl; try done);
    try done; congruence.
Qed.

Lemma partiesOk_resolveAction g actorId actionType targetId :
  pendingAction g = None →
  ∀ pa, pendingAction (game (resolveAction g actorId actionType targetId)) = Some pa →
        partiesOk (ids g) pa.
Proof.
  intros Hg. unfold resolveAction.
  split_light;
    intros pa Epa; autorewrite with obs in Epa; try congruence;
    injection Epa as <-; simpl; try done.
  match goal with
  | Hf : list_find _ _ = Some _, Ht : targetId ≫= getPlayer g = Some ?tg,
    Hc : _ || bool_decide (p_id ?tg = actorId) = false |- _ =>
      apply orb_false_iff in Hc as [_ Hne%bool_decide_eq_false];
      destruct targetId as [t|]; [|done]; simpl in Ht;
      apply getPlayer_find in Ht as [it Ht];
      apply find_ids in Hf as [_ Hf], Ht as [<- Ht]
  end.
  by split_and!.
Qed.

End Parties.

Section SecretInvariant.

Variable rnd : nat → nat.

Lemma secretOk_vacuous g :
  (∀ a k, pendingAction g ≠ Some (exchange_awaitingChoice a k)) → secretOk g.
Proof. intros H a k E. by apply H in E. Qed.

Lemma secretOk_same g g' :
  players g' = players g → exchange g' = exchange g →
  pendingAction g' = pendingAction g → secretOk g → secretOk g'.
Proof.
  intros Hp He Ha H a k E. rewrite Ha in E.
  destruct (H a k E) as (p & d1 & d2 & ? & ? & ? & ?).
  exists p, d1, d2. unfold getPlayer in *. by rewrite Hp, He.
Qed.

Lemma startExchangeChoice_secretOk g a :
  (∀ a k, pendingAction g ≠ Some (exchange_awaitingChoice a k)) →
  secretOk (game (startExchangeChoice rnd g a)).
Proof.
  intros Hg. unfold startExchangeChoice. split_light; name_results.
  - apply secretOk_vacuous. intros a' k'. by autorewrite with obs.
  - intros a' k' E. autorewrite with obs in E. injection E as <- <-.
    match goal with H : list_find _ _ = Some (_, ?p) |- _ => exists p end.
    eexists _, _. split_and!; [|done|done|].
    + unfold getPlayer. autorewrite with obs.
      by match goal with H : list_find _ _ = Some _ |- _ => rewrite H end.
    + autorewrite with obs. apply lookup_insert_eq.
  - apply secretOk_vacuous. intros a' k'. autorewrite with obs. apply Hg.
Qed.

Lemma continue_secretOk g cont :
  pendingAction g = None → secretOk (game (continueAfterLoseInfluence rnd g cont)).
Proof.
  intros Hg. unfold continueAfterLoseInfluence. split_light;
    try (apply secretOk_vacuous; intros a' k'; by autorewrite with obs).
  apply startExchangeChoice_secretOk. intros a' k'. by rewrite Hg.
Qed.

Lemma respondExchangeChoice_secretOk g a pid rt pl :
  secretOk g → secretOk (game (respondExchangeChoice rnd g a pid rt pl)).
Proof.
  intros Hg. unfold respondExchangeChoice. split_light;
    try (apply secretOk_vacuous; intros a' k'; by autorewrite with obs);
    (eapply secretOk_same; [| | |exact Hg]; by autorewrite with obs).
Qed.

Lemma secretOk_handleResponse g pid rt pl r :
  secretOk g → handleResponse rnd g pid rt pl = Ok r → secretOk (game r).
Proof.
  intros Hg H. by_blocks H; name_results;
    try (by apply respondExchangeChoice_secretOk);
    try (apply continue_secretOk; by autorewrite with obs);
    try (apply startExchangeChoice_secretOk; intros a' k'; by autorewrite with obs);
    apply secretOk_vacuous; intros a' k'; autorewrite with obs; congruence.
Qed.

Lemma secretOk_resolveAction g actorId actionType targetId :
  pendingAction g = None → secretOk (game (resolveAction g actorId actionType targetId)).
Proof.
  intros Hg. unfold resolveAction. split_light;
    apply secretOk_vacuous; intros a' k'; autorewrite with obs; congruence.
Qed.

End SecretInvariant.

(** ** Every state of a room satisfies the invariant *)

Section Reachability.

Variable rnd : nat → nat.

Lemma Base_handleResponse g pid rt pl r :
  Base g → handleResponse rnd g pid rt pl = Ok r → Base (game r).
Proof.
  intros [Hids Hhands Hturn Hpar Hsec] H.
  pose proof (evolves_handleResponse rnd _ _ _ _ _ H) as (Ei & Es & _).
  split.
  - by rewrite Ei.
  - by rewrite Es.
  - by eapply handleResponse_settled.
  - rewrite Ei. by eapply partiesOk_handleResponse.
  - by eapply secretOk_handleResponse.
Qed.

Lemma Base_resolveAction g actorId actionType targetId :
  Base g → pendingAction g = None →
  Base (game (resolveAction g actorId actionType targetId)).
Proof.
  intros [Hids Hhands Hturn Hpar Hsec] Hnone.
  pose proof (evolves_resolveAction g actorId actionType targetId) as (Ei & Es & _).
  split.
  - by rewrite Ei.
  - by rewrite Es.
  - apply resolveAction_settled.
  - rewrite Ei. by apply partiesOk_resolveAction.
  - by apply secretOk_resolveAction.
Qed.

Lemma deal_spec g pi :
  ids (deal rnd g pi) = ids g
  ∧ handSizes (deal rnd g pi) = alter (λ n, n + 2) pi (handSizes g)
  ∧ pendingAction (deal rnd g pi) = pendingAction g
  ∧ exchange (deal rnd g pi) = exchange g.
Proof.
  unfold deal. destruct (draw rnd g) as [r1 g1] eqn:E1.
  destruct (draw rnd (alterPlayer pi _ g1)) as [r2 g2] eqn:E2. name_results.
  split_and!.
  - by autorewrite with obs.
  - unfold handSizes. rewrite !hands_set_influence. autorewrite with obs.
    rewrite hands_set_influence. autorewrite with obs.
    rewrite list_alter_alter_eq.
    rewrite (fmap_alter length _ (λ n, n + 2)); [done|].
    intros cs. simpl. rewrite !length_app. simpl. lia.
  - by autorewrite with obs.
  - by autorewrite with obs.
Qed.

Lemma deal_all g k m :
  handSizes g = replicate k 2 ++ replicate m 0 →
  ids (foldl (deal rnd) g (seq k m)) = ids g
  ∧ handSizes (foldl (deal rnd) g (seq k m)) = replicate (k + m) 2
  ∧ pendingAction (foldl (deal rnd) g (seq k m)) = pendingAction g
  ∧ exchange (foldl (deal rnd) g (seq k m)) = exchange g.
Proof.
  revert g k. induction m as [|m IH]; intros g k Hs; simpl.
  - by rewrite Nat.add_0_r, Hs, app_nil_r.
  - destruct (deal_spec g k) as (Ei & Eh & Ep & Ee).
    destruct (IH (deal rnd g k) (S k)) as (Ei' & Eh' & Ep' & Ee').
    + rewrite Eh, Hs. simpl.
      rewrite alter_app_r_alt by (rewrite length_replicate; lia).
      rewrite length_replicate, Nat.sub_diag. simpl.
      change (2 :: replicate k 2 ++ ?l) with ((2 :: replicate k 2) ++ l).
      by rewrite replicate_cons_app, <- app_assoc.
    + rewrite Ei', Eh', Ep', Ee'. split_and!; [done| |done..].
      f_equal. lia.
Qed.

Lemma newGame_ids ps t : ids (newGame rnd ps t) = ps.*1.
Proof.
  unfold newGame. destruct (makeDeck rnd t) as [d t'].
  set (g0 := mkGame _ d [] 0 None false None ∅ t').
  destruct (deal_all g0 0 (length ps)) as (Ei & _).
  { unfold handSizes, hands, g0. simpl. rewrite <- !list_fmap_compose.
    clear. induction ps; simpl; by f_equal. }
  set (g1 := foldl (deal rnd) g0 (seq 0 (length ps))) in *.
  set (g2 := log_push _ g1).
  assert (ids g2 = ps.*1) as E2.
  { subst g2. autorewrite with obs. rewrite Ei. unfold ids, g0. simpl.
    by rewrite <- list_fmap_compose. }
  destruct (currentPlayer_frame g2) as [i Ec].
  destruct (currentPlayer g2) as [[cp|] g3]; simpl in Ec; subst g3;
    by autorewrite with obs.
Qed.

Lemma newGame_start ps t :
  handSizes (newGame rnd ps t) = replicate (length ps) 2
  ∧ pendingAction (newGame rnd ps t) = None ∧ turnSettled (newGame rnd ps t).
Proof.
  unfold newGame.
  destruct (makeDeck rnd t) as [d t'].
  set (g0 := mkGame _ d [] 0 None false None ∅ t').
  destruct (deal_all g0 0 (length ps)) as (Ei & Eh & Ep & Ee).
  { unfold handSizes, hands, g0. simpl. rewrite <- !list_fmap_compose.
    clear. induction ps; simpl; by f_equal. }
  set (g1 := foldl (deal rnd) g0 (seq 0 (length ps))) in *.
  set (g2 := log_push _ g1).
  pose proof (currentPlayer_settles g2) as Hs.
  destruct (currentPlayer_frame g2) as [i Ec].
  assert (∀ g', g' = (currentPlayer g2).2 ∨ (∃ s, g' = log_push s (currentPlayer g2).2) →
                handSizes g' = replicate (length ps) 2
                ∧ pendingAction g' = None ∧ turnSettled g') as Hfin.
  { intros g' Hg'.
    assert (turnSettled g') as Ht.
    { destruct Hg' as [->|[s ->]]; [done|].
      by apply (turnSettled_blind (log_push s)); [apply turnBlind_log_push|]. }
    destruct Hg' as [->|[s ->]]; rewrite ?Ec; unfold handSizes; subst g2;
      autorewrite with obs; fold (handSizes g1);
      (split_and!; [by rewrite Eh|by rewrite Ep|]);
      by rewrite <- ?Ec. }
  destruct (currentPlayer g2) as [[cp|] g3]; apply Hfin; simpl; eauto.
Qed.

Lemma Base_newGame ps t : admissible ps → Base (newGame rnd ps t).
Proof.
  intros Hnd. destruct (newGame_start ps t) as (Hh & Hp & Ht).
  split.
  - by rewrite newGame_ids.
  - rewrite Hh. by apply Forall_replicate.
  - done.
  - intros pa. by rewrite Hp.
  - apply secretOk_vacuous. intros a k. by rewrite Hp.
Qed.

(** Every state of a room satisfies the base invariant. *)
Theorem reachable_Base g : reachable rnd g → Base g.
Proof.
  induction 1 as [ps t Hadm|g clientId actionType targetId r _ IH Hact
                 |g clientId responseType payload r _ IH Hin Hresp].
  - by apply Base_newGame.
  - unfold onAction in Hact. destruct (gameOver g); [done|].
    pose proof (base_turn _ IH) as Hs. unfold turnSettled in Hs.
    destruct (currentPlayer g) as [[current|] g']; [|done]. simpl in Hs. subst g'.
    case_decide; [done|]. case_bool_decide as Hp; [done|]. simplify_eq.
    apply Base_resolveAction; [done|].
    destruct (pendingAction g); [|done]. destruct Hp. by eexists.
  - unfold onResponse in Hresp. simplify_eq.
    by eapply Base_handleResponse.
Qed.

(** In a room of plain ids the responders of a pending action are as
    [pendingOk] says. *)
Lemma reachable_pending g :
  reachable rnd g → plainRoom g →
  ∀ pa, pendingAction g = Some pa → pendingOk (ids g) pa.
Proof.
  induction 1 as [ps t Hadm|g clientId actionType targetId r Hg IH Hact
                 |g clientId responseType payload r Hg IH Hin Hresp]; intros Hplain.
  - intros pa. destruct (newGame_start ps t) as (_ & Hp & _). by rewrite Hp.
  - unfold onAction in Hact. destruct (gameOver g); [done|].
    pose proof (base_turn _ (reachable_Base g Hg)) as Hs. unfold turnSettled in Hs.
    destruct (currentPlayer g) as [[current|] g']; [|done]. simpl in Hs. subst g'.
    case_decide; [done|]. case_bool_decide as Hp; [done|]. simplify_eq.
    match goal with |- context [resolveAction g ?c ?a ?t] =>
      pose proof (evolves_resolveAction g c a t) as (Ei & _) end.
    rewrite Ei. intros pa Epa. apply (pendingOk_resolveAction rnd g _ _ _) with (2 := Epa).
    destruct (pendingAction g); [|done]. destruct Hp. by eexists.
  - unfold onResponse in Hresp. simplify_eq.
    pose proof (evolves_handleResponse rnd _ _ _ _ _ Hresp) as (Ei & _).
    unfold plainRoom in Hplain. rewrite Ei in *.
    eapply pendingOk_handleResponse; [| |by apply IH|done].
    + split; [apply (base_ids _ (reachable_Base g Hg))|done].
    + done.
Qed.

(** Every state of a room of plain ids satisfies the invariant. *)
Theorem reachable_Inv g : reachable rnd g → plainRoom g → Inv g.
Proof.
  intros Hg Hplain. destruct (reachable_Base g Hg) as [Hids Hhands Hturn Hpar Hsec].
  split; try done. by apply reachable_pending.
Qed.

Lemma reachable_afterAction g clientId actionType targetId :
  reachable rnd g → reachable rnd (afterAction g clientId actionType targetId).
Proof.
  intros Hg. unfold afterAction.
  destruct (onAction g clientId actionType targetId) as [r|] eqn:E; [|done].
  by eapply reach_action.
Qed.

Lemma reachable_afterResponse g clientId responseType payload :
  reachable rnd g → reachable rnd (afterResponse rnd g clientId responseType payload).
Proof.
  intros Hg. unfold afterResponse. case_decide; [|done].
  destruct (onResponse rnd g clientId responseType payload) as [[r|]|] eqn:E; [|done..].
  by eapply reach_response.
Qed.

Lemma ids_afterAction g clientId actionType targetId :
  ids (afterAction g clientId actionType targetId) = ids g.
Proof.
  unfold afterAction, onAction. destruct (gameOver g); [done|].
  destruct (currentPlayer_frame g) as [i Ei].
  destruct (currentPlayer g) as [[current|] g']; [|done]. simpl in Ei. subst g'.
  case_decide; [done|]. case_bool_decide; [done|].
  match goal with |- context [resolveAction ?g' ?c ?a ?t] =>
    pose proof (evolves_resolveAction g' c a t) as (E & _) end.
  rewrite E. by autorewrite with obs.
Qed.

Lemma ids_afterResponse g clientId responseType payload :
  ids (afterResponse rnd g clientId responseType payload) = ids g.
Proof.
  unfold afterResponse, onResponse. case_decide; [|done].
  destruct (handleResponse rnd g clientId responseType payload) as [r|] eqn:E; [|done].
  apply (evolves_handleResponse rnd _ _ _ _ _ E).
Qed.

Lemma plainRoom_afterAction g clientId actionType targetId :
  plainRoom g → plainRoom (afterAction g clientId actionType targetId).
Proof. unfold plainRoom. by rewrite ids_afterAction. Qed.

Lemma plainRoom_afterResponse g clientId responseType payload :
  plainRoom g → plainRoom (afterResponse rnd g clientId responseType payload).
Proof. unfold plainRoom. by rewrite ids_afterResponse. Qed.

End Reachability.

Section SampleRoom.

Import Sample.

Lemma table_admissible : admissible table.
Proof. by apply (bool_decide_unpack _). Qed.

Lemma tableOfEight_admissible : admissible tableOfEight.
Proof. by apply (bool_decide_unpack _). Qed.

Lemma fresh_plain : plainRoom fresh.
Proof.
  unfold plainRoom, plainId. replace (ids fresh) with ["a"; "b"] by (by vm_compute).
  apply (bool_decide_unpack _). by vm_compute.
Qed.

Lemma fresh_reachable : reachable rnd0 fresh.
Proof. apply reach_start, table_admissible. Qed.

Lemma freshOfEight_reachable : reachable rnd0 freshOfEight.
Proof. apply reach_start, tableOfEight_admissible. Qed.

Lemma taxOpen_reachable : reachable rnd0 taxOpen.
Proof. apply reachable_afterAction, fresh_reachable. Qed.

Lemma aidBlocked_reachable : reachable rnd0 aidBlocked.
Proof. apply reachable_afterResponse, reachable_afterAction, fresh_reachable. Qed.

Lemma stealWindow_reachable : reachable rnd0 stealWindow.
Proof. apply reachable_afterResponse, reachable_afterAction, fresh_reachable. Qed.

Lemma exchangeChoice_reachable : reachable rnd0 exchangeChoice.
Proof. apply reachable_afterResponse, reachable_afterAction, fresh_reachable. Qed.

Lemma taxOpen_plain : plainRoom taxOpen.
Proof. apply plainRoom_afterAction, fresh_plain. Qed.

Lemma aidBlocked_plain : plainRoom aidBlocked.
Proof. apply plainRoom_afterResponse, plainRoom_afterAction, fresh_plain. Qed.

Lemma freshOfThree_reachable : reachable rnd0 freshOfThree.
Proof. apply reach_start. by apply (bool_decide_unpack _). Qed.

Lemma taxPassedOfThree_reachable : reachable rnd0 taxPassedOfThree.
Proof. apply reachable_afterResponse, reachable_afterAction, freshOfThree_reachable. Qed.

Lemma taxPassedOfThree_plain : plainRoom taxPassedOfThree.
Proof.
  apply plainRoom_afterResponse, plainRoom_afterAction.
  unfold plainRoom, plainId. replace (ids freshOfThree) with ["a"; "b"; "c"] by (by vm_compute).
  apply (bool_decide_unpack _). by vm_compute.
Qed.

Lemma taxOpenWithProto_reachable : reachable rnd0 taxOpenWithProto.
Proof. apply reachable_afterAction, reach_start. by apply (bool_decide_unpack _). Qed.

Lemma freshOfProto_reachable : reachable rnd0 freshOfProto.
Proof. apply reach_start. by apply (bool_decide_unpack _). Qed.

Lemma aidBlockedOfProto_reachable : reachable rnd0 aidBlockedOfProto.
Proof. apply reachable_afterResponse, reachable_afterAction, freshOfProto_reachable. Qed.

Lemma stealBlockedOfProto_reachable : reachable rnd0 stealBlockedOfProto.
Proof.
  apply reachable_afterResponse, reachable_afterResponse, reachable_afterAction,
    freshOfProto_reachable.
Qed.

Lemma taxOpenWithEmpty_reachable : reachable rnd0 taxOpenWithEmpty.
Proof. apply reachable_afterAction, reach_start. by apply (bool_decide_unpack _). Qed.

End SampleRoom.

(** ** Challenges *)

Section Challenges.

Variable rnd : nat → nat.


Lemma getPlayer_players g g' id : players g' = players g → getPlayer g' id = getPlayer g id.
Proof. unfold getPlayer. by intros ->. Qed.

Lemma playerHasRole_players g g' id r :
  players g' = players g → playerHasRole g' id r = playerHasRole g id r.
Proof. unfold playerHasRole, getPlayer. by intros ->. Qed.

Lemma getPlayer_elem_of g id : id ∈ ids g → is_Some (getPlayer g id).
Proof.
  unfold ids, getPlayer. intros (p & -> & Hin)%list_elem_of_fmap.
  destruct (list_find_elem_of (λ q, p_id q = p_id p) (players g) p Hin eq_refl) as [[i q] ->].
  by eexists.
Qed.

Lemma plainId_not_proto id : plainId id → id ≠ "__proto__".
Proof. intros [_ H] ->. done. Qed.

Lemma playerHasRole_find g id r :
  playerHasRole g id r = true →
  ∃ pi p idx, list_find (λ p, p_id p = id) (players g) = Some (pi, p)
              ∧ findRole r (influence p) = Some idx.
Proof.
  unfold playerHasRole, getPlayer.
  destruct (list_find _ (players g)) as [[pi p]|] eqn:Hf; [|done]. simpl.
  intros (c & Hin & Hc)%existsb_exists. apply andb_true_iff in Hc as [Hu Hr].
  apply bool_decide_eq_true in Hr. apply negb_true_iff in Hu.
  apply list_elem_of_In in Hin.
  destruct (list_find_elem_of (λ c, revealed c = false ∧ role c = r) (influence p) c)
    as [[idx c'] E]; [done..|].
  exists pi, p, idx. split; [done|]. unfold findRole. by rewrite E.
Qed.

(** What a challenge by a responder amounts to in a state of a room. *)
Lemma challenge_recorded g pa rs pid :
  Inv g → pendingAction g = Some pa → respondersOf pa = Some rs →
  pendingOk (ids g) pa → keysIn (ids g) rs →
  is_Some (JsObject.own pid rs) →
  JsObject.has pid rs = true
  ∧ recordResponse pid "challenge" rs = Some (JsObject.set pid Challenged rs)
  ∧ truthy (firstChallenger (JsObject.set pid Challenged rs)) = Some pid
  ∧ pid ∈ ids g
  ∧ is_Some (getPlayer g pid).
Proof.
  intros HI Hpa Hrs Hok Hk [m Hown].
  assert (pid ∈ ids g) as Hin.
  { apply own_Some_elem_of in Hown. unfold keysIn in Hk. rewrite Forall_forall in Hk.
    by apply Hk in Hown. }
  pose proof (idsOk_plain _ _ (inv_ids _ HI) Hin) as Hplain.
  assert (noChallenge rs) as Hn.
  { destruct pa; simpl in *; simplify_eq; naive_solver. }
  split_and!; [by apply own_has|done| |done|by apply getPlayer_elem_of].
  rewrite firstChallenger_challenge by auto using plainId_not_proto.
  destruct Hplain as [Hne _]. by destruct pid.
Qed.

Lemma reveal_step X g a claimed pi p idx :
  players X = players g → deck X = deck g → randomCalls X = randomCalls g →
  list_find (λ p, p_id p = a) (players g) = Some (pi, p) →
  findRole claimed (influence p) = Some idx →
  ∃ c drawnRole,
    cardAt g pi idx = Some c ∧ role c = claimed ∧ revealed c = false
    ∧ hands (revealAndRedraw rnd X a claimed).2
      = alter <[idx := mkCard drawnRole false]> pi (hands g)
    ∧ drawnRole :: deck (revealAndRedraw rnd X a claimed).2 ≡ₚ claimed :: deck g
    ∧ deck (revealAndRedraw rnd X a claimed).2 ++ [drawnRole]
      = (shuffle rnd (claimed :: deck g) (randomCalls g)).1
    ∧ log (revealAndRedraw rnd X a claimed).2
      = log X ++ [p_name p +:+ " reveals " +:+ roleName claimed +:+ ".";
                  p_name p +:+ " draws a replacement influence."].
Proof.
  intros Hp Hd Ht Hf Hr.
  destruct (revealAndRedraw_shown rnd X a claimed pi p idx) as (r' & d & Hs & Hdk & Hpl & Hl);
    [by rewrite Hp|done|].
  destruct (findRole_Some _ _ _ Hr) as (c & Hc & Hu & Hro).
  rewrite Hd, Ht in Hs.
  exists c, r'. apply find_getPlayer in Hf as (_ & Hpg & _).
  split_and!; [|done|done| | |by rewrite Hdk|done].
  - unfold cardAt. by rewrite Hpg.
  - unfold hands. rewrite Hpl, Hp. by apply fmap_alter.
  - rewrite Hdk. rewrite (Permutation_cons_append d r'), <- Hs.
    apply (shuffle_perm rnd (claimed :: deck g) (randomCalls g)).
Qed.

Lemma cardAt_replaced g g' pi idx c' :
  hands g' = alter <[idx := c']> pi (hands g) →
  is_Some (cardAt g pi idx) →
  cardAt g' pi idx = Some c'
  ∧ ∀ pj ci, (pj, ci) ≠ (pi, idx) → cardAt g' pj ci = cardAt g pj ci.
Proof.
  intros Hh [c Hc]. rewrite cardAt_hands in Hc. split.
  - rewrite cardAt_hands, Hh, list_lookup_alter_eq.
    destruct (hands g !! pi) as [cs|]; simpl in *; [|done].
    apply list_lookup_insert_eq. by apply lookup_lt_Some in Hc.
  - intros pj ci Hne. rewrite !cardAt_hands, Hh.
    destruct (decide (pi = pj)) as [->|]; [|by rewrite list_lookup_alter_ne].
    rewrite list_lookup_alter_eq. destruct (hands g !! pj) as [cs|]; simpl; [|done].
    apply list_lookup_insert_ne. congruence.
Qed.


End Challenges.


(** ** Foreign aid *)

Section ForeignAid.

Variable rnd : nat → nat.

Lemma foreign_aid_initiation g actorId c targetId :
  coinsOf g actorId = Some c → (c < 10)%Z →
  coinsOf (game (resolveAction g actorId "foreign_aid" targetId)) actorId = Some (c + 2)%Z
  ∧ pendingAction (game (resolveAction g actorId "foreign_aid" targetId))
    = Some (foreign_aid_awaitingBlock actorId (initResponders g actorId)).
Proof.
  intros (ia & actor & Hf & <-)%find_coinsOf Hc. unfold resolveAction. rewrite Hf.
  rewrite (bool_decide_eq_false_2 (10 ≤ coins actor)%Z), andb_false_r by lia. simpl.
  autorewrite with obs. split.
  - by rewrite (coinsOf_add_coins g actorId actorId ia actor), decide_True.
  - do 2 f_equal. apply initResponders_seats. by autorewrite with obs.
Qed.

(** What a response of a listed responder finds in a state of a room. *)
Lemma responder_known g pa rs pid :
  Inv g → pendingAction g = Some pa → respondersOf pa = Some rs →
  keysIn (ids g) rs →
  is_Some (JsObject.own pid rs) →
  JsObject.has pid rs = true ∧ pid ≠ "__proto__" ∧ pid ≠ EmptyString
  ∧ is_Some (getPlayer g pid).
Proof.
  intros HI Hpa Hrs Hk [m Hown].
  assert (pid ∈ ids g) as Hin.
  { apply own_Some_elem_of in Hown. unfold keysIn in Hk. rewrite Forall_forall in Hk.
    by apply Hk in Hown. }
  pose proof (idsOk_plain _ _ (inv_ids _ HI) Hin) as Hplain.
  split_and!; [by apply own_has|by apply plainId_not_proto| |by apply getPlayer_elem_of].
  destruct Hplain as [Hne _]. by destruct pid.
Qed.

Lemma foreign_aid_block_raised g actorId rs playerId :
  Inv g → pendingAction g = Some (foreign_aid_awaitingBlock actorId rs) →
  is_Some (JsObject.own playerId rs) →
  ∃ r, handleResponse rnd g playerId "block" dukeBlock = Ok r
       ∧ pendingAction (game r)
         = Some (foreign_aid_awaitingChallengeBlock actorId playerId
                   (initResponders g playerId))
       ∧ purse (game r) = purse g.
Proof.
  intros HI Hpa Hown. pose proof (inv_pending _ HI _ Hpa) as (Ha & Hk & Hn & Hd & Hna).
  destruct (responder_known g _ rs playerId HI Hpa eq_refl Hk Hown)
    as (Hhas & Hproto & Hne & [ch Hch]).
  unfold handleResponse. rewrite Hpa. unfold respondForeignAidBlock. rewrite Hhas. simpl.
  rewrite (getPlayer_players g) by (by autorewrite with obs). rewrite Hch.
  eexists. split; [reflexivity|]. autorewrite with obs. split; [|done].
  by do 2 f_equal.
Qed.

Lemma foreign_aid_block_proved g actorId blockedBy rs playerId c :
  Inv g → pendingAction g = Some (foreign_aid_awaitingChallengeBlock actorId blockedBy rs) →
  is_Some (JsObject.own playerId rs) →
  coinsOf g actorId = Some c →
  playerHasRole g blockedBy Duke = true →
  ∃ r, handleResponse rnd g playerId "challenge" noPayload = Ok r
       ∧ coinsOf (game r) actorId = Some (c - 2)%Z
       ∧ (∀ a, a ≠ actorId → coinsOf (game r) a = coinsOf g a)
       ∧ pendingAction (game r)
         = Some (loseInfluence_awaitingChoice playerId "failed_challenge" endTurn).
Proof.
  intros HI Hpa Hown (ia & actor & Hf & <-)%find_coinsOf Hrole.
  pose proof (inv_pending _ HI _ Hpa) as (Ha & Hk & Hn & Hd).
  destruct (responder_known g _ rs playerId HI Hpa eq_refl Hk Hown)
    as (Hhas & Hproto & Hne & [ch Hch]).
  unfold handleResponse. rewrite Hpa. unfold respondForeignAidChallengeBlock.
  rewrite Hhas. simpl. rewrite firstChallenger_challenge by done.
  replace (truthy (Some playerId)) with (Some playerId) by (by destruct playerId).
  rewrite (playerHasRole_players g) by (by autorewrite with obs).
  rewrite Hrole, (getPlayer_players g) by (by autorewrite with obs).
  rewrite Hch, Hf. simpl.
  eexists. split; [reflexivity|]. autorewrite with obs.
  split_and!; [|intros a Hna; autorewrite with obs|done];
    rewrite (coinsOf_add_coins_later _ g actorId _ ia actor)
      by (done || by autorewrite with obs).
  - by rewrite decide_True.
  - by rewrite decide_False.
Qed.

Lemma foreign_aid_block_refuted g actorId blockedBy rs playerId :
  Inv g → pendingAction g = Some (foreign_aid_awaitingChallengeBlock actorId blockedBy rs) →
  is_Some (JsObject.own playerId rs) →
  playerHasRole g blockedBy Duke = false →
  ∃ r, handleResponse rnd g playerId "challenge" noPayload = Ok r
       ∧ purse (game r) = purse g
       ∧ pendingAction (game r)
         = Some (loseInfluence_awaitingChoice blockedBy "lost_challenge" endTurn).
Proof.
  intros HI Hpa Hown Hrole.
  pose proof (inv_pending _ HI _ Hpa) as (Ha & Hk & Hn & Hd).
  destruct (responder_known g _ rs playerId HI Hpa eq_refl Hk Hown)
    as (Hhas & Hproto & Hne & [ch Hch]).
  unfold handleResponse. rewrite Hpa. unfold respondForeignAidChallengeBlock.
  rewrite Hhas. simpl. rewrite firstChallenger_challenge by done.
  replace (truthy (Some playerId)) with (Some playerId) by (by destruct playerId).
  rewrite (playerHasRole_players g) by (by autorewrite with obs).
  rewrite Hrole, (getPlayer_players g) by (by autorewrite with obs).
  rewrite Hch. simpl.
  eexists. split; [reflexivity|]. by autorewrite with obs.
Qed.

Lemma foreign_aid_block_unchallenged g actorId blockedBy rs playerId c :
  Inv g → pendingAction g = Some (foreign_aid_awaitingChallengeBlock actorId blockedBy rs) →
  is_Some (JsObject.own playerId rs) →
  coinsOf g actorId = Some c →
  (∀ k m, (k, m) ∈ rs → k ≠ playerId → m = Passed) →
  ∃ r, handleResponse rnd g playerId "pass" noPayload = Ok r
       ∧ coinsOf (game r) actorId = Some (c - 2)%Z
       ∧ (∀ a, a ≠ actorId → coinsOf (game r) a = coinsOf g a)
       ∧ pendingAction (game r) = None.
Proof.
  intros HI Hpa Hown (ia & actor & Hf & <-)%find_coinsOf Hrs.
  pose proof (inv_pending _ HI _ Hpa) as (Ha & Hk & Hn & Hd).
  destruct (responder_known g _ rs playerId HI Hpa eq_refl Hk Hown)
    as (Hhas & Hproto & Hne & [ch Hch]).
  unfold handleResponse. rewrite Hpa. unfold respondForeignAidChallengeBlock.
  rewrite Hhas. simpl.
  assert (firstChallenger (JsObject.set playerId Passed rs) = None) as ->.
  { destruct (firstChallenger _) as [k|] eqn:E; [|done].
    apply firstChallenger_Some in E.
    by apply noChallenge_elem_of in E; [|apply set_noChallenge]. }
  simpl. rewrite everyonePassed_last, Hf by done. simpl.
  eexists. split; [reflexivity|]. autorewrite with obs.
  split_and!; [|intros a Hna; autorewrite with obs|done];
    rewrite (coinsOf_add_coins_later _ g actorId _ ia actor)
      by (done || by autorewrite with obs).
  - by rewrite decide_True.
  - by rewrite decide_False.
Qed.

(** A forced loss of influence that only ends the turn moves no coins. *)
Lemma endTurn_keeps_coins g pid reason playerId responseType payload r :
  pendingAction g = Some (loseInfluence_awaitingChoice pid reason endTurn) →
  handleResponse rnd g playerId responseType payload = Ok r →
  purse (game r) = purse g.
Proof.
  intros Hpa. unfold handleResponse. rewrite Hpa. intros [= <-].
  unfold respondLoseInfluence.
  repeat case_decide; [by autorewrite with obs..|].
  pose proof (purse_loseInfluence g playerId (cardIndex payload)) as Hp.
  destruct (loseInfluence g playerId (cardIndex payload)) as [[] g1]; simpl in *;
    by autorewrite with obs.
Qed.


End ForeignAid.

(** ** Steal *)

Section Steal.

Variable rnd : nat → nat.

Lemma parties_coins g a t :
  stealOk (ids g) a t →
  ∃ ca ct, coinsOf g a = Some ca ∧ coinsOf g t = Some ct ∧ a ≠ t.
Proof.
  intros ([pa Ha]%getPlayer_elem_of & [pt Ht]%getPlayer_elem_of & Hne).
  exists (coins pa), (coins pt). unfold coinsOf. by rewrite Ha, Ht.
Qed.

Lemma stolen_finishTurn g X a t ca ct :
  a ≠ t → coinsOf g a = Some ca → coinsOf g t = Some ct →
  purse X = purse g →
  stolen g (game (finishTurn (applySteal X a t))) a t ca ct.
Proof.
  intros Hne Ha Ht HX.
  rewrite <- (purse_coinsOf _ _ a HX) in Ha. rewrite <- (purse_coinsOf _ _ t HX) in Ht.
  destruct (applySteal_coins X a t ca ct Hne Ha Ht) as (E1 & E2 & E3).
  unfold stolen. autorewrite with obs. split_and!; [done..| |done].
  intros b Hba Hbt. autorewrite with obs. rewrite E3 by done. by apply purse_coinsOf.
Qed.

Lemma steal_unblocked g a t rs payload ca ct :
  a ≠ t → coinsOf g a = Some ca → coinsOf g t = Some ct →
  pendingAction g = Some (steal_awaitingBlock a t rs) →
  ∃ r, handleResponse rnd g t "pass" payload = Ok r ∧ stolen g (game r) a t ca ct.
Proof.
  intros Hne Ha Ht Hpa. unfold handleResponse. rewrite Hpa. unfold respondStealBlock.
  rewrite decide_False by (intros ?; done). simpl.
  eexists. split; [reflexivity|]. by apply stolen_finishTurn.
Qed.

Lemma steal_block_refuted g a t b blockRole rs playerId :
  Inv g → pendingAction g = Some (steal_awaitingChallengeBlock a t b blockRole rs) →
  is_Some (JsObject.own playerId rs) →
  playerHasRole g b blockRole = false →
  ∃ r, handleResponse rnd g playerId "challenge" noPayload = Ok r
       ∧ purse (game r) = purse g
       ∧ pendingAction (game r)
         = Some (loseInfluence_awaitingChoice b "lost_challenge"
                   (steal_apply_after_block_fail a t)).
Proof.
  intros HI Hpa Hown Hrole.
  pose proof (inv_pending _ HI _ Hpa) as (Hk & Hn & Hd).
  destruct (responder_known g _ rs playerId HI Hpa eq_refl Hk Hown)
    as (Hhas & Hproto & Hne & [ch Hch]).
  unfold handleResponse. rewrite Hpa. unfold respondStealChallengeBlock.
  rewrite Hhas. simpl. rewrite firstChallenger_challenge by done.
  replace (truthy (Some playerId)) with (Some playerId) by (by destruct playerId).
  rewrite (playerHasRole_players g) by (by autorewrite with obs).
  rewrite Hrole, (getPlayer_players g) by (by autorewrite with obs).
  rewrite Hch. simpl.
  eexists. split; [reflexivity|]. by autorewrite with obs.
Qed.

Lemma steal_after_loss g a t pid reason payload ca ct :
  a ≠ t → coinsOf g a = Some ca → coinsOf g t = Some ct →
  pendingAction g
  = Some (loseInfluence_awaitingChoice pid reason (steal_apply_after_block_fail a t)) →
  (loseInfluence g pid (cardIndex payload)).1 = true →
  ∃ r, handleResponse rnd g pid "loseInfluence" payload = Ok r
       ∧ stolen g (game r) a t ca ct.
Proof.
  intros Hne Ha Ht Hpa Hlose. unfold handleResponse. rewrite Hpa.
  unfold respondLoseInfluence. rewrite !decide_False by (intros ?; done).
  pose proof (purse_loseInfluence g pid (cardIndex payload)) as Hp.
  destruct (loseInfluence g pid (cardIndex payload)) as [[] g1]; [|done]. simpl in *.
  eexists. split; [reflexivity|]. apply stolen_finishTurn; try done.
Qed.


End Steal.

(** ** The choice that completes an exchange *)

Section ExchangeChoice.

Variable rnd : nat → nat.

Lemma uniqueOf_spec keep :
  NoDup (uniqueOf keep) ∧ ∀ x, x ∈ uniqueOf keep ↔ x ∈ keep.
Proof.
  unfold uniqueOf.
  assert (∀ acc, NoDup acc →
            NoDup (foldl (λ acc k, if decide (k ∈ acc) then acc else acc ++ [k]) acc keep)
            ∧ ∀ x, x ∈ foldl (λ acc k, if decide (k ∈ acc) then acc else acc ++ [k]) acc keep
                   ↔ x ∈ acc ∨ x ∈ keep) as Hgen.
  { induction keep as [|k keep IH]; intros acc Hacc; simpl.
    - split; [done|]. intros x. rewrite elem_of_nil. tauto.
    - case_decide as Hk.
      + destruct (IH acc Hacc) as [Hn Hx]. split; [done|]. intros x.
        rewrite Hx, elem_of_cons. split; [tauto|]. intros [?|[->|?]]; tauto.
      + destruct (IH (acc ++ [k])) as [Hn Hx].
        { apply NoDup_app. split_and!; [done| |apply NoDup_singleton].
          intros x Hx ->%list_elem_of_singleton. done. }
        split; [done|]. intros x.
        rewrite Hx, elem_of_app, list_elem_of_singleton, elem_of_cons. tauto. }
  destruct (Hgen [] (NoDup_nil_2)) as [Hn Hx]. split; [done|].
  intros x. rewrite Hx, elem_of_nil. tauto.
Qed.

Lemma handOptions_ids p :
  o_id <$> handOptions p = (λ i, "h" +:+ pretty i) <$> seq 0 (length (aliveCards p)).
Proof.
  unfold handOptions. rewrite fmap_imap.
  rewrite <- (imap_seq_0 (aliveCards p) (λ i, "h" +:+ pretty i)).
  by apply imap_ext.
Qed.

Lemma optionIds_NoDup p d1 d2 :
  NoDup (o_id <$> (handOptions p ++ drawnOptions (length (aliveCards p)) d1 d2)).
Proof.
  rewrite fmap_app, handOptions_ids. apply NoDup_app. split_and!.
  - apply NoDup_fmap_2; [|apply NoDup_seq]. intros i j [= H]. by apply pretty_nat_inj.
  - intros x (i & -> & _)%list_elem_of_fmap. simpl.
    intros [[=]|[[=]|[]%elem_of_nil]%elem_of_cons]%elem_of_cons.
  - simpl. apply NoDup_cons. split; [|apply NoDup_singleton].
    intros [= H]%list_elem_of_singleton. apply pretty_nat_inj in H. lia.
Qed.

(** With distinct option ids: the options picked by [k] distinct ids number
    [k] exactly when every id names an option. *)
Lemma chosen_length (opts : list ExchangeOption) (unique : list string) :
  NoDup (o_id <$> opts) → NoDup unique →
  (length (filter (λ o, o_id o ∈ unique) opts) = length unique
   ↔ ∀ x, x ∈ unique → x ∈ o_id <$> opts).
Proof.
  intros Ho Hu.
  set (l := o_id <$> filter (λ o, o_id o ∈ unique) opts).
  assert (NoDup l) as Hl.
  { subst l. eapply sublist_NoDup; [exact Ho|apply fmap_sublist, sublist_filter]. }
  assert (∀ x, x ∈ l ↔ x ∈ unique ∧ x ∈ o_id <$> opts) as Hin.
  { intros x. subst l. rewrite !list_elem_of_fmap. split.
    - intros (o & -> & [Hou Hoo]%list_elem_of_filter). split; [done|by exists o].
    - intros (Hx & o & -> & Hoo). exists o. split; [done|]. by apply list_elem_of_filter. }
  rewrite <- (length_fmap o_id). fold l. split.
  - intros Hlen x Hx.
    assert (l ≡ₚ unique) as Hp.
    { apply submseteq_length_Permutation; [|lia].
      apply NoDup_submseteq; [done|]. intros y. rewrite Hin. tauto. }
    rewrite <- Hp in Hx. apply Hin in Hx. tauto.
  - intros Hall. apply Permutation_length, NoDup_Permutation; [done..|].
    intros x. rewrite Hin. naive_solver.
Qed.

Lemma aliveCards_slots p :
  NoDup (aliveCards p).*1
  ∧ ∀ s, s ∈ (aliveCards p).*1 → s < length (influence p).
Proof.
  split.
  - unfold aliveCards. eapply sublist_NoDup; [|apply fmap_sublist, sublist_filter].
    rewrite fmap_imap.
    rewrite (imap_ext _ (λ i _, id i)) by done.
    rewrite (imap_seq_0 (influence p) id), list_fmap_id. apply NoDup_seq.
  - intros s ([i c] & -> & [Hc _]%aliveCards_elem_of)%list_elem_of_fmap.
    by apply lookup_lt_Some in Hc.
Qed.

Lemma placeChosen_lookup slots chosen cs j s o :
  NoDup slots → (∀ s, s ∈ slots → s < length cs) →
  slots !! j = Some s → chosen !! j = Some o →
  placeChosen slots chosen cs !! s = Some (mkCard (o_role o) false).
Proof.
  unfold placeChosen. revert chosen cs j.
  induction slots as [|s0 slots IH]; intros [|o0 chosen] cs j Hn Hlt Hs Ho; try done.
  apply NoDup_cons in Hn as [Hs0 Hn]. simpl. destruct j as [|j]; simpl in *.
  - injection Hs as ->. injection Ho as ->.
    pose proof (placeChosen_other slots chosen (<[s := mkCard (o_role o) false]> cs) s Hs0) as E.
    unfold placeChosen in E. rewrite E. apply list_lookup_insert_eq. apply Hlt. by left.
  - eapply IH; [done| |done..]. intros s' Hs'. rewrite length_insert. apply Hlt. by right.
Qed.

Lemma exchange_choice_rejected g a playerId responseType payload secret :
  turnSettled g →
  pendingAction g = Some (exchange_awaitingChoice a (keepCount secret)) →
  exchange g !! a = Some secret →
  NoDup (o_id <$> options secret) →
  length (uniqueOf (default [] (keep payload))) ≠ keepCount secret
  ∨ (∃ x, x ∈ default [] (keep payload) ∧ x ∉ o_id <$> options secret) →
  ∃ r, handleResponse rnd g playerId responseType payload = Ok r ∧ game r = g.
Proof.
  intros Hs Hpa Hex Hn Hbad. unfold handleResponse. rewrite Hpa.
  eexists. split; [reflexivity|]. unfold respondExchangeChoice.
  case_decide; [by apply reply_of_settled|]. subst playerId.
  case_decide; [by apply reply_of_settled|]. rewrite Hex.
  case_decide as Hlen; [by apply reply_of_settled|].
  case_decide as Hch; [by apply reply_of_settled|]. exfalso.
  destruct Hbad as [Hbad|(x & Hx & Hxo)]; [done|].
  destruct (uniqueOf_spec (default [] (keep payload))) as [Hu Hin].
  apply Hxo. eapply chosen_length; [done|exact Hu| |by apply Hin]. lia.
Qed.

Lemma exchange_choice_accepted g a payload secret actor :
  pendingAction g = Some (exchange_awaitingChoice a (keepCount secret)) →
  exchange g !! a = Some secret →
  NoDup (o_id <$> options secret) →
  getPlayer g a = Some actor →
  length (aliveCards actor) = keepCount secret →
  length (uniqueOf (default [] (keep payload))) = keepCount secret →
  (∀ x, x ∈ default [] (keep payload) → x ∈ o_id <$> options secret) →
  ∃ ia X,
    list_find (λ p, p_id p = a) (players g) = Some (ia, actor)
    ∧ handleResponse rnd g a "exchangeChoice" payload = Ok (finishTurn X)
    ∧ length (filter (λ o, o_id o ∈ uniqueOf (default [] (keep payload))) (options secret))
      = keepCount secret
    ∧ hands X
      = alter (placeChosen (aliveCards actor).*1
                 (filter (λ o, o_id o ∈ uniqueOf (default [] (keep payload)))
                    (options secret))) ia (hands g)
    ∧ deck X
      ≡ₚ (o_role <$> filter (λ o, o_id o ∉ uniqueOf (default [] (keep payload)))
                       (options secret)) ++ deck g
    ∧ exchange X = delete a (exchange g)
    ∧ purse X = purse g.
Proof.
  intros Hpa Hex Hn [ia Hf]%getPlayer_find Hk Hlen Hall.
  destruct (uniqueOf_spec (default [] (keep payload))) as [Hu Hin].
  set (unique := uniqueOf (default [] (keep payload))) in *.
  assert (length (filter (λ o, o_id o ∈ unique) (options secret)) = keepCount secret) as Hch.
  { rewrite <- Hlen. apply chosen_length; [done..|]. intros x Hx. by apply Hall, Hin. }
  exists ia. eexists. split; [done|].
  unfold handleResponse. rewrite Hpa. unfold respondExchangeChoice.
  rewrite !decide_False by (intros ?; done). rewrite Hex. fold unique.
  rewrite decide_False by (intros ?; done).
  rewrite decide_False by (intros ?; done). rewrite Hf.
  rewrite decide_False by (rewrite length_fmap; intros ?; done).
  split; [reflexivity|]. split; [done|].
  destruct (returnToDeck_spec rnd
              (o_role <$> filter (λ o, o_id o ∉ unique) (options secret))
              (alterPlayer ia
                 (set_influence (placeChosen (aliveCards actor).*1
                                   (filter (λ o, o_id o ∈ unique) (options secret)))) g))
    as (d & t & -> & Hd).
  autorewrite with obs. split_and!.
  - by rewrite ?hands_set_influence.
  - by rewrite Hd, ?set_influence_deck.
  - done.
  - by apply purse_alter.
Qed.


End ExchangeChoice.
(** ** Revealed cards *)

Section Monotone.

Variable rnd : nat → nat.

(** C8. Over any sequence of operations of the engine and of the resolver
    ([revealAndRedraw] and [loseInfluence] among them), a card that is
    revealed stays in its slot, revealed, with its role. The flag is compared
    before and after each operation: [revealAndRedraw] sets it on the shown
    card and then replaces that card, which was unrevealed before the call
    and is unrevealed after it. *)
Theorem revealed_flag_is_monotone (g g' : GameEngine) (pi ci : nat) (c : Card) :
  rtc (operation rnd) g g' →
  cardAt g pi ci = Some c → revealed c = true →
  cardAt g' pi ci = Some c.
Proof.
  intros Hops. destruct (evolves_operations rnd g g' Hops) as (_ & _ & Hc). apply Hc.
Qed.

End Monotone.
(** ** Conservation of the cards *)

Section Conservation.

Variable rnd : nat → nat.

Lemma tk_refl g : tableKept g g.
Proof. done. Qed.

Lemma tk_trans g1 g2 g3 : tableKept g1 g2 → tableKept g2 g3 → tableKept g1 g3.
Proof. intros [H1 L1] [H2 L2]. split; [by rewrite H2|congruence]. Qed.

Lemma tk_same g g' : deck g' = deck g → hands g' = hands g → tableKept g g'.
Proof. intros Hd Hh. unfold tableKept, cardsOnTable, handRoles. by rewrite Hd, Hh. Qed.

Lemma tk_reply g0 g l : tableKept g0 g → tableKept g0 (game (reply g l)).
Proof. intros H. eapply tk_trans; [done|]. apply tk_same; by autorewrite with obs. Qed.

Lemma tk_finishTurn g0 g : tableKept g0 g → tableKept g0 (game (finishTurn g)).
Proof. intros H. eapply tk_trans; [done|]. apply tk_same; by autorewrite with obs. Qed.

Lemma tk_log_push g0 g s : tableKept g0 g → tableKept g0 (log_push s g).
Proof. intros H. eapply tk_trans; [done|]. apply tk_same; by autorewrite with obs. Qed.

Lemma tk_set_pendingAction g0 g pa : tableKept g0 g → tableKept g0 (set_pendingAction pa g).
Proof. intros H. eapply tk_trans; [done|]. apply tk_same; by autorewrite with obs. Qed.

Lemma tk_beginLoseInfluence g0 g p r c :
  tableKept g0 g → tableKept g0 (beginLoseInfluence g p r c).
Proof. intros H. eapply tk_trans; [done|]. apply tk_same; by autorewrite with obs. Qed.

Lemma tk_set_exchange g0 g f : tableKept g0 g → tableKept g0 (set_exchange f g).
Proof. intros H. eapply tk_trans; [done|]. apply tk_same; by autorewrite with obs. Qed.

Lemma tk_add_coins g0 g i n : tableKept g0 g → tableKept g0 (alterPlayer i (add_coins n) g).
Proof. intros H. eapply tk_trans; [done|]. apply tk_same; by autorewrite with obs. Qed.

Lemma tk_applySteal g0 g a t : tableKept g0 g → tableKept g0 (applySteal g a t).
Proof. intros H. eapply tk_trans; [done|]. apply tk_same; by autorewrite with obs. Qed.

Lemma tk_revealAndRedraw g0 g p r :
  tableKept g0 g → tableKept g0 (revealAndRedraw rnd g p r).2.
Proof.
  intros H. eapply tk_trans; [done|]. split; [apply revealAndRedraw_cards|].
  destruct (revealAndRedraw_cases rnd g p r) as [->|(pi & q & idx & Hf & Hr)]; [done|].
  destruct (revealAndRedraw_hands rnd g p r pi q idx Hf Hr) as (r' & c & _ & _ & _ & _ & Hd).
  apply Permutation_length in Hd. simpl in Hd. lia.
Qed.

Lemma tk_loseInfluence g0 g p i b g' :
  loseInfluence g p i = (b, g') → tableKept g0 g → tableKept g0 g'.
Proof.
  intros E H. eapply tk_trans; [done|].
  pose proof (loseInfluence_spec g p i) as (_ & Hd & _ & _ & Hr & _). rewrite E in Hd, Hr.
  simpl in *. unfold tableKept, cardsOnTable. by rewrite Hd, Hr.
Qed.

Lemma inFlight_noChoice g : noChoice g → inFlight g = [].
Proof.
  intros H. unfold inFlight. destruct (pendingAction g) as [[]|] eqn:E; try done.
  by apply H in E.
Qed.

Lemma cardsInPlay_noChoice g : noChoice g → cardsInPlay g = cardsOnTable g.
Proof. intros H. unfold cardsInPlay. by rewrite inFlight_noChoice, app_nil_r. Qed.

Lemma filter_none {A} (P : A → Prop) `{∀ x, Decision (P x)} (l : list A) :
  Forall (λ x, ¬ P x) l → filter P l = [].
Proof.
  induction 1 as [|x l Hx _ IH]; [done|]. by rewrite filter_cons, decide_False.
Qed.

Lemma handOptions_spec p :
  Forall (λ o, o_source o = hand) (handOptions p)
  ∧ o_role <$> handOptions p = role <$> (aliveCards p).*2.
Proof.
  unfold handOptions. split.
  - apply Forall_forall. intros o (i & ic & -> & _)%elem_of_lookup_imap. done.
  - rewrite fmap_imap, <- list_fmap_compose.
    rewrite (imap_ext _ (const (role ∘ snd))) by done. apply imap_const.
Qed.

Lemma drawn_of_options p k d1 d2 :
  o_role <$> filter (λ o, o_source o = drawn) (handOptions p ++ drawnOptions k d1 d2)
  = [d1; d2].
Proof.
  rewrite filter_app, filter_none; [done|].
  destruct (handOptions_spec p) as [Hh _].
  eapply Forall_impl; [exact Hh|]. intros o ->. done.
Qed.

Lemma inFlight_secret g a k :
  secretOk g → pendingAction g = Some (exchange_awaitingChoice a k) →
  ∃ p d1 d2, getPlayer g a = Some p ∧ k = length (aliveCards p)
    ∧ exchange g !! a = Some (mkSecret k (handOptions p ++ drawnOptions k d1 d2))
    ∧ inFlight g = [d1; d2].
Proof.
  intros Hs Hpa. destruct (Hs a k Hpa) as (p & d1 & d2 & Hp & Hk & _ & Hex).
  exists p, d1, d2. split_and!; [done..|].
  unfold inFlight. rewrite Hpa, Hex. apply drawn_of_options.
Qed.

(** Two draws from a deck of two cards or more take its last two cards. *)
Lemma draw_two g :
  2 ≤ length (deck g) →
  ∃ d r1 r2 t1 t2,
    deck g = d ++ [r2; r1]
    ∧ draw rnd g = (r1, set_deck (d ++ [r2]) t1 g)
    ∧ draw rnd (set_deck (d ++ [r2]) t1 g) = (r2, set_deck d t2 (set_deck (d ++ [r2]) t1 g)).
Proof.
  intros Hlen.
  destruct (draw_nonempty rnd g) as (r1 & d1 & Hd1 & E1).
  { intros E. rewrite E in Hlen. simpl in Hlen. lia. }
  destruct (draw_nonempty rnd (set_deck d1 (randomCalls g) g)) as (r2 & d2 & Hd2 & E2).
  { autorewrite with obs. intros ->. rewrite Hd1 in Hlen. simpl in Hlen. lia. }
  autorewrite with obs in Hd2. subst d1.
  exists d2, r1, r2. eexists _, _. split_and!; [|exact E1|exact E2].
  by rewrite Hd1, <- app_assoc.
Qed.

Lemma startExchangeChoice_cards g0 g a :
  tableKept g0 g → 2 ≤ length (deck g0) → noChoice g →
  cardsInPlay (game (startExchangeChoice rnd g a)) ≡ₚ cardsOnTable g0.
Proof.
  intros [Hk Hl] Hlen Hno. rewrite <- Hk. unfold startExchangeChoice.
  destruct (list_find _ _) as [[ia actor]|] eqn:Hf.
  2:{ rewrite cardsInPlay_noChoice;
        [apply tk_reply, tk_refl|intros a' k'; autorewrite with obs; apply Hno]. }
  case_decide.
  { rewrite cardsInPlay_noChoice;
      [apply tk_finishTurn, tk_refl|intros a' k'; by autorewrite with obs]. }
  destruct (draw_two g) as (d & r1 & r2 & t1 & t2 & Hd & -> & ->); [lia|].
  unfold cardsInPlay, inFlight, cardsOnTable, handRoles. autorewrite with obs.
  rewrite lookup_insert_eq. simpl options. rewrite drawn_of_options, Hd.
  rewrite <- !app_assoc. f_equiv. rewrite (Permutation_app_comm _ [r1; r2]). simpl.
  apply Permutation_swap.
Qed.

Lemma Forall2_insert_other (cs : list Card) s new slots olds :
  s ∉ slots →
  Forall2 (λ s' c, cs !! s' = Some c) slots olds →
  Forall2 (λ s' c, <[s := new]> cs !! s' = Some c) slots olds.
Proof.
  intros Hs Hf. induction Hf as [|s' c slots olds Hc Hf IH]; [constructor|].
  apply not_elem_of_cons in Hs as [Hne Hs]. constructor; [|by apply IH].
  by rewrite list_lookup_insert_ne.
Qed.

(** The cards written by the choice of an exchange against the cards they
    replace. *)
Lemma placeChosen_perm slots (olds : list Card) chosen cs :
  NoDup slots → Forall2 (λ s c, cs !! s = Some c) slots olds →
  length chosen = length slots →
  ((λ o, mkCard (o_role o) false) <$> chosen) ++ cs
  ≡ₚ olds ++ placeChosen slots chosen cs.
Proof.
  unfold placeChosen. intros Hn. revert olds chosen cs.
  induction slots as [|s slots IH]; intros olds chosen cs Hf Hlen.
  - destruct chosen; [|done]. by apply Forall2_nil_inv_l in Hf as ->.
  - destruct chosen as [|o chosen]; [done|].
    apply Forall2_cons_inv_l in Hf as (c & olds' & Hc & Hf & ->).
    apply NoDup_cons in Hn as [Hs Hn]. simpl.
    rewrite <- (IH Hn olds' chosen (<[s := mkCard (o_role o) false]> cs));
      [|by apply Forall2_insert_other|simpl in Hlen; lia].
    etrans; [apply Permutation_middle|].
    etrans; [|symmetry; apply Permutation_middle]. apply Permutation_app_head.
    by apply insert_swap_perm.
Qed.

Lemma aliveCards_olds p :
  Forall2 (λ s c, influence p !! s = Some c) (aliveCards p).*1 (aliveCards p).*2.
Proof.
  apply Forall2_fmap, Forall_Forall2_diag, Forall_forall.
  intros [i c] Hin%aliveCards_elem_of. tauto.
Qed.

Lemma cardsInPlay_same g g' :
  deck g' = deck g → hands g' = hands g → pendingAction g' = pendingAction g →
  exchange g' = exchange g → cardsInPlay g' = cardsInPlay g.
Proof.
  intros Hd Hh Hp He. unfold cardsInPlay, cardsOnTable, handRoles, inFlight.
  by rewrite Hd, Hh, Hp, He.
Qed.

Lemma respondExchangeChoice_cards g a k pid rt pl :
  secretOk g → pendingAction g = Some (exchange_awaitingChoice a k) →
  cardsInPlay (game (respondExchangeChoice rnd g a pid rt pl)) ≡ₚ cardsInPlay g.
Proof.
  intros Hs Hpa. unfold respondExchangeChoice.
  destruct (inFlight_secret g a k Hs Hpa) as (p & d1 & d2 & Hp & Hk & Hex & Hfl).
  repeat (first [case_decide | case_match]);
    try (by erewrite cardsInPlay_same; [done|by autorewrite with obs..]).
  subst pid. rewrite Hex in *. simplify_eq. simpl in *.
  match goal with H : list_find _ _ = Some (?n, ?q) |- _ =>
    pose proof (find_getPlayer _ _ _ _ H) as (Hq & Hl & _); rename n into ia end.
  rewrite Hp in Hq. injection Hq as <-.
  set (unique := uniqueOf (default [] (keep pl))) in *.
  set (opts := handOptions p ++ drawnOptions (length (aliveCards p)) d1 d2) in *.
  set (chosen := filter (λ o, o_id o ∈ unique) opts) in *.
  destruct (returnToDeck_spec rnd (o_role <$> filter (λ o, o_id o ∉ unique) opts)
              (alterPlayer ia (set_influence (placeChosen (aliveCards p).*1 chosen)) g))
    as (d & t & -> & Hd).
  rewrite cardsInPlay_noChoice by (intros a' k'; by autorewrite with obs).
  unfold cardsInPlay, cardsOnTable, handRoles. autorewrite with obs.
  rewrite Hfl, hands_set_influence, Hd, set_influence_deck.
  destruct (aliveCards_slots p) as [Hnd _].
  pose proof (placeChosen_perm (aliveCards p).*1 (aliveCards p).*2 chosen (influence p)
                Hnd (aliveCards_olds p)) as Hperm.
  rewrite length_fmap in Hperm. specialize (Hperm ltac:(done)).
  pose proof (concat_alter_perm (hands g) ia (influence p)
                (placeChosen (aliveCards p).*1 chosen) _ _
                (hands_lookup _ _ _ Hl) Hperm) as Hall.
  apply (fmap_Permutation role) in Hall. rewrite !fmap_app in Hall.
  rewrite <- list_fmap_compose in Hall.
  destruct (handOptions_spec p) as [_ Hroles]. rewrite <- Hroles in Hall.
  pose proof (filter_app_complement (λ o, o_id o ∈ unique) opts) as Hsplit.
  apply (fmap_Permutation o_role) in Hsplit. rewrite fmap_app in Hsplit.
  fold chosen in Hsplit. subst opts. rewrite fmap_app in Hsplit. simpl in Hsplit.
  apply (Permutation_app_inv_l (o_role <$> handOptions p)).
  set (H := o_role <$> handOptions p) in *.
  set (U := o_role <$> filter _ _) in *.
  set (R := role <$> concat (hands g)) in *.
  set (R' := role <$> concat (alter _ ia (hands g))) in *.
  assert ((o_role <$> chosen) ++ R ≡ₚ H ++ R') as Hall' by exact Hall.
  set (C := o_role <$> chosen) in *. clearbody H U R R' C.
  rewrite <- !app_assoc.
  rewrite (Permutation_app_swap_app H U), (Permutation_app_swap_app H (deck g)), <- Hall'.
  rewrite (Permutation_app_comm R [d1; d2]), (Permutation_app_swap_app (deck g) [d1; d2]).
  rewrite (app_assoc H), <- Hsplit, <- (app_assoc C U).
  rewrite (Permutation_app_swap_app (deck g) C). apply Permutation_app_swap_app.
Qed.

Lemma tk_loseInfluence_game g0 g p i :
  tableKept g0 g → tableKept g0 (loseInfluence g p i).2.
Proof. eapply tk_loseInfluence, surjective_pairing. Qed.

Lemma tk_cards g0 g : tableKept g0 g → cardsOnTable g ≡ₚ cardsOnTable g0.
Proof. by intros [H _]. Qed.

End Conservation.

#[export] Hint Resolve tk_refl tk_reply tk_finishTurn tk_log_push tk_set_pendingAction
  tk_beginLoseInfluence tk_set_exchange tk_add_coins tk_applySteal tk_revealAndRedraw
  tk_loseInfluence tk_loseInfluence_game : tk.

Section ConservationOfCalls.

Variable rnd : nat → nat.

Lemma continue_cards g0 g cont :
  tableKept g0 g → 2 ≤ length (deck g0) → pendingAction g = None →
  cardsInPlay (game (continueAfterLoseInfluence rnd g cont)) ≡ₚ cardsOnTable g0.
Proof.
  intros Hk Hlen Hno. unfold continueAfterLoseInfluence.
  destruct cont; try case_match;
    first [ apply startExchangeChoice_cards; [done|done|intros a' k'; by rewrite Hno]
          | rewrite cardsInPlay_noChoice;
              [apply tk_cards; eauto 10 with tk|intros a' k'; by autorewrite with obs] ].
Qed.

Lemma cards_handleResponse g pid rt pl r :
  secretOk g → (noChoice g → 2 ≤ length (deck g)) →
  handleResponse rnd g pid rt pl = Ok r →
  cardsInPlay (game r) ≡ₚ cardsInPlay g.
Proof.
  intros Hs Hlen H.
  by_blocks H; name_results; try (by eapply respondExchangeChoice_cards);
    (assert (noChoice g) as Hno by (intros a' k'; by rewrite Hpending));
    specialize (Hlen Hno); rewrite (cardsInPlay_noChoice g Hno);
    first [ apply (continue_cards g); [eauto 10 with tk|done|by autorewrite with obs]
          | apply (startExchangeChoice_cards rnd g);
              [eauto 10 with tk|done|intros a' k'; by autorewrite with obs]
          | rewrite cardsInPlay_noChoice;
              [apply tk_cards; eauto 20 with tk
              |intros a' k'; autorewrite with obs; congruence] ].
Qed.

Lemma cards_resolveAction g actorId actionType targetId :
  pendingAction g = None →
  cardsInPlay (game (resolveAction g actorId actionType targetId)) ≡ₚ cardsInPlay g.
Proof.
  intros Hg.
  assert (noChoice g) as Hno by (intros a' k'; by rewrite Hg).
  rewrite (cardsInPlay_noChoice g Hno). unfold resolveAction.
  split_light;
    (rewrite cardsInPlay_noChoice;
       [apply tk_cards; eauto 20 with tk|intros a' k'; autorewrite with obs; congruence]).
Qed.

End ConservationOfCalls.
Section Dealing.

Variable rnd : nat → nat.

(** Dealing two cards to the player at seat [pi] from a deck that has them. *)
Lemma deal_cards g pi :
  2 ≤ length (deck g) → pi < length (players g) →
  cardsOnTable (deal rnd g pi) ≡ₚ cardsOnTable g
  ∧ length (deck (deal rnd g pi)) + 2 = length (deck g)
  ∧ length (players (deal rnd g pi)) = length (players g)
  ∧ pendingAction (deal rnd g pi) = pendingAction g.
Proof.
  intros Hlen Hpi. unfold deal.
  destruct (draw_nonempty rnd g) as (r1 & d1 & Hd1 & ->).
  { intros E. rewrite E in Hlen. simpl in Hlen. lia. }
  destruct (draw_nonempty rnd
              (alterPlayer pi (set_influence (λ cs, cs ++ [mkCard r1 false]))
                 (set_deck d1 (randomCalls g) g))) as (r2 & d2 & Hd2 & ->).
  { autorewrite with obs. intros ->. rewrite Hd1 in Hlen. simpl in Hlen. lia. }
  autorewrite with obs in Hd2. subst d1.
  destruct (lookup_lt_is_Some_2 (players g) pi Hpi) as [p Hp].
  split_and!.
  - unfold cardsOnTable, handRoles.
    rewrite hands_set_influence. autorewrite with obs.
    rewrite hands_set_influence. autorewrite with obs.
    rewrite list_alter_alter_eq, Hd1.
    pose proof (concat_alter_perm (hands g) pi (influence p)
                  ((λ cs, cs ++ [mkCard r2 false]) ∘ (λ cs, cs ++ [mkCard r1 false]))
                  [mkCard r1 false; mkCard r2 false] []
                  (hands_lookup _ _ _ Hp)) as Hperm.
    simpl in Hperm. rewrite <- Hperm.
    + rewrite <- !app_assoc. apply Permutation_app_head. simpl. apply Permutation_swap.
    + rewrite <- app_assoc. by rewrite (Permutation_app_comm (influence p)).
  - autorewrite with obs. rewrite Hd1, !length_app. simpl. lia.
  - by repeat (rewrite ?alterPlayer_players, ?length_alter; autorewrite with obs).
  - by autorewrite with obs.
Qed.

Lemma deal_all_cards g k m :
  2 * m ≤ length (deck g) → k + m ≤ length (players g) →
  cardsOnTable (foldl (deal rnd) g (seq k m)) ≡ₚ cardsOnTable g
  ∧ length (deck (foldl (deal rnd) g (seq k m))) + 2 * m = length (deck g)
  ∧ pendingAction (foldl (deal rnd) g (seq k m)) = pendingAction g.
Proof.
  revert g k. induction m as [|m IH]; intros g k Hd Hp; simpl.
  - split_and!; [done|lia|done].
  - destruct (deal_cards g k) as (Ec & El & En & Ea); [lia..|].
    destruct (IH (deal rnd g k) (S k)) as (Ec' & El' & Ea'); [lia..|].
    rewrite Ec', Ea'. split_and!; [done|lia|done].
Qed.

Lemma newGame_cards ps t :
  length ps ≤ 7 →
  cardsInPlay (newGame rnd ps t) ≡ₚ fullDeck.
Proof.
  intros Hn. unfold newGame.
  pose proof (makeDeck_perm rnd t) as Hd.
  destruct (makeDeck rnd t) as [d t']. simpl in Hd.
  set (g0 := mkGame _ d [] 0 None false None ∅ t').
  assert (length d = 15) as Hlen by (by rewrite Hd).
  destruct (deal_all_cards g0 0 (length ps)) as (Ec & _ & Ea).
  { simpl. lia. }
  { simpl. by rewrite length_fmap. }
  set (g1 := foldl (deal rnd) g0 (seq 0 (length ps))) in *.
  assert (cardsOnTable g0 ≡ₚ fullDeck) as Hc0.
  { unfold cardsOnTable, handRoles, hands, g0. simpl. rewrite <- list_fmap_compose.
    assert (concat ((influence ∘ (λ p : string * string, mkPlayer p.1 p.2 2 [])) <$> ps) = [])
      as -> by (clear; by induction ps).
    by rewrite app_nil_r. }
  set (g2 := log_push _ g1).
  destruct (currentPlayer_frame g2) as [i Ec2].
  assert (∀ g', g' = (currentPlayer g2).2 ∨ (∃ s, g' = log_push s (currentPlayer g2).2) →
                cardsInPlay g' ≡ₚ fullDeck) as Hfin.
  { intros g' Hg'. rewrite <- Hc0, <- Ec.
    rewrite cardsInPlay_noChoice.
    - apply tk_cards.
      destruct Hg' as [->|[s ->]]; rewrite Ec2; subst g2;
        apply tk_same; by autorewrite with obs.
    - intros a' k'. destruct Hg' as [->|[s ->]]; rewrite Ec2; subst g2;
        autorewrite with obs; by rewrite Ea. }
  destruct (currentPlayer g2) as [[cp|] g3]; apply Hfin; simpl; eauto.
Qed.

End Dealing.
Section Conserved.

Variable rnd : nat → nat.

Lemma concat_pairs {A} (ls : list (list A)) :
  Forall (λ n, n = 2) (length <$> ls) → length (concat ls) = 2 * length ls.
Proof.
  induction ls as [|l ls IH]; simpl; [done|].
  intros [Hl Hls]%Forall_cons. rewrite length_app, IH by done. lia.
Qed.

(** Up to six players, no choice pending: the deck holds three cards or more. *)
Lemma deck_at_least_three g :
  Base g → length (players g) ≤ 6 → cardsInPlay g ≡ₚ fullDeck → noChoice g →
  3 ≤ length (deck g).
Proof.
  intros HI Hn Hc Hno. rewrite cardsInPlay_noChoice in Hc by done.
  apply Permutation_length in Hc. unfold cardsOnTable, handRoles in Hc.
  rewrite length_app, length_fmap, concat_pairs in Hc by apply (base_hands _ HI).
  unfold hands in Hc. rewrite length_fmap in Hc. simpl in Hc. lia.
Qed.

Lemma players_evolves g g' : evolves g g' → length (players g') = length (players g).
Proof.
  intros (Hi & _). apply (f_equal length) in Hi. unfold ids in Hi.
  by rewrite !length_fmap in Hi.
Qed.

Lemma copies_fullDeck r : copies r fullDeck = 3.
Proof. by destruct r. Qed.

Lemma copies_perm r l k : l ≡ₚ k → copies r l = copies r k.
Proof. intros H. unfold copies. by rewrite H. Qed.

Lemma conserved_reachable g :
  reachable rnd g → length (players g) ≤ 6 → cardsInPlay g ≡ₚ fullDeck.
Proof.
  induction 1 as [ps t Hadm|g clientId actionType targetId r Hg IH Hact
                 |g clientId responseType payload r Hg IH Hin Hresp]; intros Hn.
  - apply newGame_cards.
    pose proof (f_equal length (newGame_ids rnd ps t)) as E.
    unfold ids in E. rewrite !length_fmap in E. lia.
  - pose proof (reachable_Base rnd g Hg) as HI.
    unfold onAction in Hact. destruct (gameOver g); [done|].
    pose proof (base_turn _ HI) as Hs. unfold turnSettled in Hs.
    destruct (currentPlayer g) as [[current|] g']; [|done]. simpl in Hs. subst g'.
    case_decide; [done|]. case_bool_decide as Hp; [done|]. simplify_eq.
    rewrite (players_evolves g) in Hn by apply evolves_resolveAction.
    rewrite cards_resolveAction; [by apply IH|].
    destruct (pendingAction g); [|done]. destruct Hp. by eexists.
  - pose proof (reachable_Base rnd g Hg) as HI.
    unfold onResponse in Hresp. simplify_eq.
    rewrite (players_evolves g) in Hn by (by eapply evolves_handleResponse).
    rewrite (cards_handleResponse rnd g clientId responseType payload r);
      [by apply IH|apply (base_secret _ HI)| |done].
    intros Hno. pose proof (deck_at_least_three g HI Hn (IH Hn) Hno). lia.
Qed.

(** C2, as the code has it. In a room of up to six players, the deck, every
    card in the players' hands (held or revealed) and the two cards drawn for
    an exchange whose choice is pending are together the fifteen cards: three
    of each of the five roles. *)
Theorem cards_conserved_up_to_six (g : GameEngine) :
  reachable rnd g → length (players g) ≤ 6 →
  cardsInPlay g ≡ₚ fullDeck
  ∧ (∀ r, copies r (cardsInPlay g) = 3)
  ∧ length (cardsInPlay g) = 15.
Proof.
  intros Hg Hn. pose proof (conserved_reachable g Hg Hn) as Hc. split_and!; [done| |].
  - intros r. rewrite (copies_perm r _ _ Hc). apply copies_fullDeck.
  - by rewrite Hc.
Qed.

End Conserved.

(** C2 as stated fails. While the choice of an exchange is pending, the two
    drawn cards are in neither the deck nor a hand: Ann's exchange in the
    sample room leaves thirteen cards on the table, one Ambassador among them.
    And a room of eight is dealt sixteen cards from a deck of fifteen, which
    [draw] makes anew when it is empty: thirty cards, six of each role. *)
Lemma conservation_fails :
  reachable Sample.rnd0 Sample.exchangeChoice
  ∧ length (cardsOnTable Sample.exchangeChoice) = 13
  ∧ copies Ambassador (cardsOnTable Sample.exchangeChoice) = 1
  ∧ reachable Sample.rnd0 Sample.freshOfEight
  ∧ length (cardsOnTable Sample.freshOfEight) = 30
  ∧ copies Duke (cardsOnTable Sample.freshOfEight) = 6.
Proof.
  split_and!; [apply exchangeChoice_reachable| | |apply freshOfEight_reachable| |];
    by vm_compute.
Qed.

(** ** The theorems at work in the sample room *)

Section Witnesses.

Import Sample.

Lemma projection_hides_unrevealed_witness :
  ∃ pv cv,
    sv_players (getStateFor fresh (Some "a")).1 !! 1 = Some pv
    ∧ pv_influence pv !! 0 = Some cv
    ∧ cv = mkCardView "?" false.
Proof.
  destruct (projection_hides_unrevealed fresh (Some "a") 1 0
              (mkPlayer "b" "Bob" 2 [mkCard Contessa false; mkCard Contessa false])
              (mkCard Contessa false))
    as (pv & cv & Hpv & _ & Hcv & _ & Hhide & _).
  - by vm_compute.
  - reflexivity.
  - exists pv, cv. split_and!; [done..|]. apply Hhide; [reflexivity|]. simpl. congruence.
Defined.

Lemma cards_conserved_up_to_six_witness :
  cardsInPlay exchangeChoice ≡ₚ fullDeck
  ∧ (∀ r, copies r (cardsInPlay exchangeChoice) = 3)
  ∧ length (cardsInPlay exchangeChoice) = 15.
Proof.
  apply (cards_conserved_up_to_six rnd0 exchangeChoice).
  - apply exchangeChoice_reachable.
  - vm_compute. lia.
Defined.


Lemma mandatory_coup_is_noop_witness :
  sameButLog rich (game (resolveAction rich "a" "tax" None))
  ∧ log (game (resolveAction rich "a" "tax" None))
    = log rich ++ ["Ann has 10+ coins and must Coup."].
Proof.
  apply (mandatory_coup_is_noop rich "a" "tax" None
           (mkPlayer "a" "Ann" 10 [mkCard Duke false; mkCard Contessa false])).
  - by vm_compute.
  - simpl. lia.
  - done.
  - by vm_compute.
Defined.




Lemma revealed_flag_is_monotone_witness :
  cardAt (revealAndRedraw rnd0 bobLost "b" Contessa).2 1 0 = Some (mkCard Contessa true).
Proof.
  apply (revealed_flag_is_monotone rnd0 bobLost).
  - apply rtc_once, op_revealAndRedraw.
  - by vm_compute.
  - reflexivity.
Defined.

Lemma coup_accepts_self_target_witness :
  pendingAction (game (resolveAction rich "a" "coup" (Some "a")))
  = Some (loseInfluence_awaitingChoice "a" "coup" endTurn)
  ∧ coinsOf (game (resolveAction rich "a" "coup" (Some "a"))) "a" = Some 3%Z.
Proof.
  destruct (coup_accepts_self_target rich "a"
              (mkPlayer "a" "Ann" 10 [mkCard Duke false; mkCard Contessa false]))
    as (Hp & Hc & _).
  - by vm_compute.
  - by vm_compute.
  - simpl. lia.
  - split; [exact Hp|exact Hc].
Defined.


End Witnesses.
(** ** More of what the resolver does and never does *)

Ltac one_line :=
  split_and!; [by autorewrite with obs..|];
  rewrite reply_log, log_push_log, length_app; simpl; lia.

Section Initiating.

(** X14. [resolveAction] never touches a card or a stored exchange: deck,
    hands and seats are after it what they were before, whatever is asked. *)
Theorem resolveAction_keeps_cards (g : GameEngine) (actorId actionType : string)
    (targetId : option string) :
  deck (game (resolveAction g actorId actionType targetId)) = deck g
  ∧ hands (game (resolveAction g actorId actionType targetId)) = hands g
  ∧ ids (game (resolveAction g actorId actionType targetId)) = ids g
  ∧ exchange (game (resolveAction g actorId actionType targetId)) = exchange g.
Proof.
  unfold resolveAction. split_light; by autorewrite with obs.
Qed.

(** X15. [resolveAction] refuses, with one line of log and nothing else
    changed: a coup by an actor with fewer than 7 coins, an assassination by
    one with fewer than 3, and a coup, assassination or steal whose target is
    missing or has no influence left. *)
Theorem resolveAction_refusals (g : GameEngine) (actorId actionType : string)
    (targetId : option string) (actor : Player) :
  getPlayer g actorId = Some actor →
  (actionType = "coup" ∧ (coins actor < 7)%Z)
  ∨ (actionType = "assassinate" ∧ (coins actor < 3)%Z)
  ∨ ((actionType = "coup" ∨ actionType = "assassinate" ∨ actionType = "steal")
     ∧ ∀ target, targetId ≫= getPlayer g = Some target → isAlive g (p_id target) = false) →
  players (game (resolveAction g actorId actionType targetId)) = players g
  ∧ pendingAction (game (resolveAction g actorId actionType targetId)) = pendingAction g
  ∧ deck (game (resolveAction g actorId actionType targetId)) = deck g
  ∧ length (log (game (resolveAction g actorId actionType targetId))) = S (length (log g)).
Proof.
  intros [ia Hf]%getPlayer_find Hwhy. unfold resolveAction. rewrite Hf.
  destruct (bool_decide (actionType ≠ "coup") && bool_decide (10 ≤ coins actor)%Z);
    [one_line|].
  destruct Hwhy as [[-> Hc]|[[-> Hc]|[Ht Hdead]]].
  - simpl. destruct (targetId ≫= getPlayer g) as [target|];
      [destruct (isAlive g (p_id target)); simpl|];
      rewrite ?bool_decide_eq_true_2 by done;
      one_line.
  - simpl. destruct (targetId ≫= getPlayer g) as [target|];
      [destruct (negb (isAlive g (p_id target)) || bool_decide (p_id target = actorId))|];
      rewrite ?bool_decide_eq_true_2 by done;
      one_line.
  - destruct (targetId ≫= getPlayer g) as [target|] eqn:Et.
    + specialize (Hdead target eq_refl).
      destruct Ht as [-> | [-> | ->]]; simpl; rewrite Hdead; simpl;
        one_line.
    + destruct Ht as [-> | [-> | ->]]; simpl;
        one_line.
Qed.

(** X16. Income: an actor with fewer than ten coins gains one coin, nobody
    else's coins change, and nothing is pending afterwards. *)
Theorem income_adds_one_coin (g : GameEngine) (actorId : string) (targetId : option string)
    (c : Z) :
  coinsOf g actorId = Some c → (c < 10)%Z →
  coinsOf (game (resolveAction g actorId "income" targetId)) actorId = Some (c + 1)%Z
  ∧ (∀ b, b ≠ actorId →
       coinsOf (game (resolveAction g actorId "income" targetId)) b = coinsOf g b)
  ∧ pendingAction (game (resolveAction g actorId "income" targetId)) = None.
Proof.
  intros (ia & actor & Hf & <-)%find_coinsOf Hc. unfold resolveAction. rewrite Hf.
  rewrite (bool_decide_eq_false_2 (10 ≤ coins actor)%Z), andb_false_r by lia. simpl.
  split_and!.
  - autorewrite with obs.
    by rewrite (coinsOf_add_coins g actorId actorId ia actor), decide_True.
  - intros b Hb. autorewrite with obs.
    by rewrite (coinsOf_add_coins g actorId b ia actor), decide_False.
  - by autorewrite with obs.
Qed.

End Initiating.

Section Responding.

Variable rnd : nat → nat.


(** X18. A response whose type is none of "pass", "challenge", "block",
    "loseInfluence" and "exchangeChoice" changes nothing, whoever sends it
    and whatever is pending. *)
Theorem unknown_response_changes_nothing (g : GameEngine) (playerId responseType : string)
    (payload : Payload) :
  turnSettled g →
  responseType ∉ responseTypes →
  ∃ r, handleResponse rnd g playerId responseType payload = Ok r
       ∧ game r = g ∧ privates r = [].
Proof.
  intros Hs Hty. exists (reply g []).
  split; [|split; [by apply reply_of_settled|apply reply_privates]].
  assert (responseType ≠ "pass" ∧ responseType ≠ "challenge" ∧ responseType ≠ "block"
          ∧ responseType ≠ "loseInfluence" ∧ responseType ≠ "exchangeChoice")
    as (H1 & H2 & H3 & H4 & H5).
  { split_and!; intros ->; apply Hty; unfold responseTypes; set_solver. }
  unfold handleResponse. destruct (pendingAction g) as [pa|] eqn:Hpa; [|done].
  destruct pa; unfold_blocks; unfold recordResponse, respondExchangeChoice;
    rewrite ?(decide_False (P := responseType = "pass")) by done;
    rewrite ?(decide_False (P := responseType = "challenge")) by done;
    rewrite ?(bool_decide_eq_false_2 (responseType = "block")) by done;
    rewrite ?(decide_True (P := responseType ≠ "loseInfluence")) by done;
    rewrite ?(decide_True (P := responseType ≠ "exchangeChoice")) by done;
    simpl; repeat case_match; done.
Qed.

Lemma put_keeps_others {V} k (v : V) o k' v' :
  (k', v') ∈ o → k' ≠ k → (k', v') ∈ JsObject.put k v o.
Proof.
  intros Hin Hne. induction o as [|[k0 v0] o IH]; simpl; [by apply elem_of_nil in Hin|].
  apply elem_of_cons in Hin as [[= <- <-]|Hin].
  - rewrite decide_False by done. by left.
  - case_decide; subst; right; auto.
Qed.

Lemma pass_records_no_challenge pid rs :
  noChallenge rs → truthy (firstChallenger (JsObject.set pid Passed rs)) = None.
Proof.
  intros Hn. destruct (firstChallenger _) as [k|] eqn:E; [|done].
  apply firstChallenger_Some in E.
  by apply noChallenge_elem_of in E; [|apply set_noChallenge].
Qed.

(** X19. Tax, claimed by [actorId] holding [c] coins in a state of a room
    whose players' ids are plain.
    The three coins are paid when the last responder passes, and when a
    challenge meets a Duke in the actor's hand (the challenger then has to
    give up an influence); a challenge against an actor without Duke pays
    nothing and the actor has to give up an influence; a pass that is not the
    last only records itself. *)
Theorem tax_settlement (g : GameEngine) (actorId playerId : string) (rs : Responders)
    (c : Z) :
  reachable rnd g → plainRoom g →
  pendingAction g = Some (tax_awaitingChallenge actorId rs) →
  playerId ∈ ids g → JsObject.has playerId rs = true →
  coinsOf g actorId = Some c →
  ((∀ k m, (k, m) ∈ rs → k ≠ playerId → m = Passed) →
   ∃ r, handleResponse rnd g playerId "pass" noPayload = Ok r
        ∧ coinsOf (game r) actorId = Some (c + 3)%Z
        ∧ pendingAction (game r) = None)
  ∧ ((∃ k m, (k, m) ∈ rs ∧ k ≠ playerId ∧ m ≠ Passed) →
     ∃ r, handleResponse rnd g playerId "pass" noPayload = Ok r
          ∧ purse (game r) = purse g
          ∧ pendingAction (game r)
            = Some (tax_awaitingChallenge actorId (JsObject.set playerId Passed rs)))
  ∧ (playerHasRole g actorId Duke = true →
     ∃ r, handleResponse rnd g playerId "challenge" noPayload = Ok r
          ∧ coinsOf (game r) actorId = Some (c + 3)%Z
          ∧ pendingAction (game r)
            = Some (loseInfluence_awaitingChoice playerId "failed_challenge" endTurn))
  ∧ (playerHasRole g actorId Duke = false →
     ∃ r, handleResponse rnd g playerId "challenge" noPayload = Ok r
          ∧ coinsOf (game r) actorId = Some c
          ∧ pendingAction (game r)
            = Some (loseInfluence_awaitingChoice actorId "lost_challenge" endTurn)).
Proof.
  intros Hreach Hplain Hpa Hplayer Hlisted Hc.
  pose proof (listed_own g playerId rs Hplain Hplayer Hlisted) as Hown.
  pose proof (reachable_Inv rnd g Hreach Hplain) as HI.
  pose proof Hc as (ia & actor & Hf & <-)%find_coinsOf.
  pose proof (inv_pending _ HI _ Hpa) as (Ha & Hk & Hn & Hd & Hna).
  destruct (responder_known g _ rs playerId HI Hpa eq_refl Hk Hown)
    as (Hhas & Hproto & Hne & [ch Hch]).
  assert (∀ X : GameEngine, players X = players g →
            playerHasRole X actorId Duke = playerHasRole g actorId Duke
            ∧ getPlayer X playerId = Some ch
            ∧ list_find (λ p, p_id p = actorId) (players X) = Some (ia, actor)) as HX.
  { intros X E. by rewrite (playerHasRole_players g), (getPlayer_players g), E. }
  unfold handleResponse. rewrite Hpa. unfold respondTax. rewrite Hhas. simpl.
  split_and!.
  - intros Hall. rewrite pass_records_no_challenge, everyonePassed_last by done.
    destruct (HX (set_pendingAction
                    (Some (tax_awaitingChallenge actorId (JsObject.set playerId Passed rs))) g))
      as (_ & _ & ->); [by autorewrite with obs|]. simpl.
    eexists. split; [reflexivity|]. autorewrite with obs.
    split; [|done].
    by rewrite (coinsOf_add_coins_later _ g actorId _ ia actor), decide_True
      by (done || by autorewrite with obs).
  - intros (k & m & Hin & Hkp & Hm). rewrite pass_records_no_challenge by done.
    assert (everyonePassed (JsObject.set playerId Passed rs) = false) as ->.
    { apply not_true_iff_false. intros Hall%everyonePassed_Forall.
      rewrite Forall_forall in Hall. apply Hm.
      apply (Hall (k, m)). unfold JsObject.set. rewrite decide_False by done.
      by apply put_keeps_others. }
    eexists. split; [reflexivity|]. by autorewrite with obs.
  - intros Hrole. rewrite firstChallenger_challenge by done.
    replace (truthy (Some playerId)) with (Some playerId) by (by destruct playerId).
    destruct (HX (set_pendingAction
                    (Some (tax_awaitingChallenge actorId
                             (JsObject.set playerId Challenged rs))) g))
      as (-> & -> & ->); [by autorewrite with obs|]. rewrite Hrole. simpl.
    eexists. split; [reflexivity|]. autorewrite with obs.
    split; [|done].
    by rewrite (coinsOf_add_coins_later _ g actorId _ ia actor), decide_True
      by (done || by autorewrite with obs).
  - intros Hrole. rewrite firstChallenger_challenge by done.
    replace (truthy (Some playerId)) with (Some playerId) by (by destruct playerId).
    destruct (HX (set_pendingAction
                    (Some (tax_awaitingChallenge actorId
                             (JsObject.set playerId Challenged rs))) g))
      as (-> & -> & ->); [by autorewrite with obs|]. rewrite Hrole. simpl.
    eexists. split; [reflexivity|]. by autorewrite with obs.
Qed.

(** X20. The three coins paid for an assassination are never given back,
    and no other coin moves while it is under way: whatever the response to
    any of its stages (challenge, block, challenge of the block, the forced
    losses of influence that continue it), every player's coins stay as they
    are. *)
Theorem assassination_is_never_refunded (g : GameEngine) (pa : PendingAction)
    (playerId responseType : string) (payload : Payload) (r : Reply) :
  pendingAction g = Some pa →
  assassinationOf pa = true →
  handleResponse rnd g playerId responseType payload = Ok r →
  purse (game r) = purse g.
Proof.
  intros Hpa Has H. unfold handleResponse in H. rewrite Hpa in H.
  destruct pa as [? ? []| | | | | | | | | | |]; simpl in Has; try discriminate;
    unfold_blocks; unfold continueAfterLoseInfluence in H;
    split_light; name_results; by autorewrite with obs.
Qed.

End Responding.

Section Rooms.

Variable rnd : nat → nat.

(** X21. No operation of the engine or of the resolver adds, removes or
    reorders players, or changes the number of cards in a hand. *)
Theorem operations_keep_the_seats (g g' : GameEngine) :
  rtc (operation rnd) g g' →
  ids g' = ids g ∧ handSizes g' = handSizes g.
Proof. intros H. by destruct (evolves_operations rnd g g' H) as (? & ? & _). Qed.

(** X22. In a state of a room where the game goes on and somebody is alive,
    [turnIndex] is the seat of a living player, the one [currentPlayer]
    returns: the turn never rests on an eliminated player. *)
Theorem turn_rests_on_a_living_player (g : GameEngine) :
  reachable rnd g → gameOver g = false → alivePlayers g ≠ [] →
  ∃ q, players g !! (turnIndex g mod length (players g)) = Some q
       ∧ isAlive g (p_id q) = true
       ∧ currentPlayer g = (Some q, g).
Proof.
  intros Hs%reachable_Base%base_turn Ho Hal. unfold turnSettled in Hs.
  destruct (currentPlayer_cases g) as [[_ [?|Hl]]|(q & i & E & _ & _ & Hq & Ha)].
  - congruence.
  - by destruct (alivePlayers g).
  - rewrite E in Hs. simpl in Hs. exists q.
    assert (turnIndex g = i) as <- by (by rewrite <- Hs).
    split_and!; [done..|]. by rewrite E, Hs.
Qed.

(** X23. [startExchangeChoice], for an actor with [k] unrevealed cards
    ([k] not 0) and a deck of two cards or more: takes the last two cards of
    the deck; stores for the actor [k] and [k + 2] options with distinct ids,
    the actor's unrevealed cards in hand order followed by the two drawn;
    sends the options to the actor and to nobody else; and makes the choice
    of [k] pending, hands untouched. *)
Theorem startExchangeChoice_offers_hand_and_two (g : GameEngine) (actorId : string)
    (ia : nat) (actor : Player) :
  list_find (λ p, p_id p = actorId) (players g) = Some (ia, actor) →
  aliveCards actor ≠ [] →
  2 ≤ length (deck g) →
  ∃ d r1 r2,
    deck g = d ++ [r2; r1]
    ∧ privates (startExchangeChoice rnd g actorId)
      = [mkPrivate actorId (length (aliveCards actor))
           ((λ o, (o_id o, o_role o))
              <$> (handOptions actor ++ drawnOptions (length (aliveCards actor)) r1 r2))]
    ∧ exchange (game (startExchangeChoice rnd g actorId)) !! actorId
      = Some (mkSecret (length (aliveCards actor))
                (handOptions actor ++ drawnOptions (length (aliveCards actor)) r1 r2))
    ∧ pendingAction (game (startExchangeChoice rnd g actorId))
      = Some (exchange_awaitingChoice actorId (length (aliveCards actor)))
    ∧ deck (game (startExchangeChoice rnd g actorId)) = d
    ∧ hands (game (startExchangeChoice rnd g actorId)) = hands g
    ∧ length (handOptions actor ++ drawnOptions (length (aliveCards actor)) r1 r2)
      = length (aliveCards actor) + 2
    ∧ NoDup (o_id <$> (handOptions actor ++ drawnOptions (length (aliveCards actor)) r1 r2)).
Proof.
  intros Hf Hk Hlen. unfold startExchangeChoice. rewrite Hf.
  rewrite decide_False by (by destruct (aliveCards actor)).
  destruct (draw_two rnd g Hlen) as (d & r1 & r2 & t1 & t2 & Hd & -> & ->).
  exists d, r1, r2. rewrite reply_privates. autorewrite with obs.
  split_and!; [done|done|apply lookup_insert_eq|done|done|done| |apply optionIds_NoDup].
  rewrite length_app. unfold handOptions. by rewrite length_imap.
Qed.

End Rooms.
(** ** The constructor *)

Section Constructor.

Variable rnd : nat → nat.

Lemma deal_players g pi :
  ∃ r1 r2,
    players (deal rnd g pi)
    = alter (set_influence (λ cs, cs ++ [mkCard r1 false; mkCard r2 false])) pi (players g)
    ∧ log (deal rnd g pi) = log g ∧ turnIndex (deal rnd g pi) = turnIndex g
    ∧ pendingAction (deal rnd g pi) = pendingAction g
    ∧ gameOver (deal rnd g pi) = gameOver g ∧ winnerId (deal rnd g pi) = winnerId g
    ∧ exchange (deal rnd g pi) = exchange g.
Proof.
  unfold deal.
  destruct (draw_pops rnd g) as (r1 & d1 & t1 & -> & _).
  destruct (draw_pops rnd
              (alterPlayer pi (set_influence (λ cs, cs ++ [mkCard r1 false]))
                 (set_deck d1 t1 g))) as (r2 & d2 & t2 & -> & _).
  exists r1, r2. split_and!; try by autorewrite with obs.
  rewrite !alterPlayer_players. autorewrite with obs. rewrite alterPlayer_players.
  autorewrite with obs. rewrite list_alter_alter_eq. apply list_alter_ext; [|done].
  intros [] _. unfold set_influence. simpl. by rewrite <- app_assoc.
Qed.

Lemma deal_all_players g k m :
  length (players (foldl (deal rnd) g (seq k m))) = length (players g)
  ∧ (∀ i p, players g !! i = Some p →
       ∃ p', players (foldl (deal rnd) g (seq k m)) !! i = Some p'
             ∧ if decide (k ≤ i < k + m) then dealtTwo p p' else p' = p)
  ∧ log (foldl (deal rnd) g (seq k m)) = log g
  ∧ turnIndex (foldl (deal rnd) g (seq k m)) = turnIndex g
  ∧ pendingAction (foldl (deal rnd) g (seq k m)) = pendingAction g
  ∧ gameOver (foldl (deal rnd) g (seq k m)) = gameOver g
  ∧ winnerId (foldl (deal rnd) g (seq k m)) = winnerId g
  ∧ exchange (foldl (deal rnd) g (seq k m)) = exchange g.
Proof.
  revert g k. induction m as [|m IH]; intros g k; cbn [seq foldl].
  - split_and!; try done. intros i p Hp. exists p. split; [done|].
    rewrite decide_False; [done|lia].
  - destruct (deal_players g k) as (r1 & r2 & Hpl & Hl & Ht & Hpa & Ho & Hw & He).
    destruct (IH (deal rnd g k) (S k)) as (Hn' & Hpl' & Hl' & Ht' & Hpa' & Ho' & Hw' & He').
    split_and!; try congruence.
    + by rewrite Hn', Hpl, length_alter.
    + intros i p Hp. destruct (decide (i = k)) as [->|Hne].
      * destruct (Hpl' k (set_influence (λ cs, cs ++ [mkCard r1 false; mkCard r2 false]) p))
          as (p' & Hp' & Hd).
        { rewrite Hpl, list_lookup_alter_eq, Hp. done. }
        exists p'. split; [done|]. rewrite decide_False in Hd by lia. subst p'.
        rewrite decide_True by lia. by exists r1, r2.
      * destruct (Hpl' i p) as (p' & Hp' & Hd).
        { by rewrite Hpl, list_lookup_alter_ne. }
        exists p'. split; [done|].
        destruct (decide (S k ≤ i < S k + m)), (decide (k ≤ i < k + S m)); try done; lia.
Qed.

(** X25. The constructor seats the players in the order given, each with 2
    coins and two unrevealed cards, with nothing pending, the game not over
    and the turn on the first seat; it logs the start and, when somebody is
    seated, whose turn it is. With seven players or fewer the deck keeps
    [15 - 2n] cards. *)
Theorem newGame_deals_two_each (ps : list (string * string)) (t : nat) :
  length (players (newGame rnd ps t)) = length ps
  ∧ (∀ i x, ps !! i = Some x →
       ∃ r1 r2, players (newGame rnd ps t) !! i
                = Some (mkPlayer x.1 x.2 2 [mkCard r1 false; mkCard r2 false]))
  ∧ (length ps ≤ 7 → length (deck (newGame rnd ps t)) + 2 * length ps = 15)
  ∧ turnIndex (newGame rnd ps t) = 0
  ∧ pendingAction (newGame rnd ps t) = None
  ∧ gameOver (newGame rnd ps t) = false
  ∧ winnerId (newGame rnd ps t) = None
  ∧ exchange (newGame rnd ps t) = ∅
  ∧ log (newGame rnd ps t)
    = "Game started. Each player has 2 influence and 2 coins."
      :: match ps with
         | x :: _ => ["It is now " +:+ x.2 +:+ "'s turn."]
         | [] => []
         end.
Proof.
  unfold newGame.
  pose proof (makeDeck_perm rnd t) as Hd.
  destruct (makeDeck rnd t) as [d t']. simpl in Hd.
  set (g0 := mkGame _ d [] 0 None false None ∅ t').
  destruct (deal_all_players g0 0 (length ps)) as (Hn & Hpl & Hl & Ht & Hpa & Ho & Hw & He).
  set (g1 := foldl (deal rnd) g0 (seq 0 (length ps))) in *.
  set (g2 := log_push _ g1).
  assert (∀ i x, ps !! i = Some x →
            ∃ r1 r2, players g2 !! i
                     = Some (mkPlayer x.1 x.2 2 [mkCard r1 false; mkCard r2 false])) as Hseat.
  { intros i x Hx. destruct (Hpl i (mkPlayer x.1 x.2 2 [])) as (p' & Hp' & Hd').
    { unfold g0. simpl. by rewrite list_lookup_fmap, Hx. }
    rewrite decide_True in Hd'.
    2:{ apply lookup_lt_Some in Hx. lia. }
    destruct Hd' as (r1 & r2 & ->). exists r1, r2. subst g2. by autorewrite with obs. }
  assert (length (players g2) = length ps) as Hlen.
  { subst g2. autorewrite with obs. rewrite Hn. unfold g0. simpl. by rewrite length_fmap. }
  assert (currentPlayer g2
          = (match ps with x :: _ => players g2 !! 0 | [] => None end, g2)) as Hcp.
  { destruct ps as [|x ps'].
    - apply currentPlayer_nobody. destruct (players g2); [done|simpl in Hlen; lia].
    - destruct (Hseat 0 x eq_refl) as (r1 & r2 & Hp0). rewrite Hp0.
      apply currentPlayer_first; [| |done|].
      + subst g2. by rewrite log_push_gameOver, Ho.
      + subst g2. by rewrite log_push_turnIndex, Ht.
      + unfold isAlive, getPlayer. destruct (players g2) as [|p0 pl]; [done|].
        injection Hp0 as ->. cbn [list_find]. by rewrite decide_True. }
  assert (∀ g3, (g3 = g2 ∨ ∃ s, g3 = log_push s g2) →
            length (players g3) = length ps
            ∧ (∀ i x, ps !! i = Some x →
                 ∃ r1 r2, players g3 !! i
                          = Some (mkPlayer x.1 x.2 2 [mkCard r1 false; mkCard r2 false]))
            ∧ (length ps ≤ 7 → length (deck g3) + 2 * length ps = 15)
            ∧ turnIndex g3 = 0 ∧ pendingAction g3 = None ∧ gameOver g3 = false
            ∧ winnerId g3 = None ∧ exchange g3 = ∅) as Hfin.
  { intros g3 Hg3.
    assert (players g3 = players g2 ∧ deck g3 = deck g1 ∧ turnIndex g3 = turnIndex g1
            ∧ pendingAction g3 = pendingAction g1 ∧ gameOver g3 = gameOver g1
            ∧ winnerId g3 = winnerId g1 ∧ exchange g3 = exchange g1)
      as (-> & -> & -> & -> & -> & -> & ->).
    { destruct Hg3 as [->|[s ->]]; subst g2;
        by rewrite ?log_push_players, ?log_push_deck, ?log_push_turnIndex,
             ?log_push_pendingAction, ?log_push_gameOver, ?log_push_winnerId,
             ?log_push_exchange. }
    rewrite Ht, Hpa, Ho, Hw, He. split_and!; try done.
    intros H7. destruct (deal_all_cards rnd g0 0 (length ps)) as (_ & Hdl & _).
    - unfold g0. simpl. rewrite Hd. simpl. lia.
    - unfold g0. simpl. by rewrite length_fmap.
    - fold g1 in Hdl. rewrite Hdl. unfold g0. simpl. by rewrite Hd. }
  rewrite Hcp. destruct ps as [|x ps'].
  - destruct (Hfin g2) as (H1 & H2 & H3 & H4 & H5 & H6 & H7 & H8); [by left|].
    split_and!; try done; subst g2; by rewrite log_push_log, Hl.
  - destruct (Hseat 0 x eq_refl) as (r1 & r2 & Hp0). rewrite Hp0.
    destruct (Hfin (log_push ("It is now " +:+ x.2 +:+ "'s turn.") g2))
      as (H1 & H2 & H3 & H4 & H5 & H6 & H7 & H8); [right; by eexists|].
    split_and!; try done; subst g2; by rewrite !log_push_log, Hl.
Qed.

End Constructor.
(** ** Coins across the messages of a room *)

Section CoinsOk.

Variable rnd : nat → nat.

Lemma purse_draw g : purse (draw rnd g).2 = purse g.
Proof. apply purse_players. by autorewrite with obs. Qed.

Lemma purse_returnToDeck roles g : purse (returnToDeck rnd roles g) = purse g.
Proof. apply purse_players. by autorewrite with obs. Qed.

Lemma purse_set_influence i f g : purse (alterPlayer i (set_influence f) g) = purse g.
Proof. by apply purse_alter. Qed.

Lemma purse_startExchangeChoice g a : purse (game (startExchangeChoice rnd g a)) = purse g.
Proof.
  unfold startExchangeChoice. split_light; name_results; autorewrite with obs;
    by rewrite ?purse_draw.
Qed.

Lemma purse_respondExchangeChoice g a playerId responseType payload :
  purse (game (respondExchangeChoice rnd g a playerId responseType payload)) = purse g.
Proof.
  unfold respondExchangeChoice. split_light; autorewrite with obs;
    by rewrite ?purse_returnToDeck, ?purse_set_influence.
Qed.

Lemma aid_startExchangeChoice g a :
  pendingAction (game (startExchangeChoice rnd g a)) ≫= aidActor = None
  ∨ pendingAction (game (startExchangeChoice rnd g a)) ≫= aidActor
    = pendingAction g ≫= aidActor.
Proof.
  destruct (pendingAction (game (startExchangeChoice rnd g a))) as [pa|] eqn:E; [|by left].
  apply startExchangeChoice_pending in E as [[k ->]|E]; [by left|right]. by rewrite E.
Qed.

Lemma coinsOk_startExchangeChoice g a :
  coinsOk g → coinsOk (game (startExchangeChoice rnd g a)).
Proof.
  intros H. eapply coinsOk_keep; [exact H|apply purse_startExchangeChoice|].
  apply aid_startExchangeChoice.
Qed.

Lemma coinsOk_respondExchangeChoice g a playerId responseType payload :
  coinsOk g → coinsOk (game (respondExchangeChoice rnd g a playerId responseType payload)).
Proof.
  intros H. eapply coinsOk_keep; [exact H|apply purse_respondExchangeChoice|].
  destruct (pendingAction (game (respondExchangeChoice rnd g a playerId responseType payload)))
    as [pa|] eqn:E; [|by left].
  apply respondExchangeChoice_pending in E. right. by rewrite E.
Qed.

Ltac use_pending :=
  repeat match goal with H : pendingAction _ = _ |- _ => rewrite H end.

Ltac aid_side :=
  autorewrite with obs; use_pending; simpl; first [by left | by right | done].

Ltac coins_leaf Hok :=
  first
    [ eapply coinsOk_keep; [exact Hok | by autorewrite with obs | aid_side]
    | eapply coinsOk_gain;
        [exact Hok | autorewrite with obs; reflexivity | by autorewrite with obs | lia
        | aid_side]
    | eapply coinsOk_repay;
        [exact Hok | use_pending; reflexivity | eassumption
        | autorewrite with obs; reflexivity | by autorewrite with obs | aid_side]
    | eapply coinsOk_steal;
        [exact Hok | autorewrite with obs; reflexivity | by autorewrite with obs | aid_side] ].

Lemma coinsOk_continue g cont :
  coinsOk g → pendingAction g = None →
  coinsOk (game (continueAfterLoseInfluence rnd g cont)).
Proof.
  intros Hok Hpending. unfold continueAfterLoseInfluence.
  split_light; try (by apply coinsOk_startExchangeChoice); coins_leaf Hok.
Qed.

Lemma coinsOk_handleResponse g playerId responseType payload r :
  coinsOk g →
  handleResponse rnd g playerId responseType payload = Ok r →
  coinsOk (game r).
Proof.
  intros Hok H. by_blocks H; name_results; autorewrite with obs in *;
    try (by apply coinsOk_respondExchangeChoice);
    try (apply coinsOk_startExchangeChoice);
    try (apply coinsOk_continue; [|by autorewrite with obs]);
    coins_leaf Hok.
Qed.

Lemma coinsOk_resolveAction g actorId actionType targetId :
  coinsOk g → coinsOk (game (resolveAction g actorId actionType targetId)).
Proof.
  intros Hok. unfold resolveAction.
  split_light;
    repeat match goal with
      | H : bool_decide _ = false |- _ => apply bool_decide_eq_false_1 in H
      end;
    first
      [ coins_leaf Hok
      | eapply coinsOk_pay;
          [exact Hok | eassumption | autorewrite with obs; reflexivity | reflexivity
          | simpl; lia | aid_side]
      | eapply coinsOk_aid;
          [exact Hok | eassumption | autorewrite with obs; reflexivity | aid_side] ].
Qed.

Lemma purse_deal g pi : purse (deal rnd g pi) = purse g.
Proof.
  unfold deal. split_light; name_results.
  by rewrite !purse_set_influence, purse_draw, purse_set_influence, purse_draw.
Qed.

Lemma coinsOk_newGame ps t : coinsOk (newGame rnd ps t).
Proof.
  unfold newGame. destruct (makeDeck rnd t) as [d t'].
  set (g0 := mkGame _ d [] 0 None false None ∅ t').
  assert (coinsOk g0) as H0.
  { split; [|by apply covered_none]. unfold solvent, g0. simpl.
    apply Forall_fmap, Forall_forall. intros x _. simpl. lia. }
  assert (∀ l g, coinsOk g → coinsOk (foldl (deal rnd) g l)) as Hdeal.
  { induction l as [|i l IH]; intros g Hg; [done|]. simpl. apply IH.
    eapply coinsOk_keep; [exact Hg|apply purse_deal|].
    right. unfold deal. split_light; name_results. by autorewrite with obs. }
  specialize (Hdeal (seq 0 (length ps)) g0 H0).
  set (g1 := foldl (deal rnd) g0 (seq 0 (length ps))) in *.
  set (g2 := log_push _ g1).
  destruct (currentPlayer_frame g2) as [i Ei].
  destruct (currentPlayer g2) as [[cp|] g3]; simpl in Ei; subst g3 g2;
    (eapply coinsOk_keep; [exact Hdeal|by autorewrite with obs|right; by autorewrite with obs]).
Qed.

Lemma coinsOk_reachable g : reachable rnd g → coinsOk g.
Proof.
  induction 1 as [ps t _|g c a t r _ IH Ha|g c rt pl r _ IH _ Hr].
  - apply coinsOk_newGame.
  - unfold onAction in Ha. destruct (gameOver g); [done|].
    destruct (currentPlayer_frame g) as [i Ei].
    destruct (currentPlayer g) as [[cur|] g']; [|done]. simpl in Ei. subst g'.
    repeat case_match; try done. injection Ha as <-.
    apply coinsOk_resolveAction.
    eapply coinsOk_keep; [exact IH|by autorewrite with obs|right; by autorewrite with obs].
  - unfold onResponse in Hr. injection Hr as Hr.
    by eapply coinsOk_handleResponse.
Qed.

(** X26. In every state of a room nobody holds a negative number of coins:
    a coup and an assassination are paid only by an actor who has the price,
    a steal takes no more than the target has, and the two coins of a foreign
    aid are still with the actor when a block takes them back. *)
Theorem coins_never_negative (g : GameEngine) :
  reachable rnd g →
  Forall (λ p, (0 ≤ coins p)%Z) (players g)
  ∧ ∀ a c, pendingAction g ≫= aidActor = Some a → coinsOf g a = Some c → (2 ≤ c)%Z.
Proof. intros H. apply (coinsOk_reachable g H). Qed.

End CoinsOk.
(** ** The further theorems at work in the sample room *)

Section FurtherWitnesses.

Import Sample.

Lemma nextTurn_passes_to_next_living_player_witness :
  ∃ k q,
    players fresh !! ((turnIndex fresh + k) mod length (players fresh)) = Some q
    ∧ nextTurn fresh
      = log_push ("It is now " +:+ p_name q +:+ "'s turn.")
          (set_turnIndex ((turnIndex fresh + k) mod length (players fresh)) fresh).
Proof.
  destruct (nextTurn_passes_to_next_living_player fresh) as (k & q & _ & Hq & _ & _ & Hn).
  - by vm_compute.
  - by vm_compute.
  - exists k, q. split; [exact Hq|exact Hn].
Defined.

Lemma initResponders_lists_living_others_witness :
  (initResponders fresh "a").*1
  = filter (λ id, id ≠ "a" ∧ isAlive fresh id = true) (ids fresh).
Proof.
  apply (initResponders_lists_living_others fresh "a").
  - apply (bool_decide_unpack _). by vm_compute.
  - apply (bool_decide_unpack _). by vm_compute.
Defined.

Lemma resolveAction_refusals_witness :
  players (game (resolveAction fresh "a" "coup" (Some "b"))) = players fresh
  ∧ pendingAction (game (resolveAction fresh "a" "coup" (Some "b"))) = pendingAction fresh
  ∧ deck (game (resolveAction fresh "a" "coup" (Some "b"))) = deck fresh
  ∧ length (log (game (resolveAction fresh "a" "coup" (Some "b")))) = S (length (log fresh)).
Proof.
  apply (resolveAction_refusals fresh "a" "coup" (Some "b")
           (mkPlayer "a" "Ann" 2 [mkCard Duke false; mkCard Contessa false])).
  - by vm_compute.
  - left. split; [reflexivity|]. simpl. lia.
Defined.

Lemma income_adds_one_coin_witness :
  coinsOf (game (resolveAction fresh "a" "income" None)) "a" = Some 3%Z.
Proof.
  apply (income_adds_one_coin fresh "a" None 2).
  - by vm_compute.
  - lia.
Defined.


Lemma unknown_response_changes_nothing_witness :
  ∃ r, handleResponse rnd0 taxOpen "b" "shout" noPayload = Ok r
       ∧ game r = taxOpen ∧ privates r = [].
Proof.
  apply (unknown_response_changes_nothing rnd0 taxOpen "b" "shout" noPayload).
  - by vm_compute.
  - apply (bool_decide_unpack _). by vm_compute.
Defined.

Lemma tax_settlement_witness :
  ∃ r, handleResponse rnd0 taxOpen "b" "pass" noPayload = Ok r
       ∧ coinsOf (game r) "a" = Some 5%Z
       ∧ pendingAction (game r) = None.
Proof.
  destruct (tax_settlement rnd0 taxOpen "a" "b" [("b", Pending)] 2) as (Hlast & _).
  - apply taxOpen_reachable.
  - apply taxOpen_plain.
  - by vm_compute.
  - apply (bool_decide_unpack _). by vm_compute.
  - reflexivity.
  - by vm_compute.
  - apply Hlast. intros k m Hk Hne.
    apply list_elem_of_singleton in Hk. injection Hk as -> ->. by destruct Hne.
Defined.

Lemma assassination_is_never_refunded_witness :
  ∃ r, handleResponse rnd0 contractOpen "b" "challenge" noPayload = Ok r
       ∧ purse (game r) = purse contractOpen.
Proof.
  destruct (handleResponse rnd0 contractOpen "b" "challenge" noPayload) as [r|] eqn:E;
    [|by vm_compute in E].
  exists r. split; [reflexivity|].
  apply (assassination_is_never_refunded rnd0 contractOpen
           (assassinate_awaitingChallenge "a" "b" [("b", Pending)])
           "b" "challenge" noPayload r).
  - by vm_compute.
  - reflexivity.
  - exact E.
Defined.

Lemma operations_keep_the_seats_witness :
  ids (nextTurn fresh) = ids fresh ∧ handSizes (nextTurn fresh) = handSizes fresh.
Proof. apply (operations_keep_the_seats rnd0), rtc_once, op_nextTurn. Defined.

Lemma turn_rests_on_a_living_player_witness :
  ∃ q, players taxOpen !! (turnIndex taxOpen mod length (players taxOpen)) = Some q
       ∧ isAlive taxOpen (p_id q) = true
       ∧ currentPlayer taxOpen = (Some q, taxOpen).
Proof.
  apply (turn_rests_on_a_living_player rnd0 taxOpen).
  - apply taxOpen_reachable.
  - by vm_compute.
  - by vm_compute.
Defined.

Lemma startExchangeChoice_offers_hand_and_two_witness :
  ∃ d r1 r2,
    deck fresh = d ++ [r2; r1]
    ∧ deck (game (startExchangeChoice rnd0 fresh "a")) = d
    ∧ hands (game (startExchangeChoice rnd0 fresh "a")) = hands fresh.
Proof.
  destruct (startExchangeChoice_offers_hand_and_two rnd0 fresh "a" 0
              (mkPlayer "a" "Ann" 2 [mkCard Duke false; mkCard Contessa false]))
    as (d & r1 & r2 & Hd & _ & _ & _ & Hd' & Hh & _).
  - by vm_compute.
  - by vm_compute.
  - vm_compute. lia.
  - exists d, r1, r2. split_and!; [exact Hd|exact Hd'|exact Hh].
Defined.

Lemma game_over_is_final_witness :
  gameOver (nextTurn bobOut) = true ∧ winnerId (nextTurn bobOut) = winnerId bobOut.
Proof.
  apply (game_over_is_final rnd0 bobOut).
  - apply rtc_once, op_nextTurn.
  - by vm_compute.
Defined.

Lemma coins_never_negative_witness :
  Forall (λ p, (0 ≤ coins p)%Z) (players aidBlocked)
  ∧ ∀ a c, pendingAction aidBlocked ≫= aidActor = Some a →
           coinsOf aidBlocked a = Some c → (2 ≤ c)%Z.
Proof. apply (coins_never_negative rnd0 aidBlocked), aidBlocked_reachable. Defined.

End FurtherWitnesses.
